(** * Buffers and scheduling queues of the FnApiRunner execution utilities

    A shallow embedding of the buffer family ([ListBuffer], [GroupingBuffer]),
    of the keyed scheduling queues ([_ProcessingQueueManager.KeyedQueue]) and
    of two methods of [FnApiRunnerExecutionContext]
    ([_enqueue_stage_initial_inputs], [_make_safe_windowing_strategy]) from
    [apache_beam/runners/portability/fn_api_runner/execution.py], followed by
    the properties established about them.

    Conventions.
    - Python [bytes] are lists of bytes; Python [int] is [Z].
    - A method [m(self, x)] becomes [m x self : res R * Self]: the returned
      pair is the outcome of the call and the object after it.  An exception
      leaves whatever mutation happened before it in place, so the object is
      returned next to [Raise] as well.
    - Python values that the runner treats as opaque (decoded elements, keys,
      windowed values) inhabit one type [V], as in the dynamically typed
      source. *)

From Stdlib Require Import ZArith.
From Stdlib.Strings Require Import Byte.
From Stdlib.Strings Require Import Ascii.
From stdpp Require Import base gmap strings list fin_maps.

Open Scope Z_scope.

(** ** Outcomes of a call *)

Inductive exn : Type :=
| RuntimeError (msg : string)
| AssertionError (msg : string)
| NotImplementedError (msg : string)
| ValueError (msg : string)
| KeyError (key : string)
| ZeroDivisionError
| IndexError
| CoderError (msg : string).

(** [Diverge] stands for a loop that never exits. *)
Inductive res (A : Type) : Type :=
| Ok (a : A)
| Raise (e : exn)
| Diverge.

Arguments Ok {A} a.
Arguments Raise {A} e.
Arguments Diverge {A}.

Definition is_Ok {A} (r : res A) : bool :=
  match r with Ok _ => true | _ => false end.

Definition is_RuntimeError {A} (r : res A) : bool :=
  match r with Raise (RuntimeError _) => true | _ => false end.

Abbreviation bytes := (list byte).

#[global] Instance byte_eq_dec : EqDecision byte := Byte.byte_eq_dec.

(** Truth value of an [Optional[List[...]]]: [None] and [[]] are false. *)
Definition truthy {A} (o : option (list A)) : bool :=
  match o with
  | Some (_ :: _) => true
  | _ => false
  end.

(** ** The coder capability

    [decode_from_stream] reads one nested value from the front of an input
    stream and returns it with the unread remainder of the stream;
    [encode_to_stream] returns the bytes it writes to the output stream.
    [decode] and [encode] are the non-stream entry points used for keys. *)
Record CoderImpl (V : Type) : Type := {
  decode_from_stream : bytes -> res (V * bytes);
  encode_to_stream : V -> res bytes;
  decode : bytes -> res V;
  encode : V -> res bytes
}.

Arguments decode_from_stream {V} _ _.
Arguments encode_to_stream {V} _ _.
Arguments decode {V} _ _.
Arguments encode {V} _ _.

(** The base [CoderImpl()], used when no coder is given: every method is
    abstract. *)
Definition base_CoderImpl (V : Type) : CoderImpl V := {|
  decode_from_stream := fun _ => Raise (NotImplementedError "");
  encode_to_stream := fun _ => Raise (NotImplementedError "");
  decode := fun _ => Raise (NotImplementedError "");
  encode := fun _ => Raise (NotImplementedError "")
|}.

(** ** Slices

    [slice_from_step k n l] is [l[k::n]] for [0 <= k] and [1 <= n]: the
    elements at positions [k], [k+n], [k+2n], ...  The counter is the number
    of elements still to skip before the next one is taken. *)
Fixpoint slice_from_step {A} (k n : nat) (l : list A) : list A :=
  match l with
  | [] => []
  | x :: t =>
      match k with
      | O => x :: slice_from_step (Nat.pred n) n t
      | S k' => slice_from_step k' n t
      end
  end.

(** ** ListBuffer *)

Module ListBuffer.

Record ListBuffer (V : Type) : Type := mk {
  _coder_impl : CoderImpl V;
  _inputs : list bytes;
  _grouped_output : option (list (list bytes));
  cleared : bool
}.

Arguments mk {V} _ _ _ _.
Arguments _coder_impl {V} _.
Arguments _inputs {V} _.
Arguments _grouped_output {V} _.
Arguments cleared {V} _.

Section Methods.
Context {V : Type}.

Definition __init__ (coder_impl : option (CoderImpl V)) : ListBuffer V :=
  mk (default (base_CoderImpl V) coder_impl) [] None false.

Definition copy (self : ListBuffer V) : ListBuffer V :=
  mk (_coder_impl self) (_inputs self) None false.

Definition append (element : bytes) (self : ListBuffer V)
  : res unit * ListBuffer V :=
  if cleared self then
    (Raise (RuntimeError "Trying to append to a cleared ListBuffer."), self)
  else if truthy (_grouped_output self) then
    (Raise (RuntimeError "ListBuffer append after read."), self)
  else
    (Ok tt,
     mk (_coder_impl self) (_inputs self ++ [element])
        (_grouped_output self) (cleared self)).

(** [extend]: the source is a [ListBuffer] ([inl]) or a buffer of another
    class ([inr]), on which [assert isinstance(extra, ListBuffer)] fails. *)
Definition extend {G : Type} (extra : ListBuffer V + G) (self : ListBuffer V)
  : res unit * ListBuffer V :=
  if cleared self then
    (Raise (RuntimeError "Trying to append to a cleared ListBuffer."), self)
  else if truthy (_grouped_output self) then
    (Raise (RuntimeError "ListBuffer append after read."), self)
  else
    match extra with
    | inl extra =>
        (Ok tt,
         mk (_coder_impl self) (_inputs self ++ _inputs extra)
            (_grouped_output self) (cleared self))
    | inr _ => (Raise (AssertionError ""), self)
    end.

(** The inner [while input_stream.size() > 0] loop of [partition] for one
    input record.  The state is the list of output streams and [idx].  The
    stream position only moves forward, so a decoder that consumes nothing
    leaves the loop condition as it was and the loop never exits; with
    [fuel] at least the length of the stream the [O] case is not reached. *)
Fixpoint redistribute_stream (fuel : nat) (c : CoderImpl V) (n : nat)
    (input_stream : bytes) (st : list bytes * nat) : res (list bytes * nat) :=
  match input_stream with
  | [] => Ok st
  | _ :: _ =>
      match fuel with
      | O => Diverge
      | S fuel' =>
          match decode_from_stream c input_stream with
          | Ok (decoded_value, rest) =>
              match encode_to_stream c decoded_value with
              | Ok written =>
                  if (length rest <? length input_stream)%nat then
                    redistribute_stream fuel' c n rest
                      (alter (fun o => o ++ written) (snd st) (fst st),
                       (S (snd st) mod n)%nat)
                  else Diverge
              | Raise e => Raise e
              | Diverge => Diverge
              end
          | Raise e => Raise e
          | Diverge => Diverge
          end
      end
  end.

(** The outer [for input in self._inputs] loop. *)
Fixpoint redistribute (c : CoderImpl V) (n : nat) (inputs : list bytes)
    (st : list bytes * nat) : res (list bytes * nat) :=
  match inputs with
  | [] => Ok st
  | input :: more =>
      match redistribute_stream (length input) c n input st with
      | Ok st' => redistribute c n more st'
      | Raise e => Raise e
      | Diverge => Diverge
      end
  end.

Definition partition (n : Z) (self : ListBuffer V)
  : res (list (list bytes)) * ListBuffer V :=
  if cleared self then
    (Raise (RuntimeError "Trying to partition a cleared ListBuffer."), self)
  else if (Z.of_nat (length (_inputs self)) >=? n)
          || (length (_inputs self) =? 0)%nat then
    (Ok (map (fun k => slice_from_step k (Z.to_nat n) (_inputs self))
             (seq 0 (Z.to_nat n))),
     self)
  else if negb (truthy (_grouped_output self)) then
    match redistribute (_coder_impl self) (Z.to_nat n) (_inputs self)
            (replicate (Z.to_nat n) [], O) with
    | Ok (output_stream_list, _) =>
        let grouped := map (fun output_stream => [output_stream])
                           output_stream_list in
        (Ok grouped,
         mk (_coder_impl self) (_inputs self) (Some grouped) (cleared self))
    | Raise e => (Raise e, self)
    | Diverge => (Diverge, self)
    end
  else
    (Ok (default [] (_grouped_output self)), self).

Definition __iter__ (self : ListBuffer V) : res (list bytes) * ListBuffer V :=
  if cleared self then
    (Raise (RuntimeError "Trying to iterate through a cleared ListBuffer."),
     self)
  else (Ok (_inputs self), self).

Definition clear (self : ListBuffer V) : res unit * ListBuffer V :=
  (Ok tt, mk (_coder_impl self) [] None true).

Definition reset (self : ListBuffer V) : res unit * ListBuffer V :=
  if negb (cleared self) then
    (Raise (RuntimeError "Trying to reset a non-cleared ListBuffer."), self)
  else
    (Ok tt, mk (_coder_impl self) (_inputs self) (_grouped_output self) false).

End Methods.
End ListBuffer.

(** ** GroupingBuffer *)

(** The operations on decoded values that [GroupingBuffer] relies on:
    [kv_of wkv] is [key, value = wkv.value], [with_value wkv v] is
    [wkv.with_value(v)], and [globally_window key values] is the value
    [(key, values)] placed in the global window with the on-time, first and
    last pane. *)
Class WindowedValues (V : Type) : Type := {
  kv_of : V -> res (V * V);
  with_value : V -> V -> V;
  globally_window : V -> list V -> V
}.

(** What the buffer uses of a [core.Windowing]: [is_default()] and the
    trigger driver built from it, whose [process_entire_key] maps a key and
    its values to the windowed key/value groups to emit. *)
Record Windowing (V : Type) : Type := {
  is_default : bool;
  create_trigger_driver : res (V -> list V -> res (list V))
}.

Arguments is_default {V} _.
Arguments create_trigger_driver {V} _.

Module GroupingBuffer.

Record GroupingBuffer (V : Type) : Type := mk {
  _key_coder : CoderImpl V;
  _pre_grouped_coder : CoderImpl V;
  _post_grouped_coder : CoderImpl V;
  _table : list (bytes * list V);
  _windowing : Windowing V;
  _grouped_output : option (list (list bytes))
}.

Arguments mk {V} _ _ _ _ _ _.
Arguments _key_coder {V} _.
Arguments _pre_grouped_coder {V} _.
Arguments _post_grouped_coder {V} _.
Arguments _table {V} _.
Arguments _windowing {V} _.
Arguments _grouped_output {V} _.

Section Methods.
Context {V : Type} `{WindowedValues V}.

Definition set_table (t : list (bytes * list V)) (self : GroupingBuffer V)
  : GroupingBuffer V :=
  mk (_key_coder self) (_pre_grouped_coder self) (_post_grouped_coder self)
     t (_windowing self) (_grouped_output self).

Definition set_grouped_output (g : option (list (list bytes)))
    (self : GroupingBuffer V) : GroupingBuffer V :=
  mk (_key_coder self) (_pre_grouped_coder self) (_post_grouped_coder self)
     (_table self) (_windowing self) g.

(** [key_coder] is [pre_grouped_coder.key_coder()]. *)
Definition __init__ (key_coder pre_grouped_coder post_grouped_coder
                       : CoderImpl V) (windowing : Windowing V)
  : GroupingBuffer V :=
  mk key_coder pre_grouped_coder post_grouped_coder [] windowing None.

Definition copy (self : GroupingBuffer V) : GroupingBuffer V := self.

(** [self._table[k].extend(vs)] on the insertion-ordered [defaultdict(list)]:
    a missing key is created at the end. *)
Fixpoint table_extend (k : bytes) (vs : list V) (t : list (bytes * list V))
  : list (bytes * list V) :=
  match t with
  | [] => [(k, vs)]
  | (k', vs') :: t' =>
      if decide (k' = k) then (k', vs' ++ vs) :: t'
      else (k', vs') :: table_extend k vs t'
  end.

(** The [while input_stream.size() > 0] loop of [append]; fuel as in
    [ListBuffer.redistribute_stream]. *)
Fixpoint append_loop (fuel : nat) (coder_impl key_coder_impl : CoderImpl V)
    (is_trivial_windowing : bool) (input_stream : bytes)
    (t : list (bytes * list V)) : res unit * list (bytes * list V) :=
  match input_stream with
  | [] => (Ok tt, t)
  | _ :: _ =>
      match fuel with
      | O => (Diverge, t)
      | S fuel' =>
          match decode_from_stream coder_impl input_stream with
          | Ok (windowed_key_value, rest) =>
              match kv_of windowed_key_value with
              | Ok (key, value) =>
                  match encode key_coder_impl key with
                  | Ok encoded_key =>
                      let t' :=
                        table_extend encoded_key
                          [if is_trivial_windowing then value
                           else with_value windowed_key_value value] t in
                      if (length rest <? length input_stream)%nat then
                        append_loop fuel' coder_impl key_coder_impl
                          is_trivial_windowing rest t'
                      else (Diverge, t')
                  | Raise e => (Raise e, t)
                  | Diverge => (Diverge, t)
                  end
              | Raise e => (Raise e, t)
              | Diverge => (Diverge, t)
              end
          | Raise e => (Raise e, t)
          | Diverge => (Diverge, t)
          end
      end
  end.

Definition append (elements_data : bytes) (self : GroupingBuffer V)
  : res unit * GroupingBuffer V :=
  if truthy (_grouped_output self) then
    (Raise (RuntimeError "Grouping table append after read."), self)
  else
    let '(r, t) :=
      append_loop (length elements_data) (_pre_grouped_coder self)
        (_key_coder self) (is_default (_windowing self)) elements_data
        (_table self) in
    (r, set_table t self).

(** [extend]: a [ListBuffer] source ([inl]) is ignored, a [GroupingBuffer]
    source ([inr]) is merged key by key. *)
Definition extend {L : Type} (input_buffer : L + GroupingBuffer V)
    (self : GroupingBuffer V) : res unit * GroupingBuffer V :=
  match input_buffer with
  | inl _ => (Ok tt, self)
  | inr other =>
      (Ok tt,
       set_table
         (fold_left (fun t kv => table_extend kv.1 kv.2 t) (_table other)
                    (_table self))
         self)
  end.

(** [output_stream_list[idx % n]] for a list of [max n 0] streams. *)
Definition stream_index (idx : nat) (n : Z) : res nat :=
  if n =? 0 then Raise ZeroDivisionError
  else if n <? 0 then Raise IndexError
  else Ok (Z.to_nat (Z.of_nat idx mod n)).

(** [for wkvs in windowed_key_values(key, windowed_values)]. *)
Fixpoint encode_groups (coder_impl : CoderImpl V) (idx : nat) (n : Z)
    (wkvss : list V) (output_stream_list : list bytes) : res (list bytes) :=
  match wkvss with
  | [] => Ok output_stream_list
  | wkvs :: more =>
      match stream_index idx n with
      | Ok i =>
          match encode_to_stream coder_impl wkvs with
          | Ok written =>
              encode_groups coder_impl idx n more
                (alter (fun o => o ++ written) i output_stream_list)
          | Raise e => Raise e
          | Diverge => Diverge
          end
      | Raise e => Raise e
      | Diverge => Diverge
      end
  end.

(** [for idx, (encoded_key, windowed_values) in enumerate(table.items())]. *)
Fixpoint encode_table (coder_impl key_coder_impl : CoderImpl V)
    (windowed_key_values : V -> list V -> res (list V)) (n : Z) (idx : nat)
    (items : list (bytes * list V)) (output_stream_list : list bytes)
  : res (list bytes) :=
  match items with
  | [] => Ok output_stream_list
  | (encoded_key, windowed_values) :: more =>
      match decode key_coder_impl encoded_key with
      | Ok key =>
          match windowed_key_values key windowed_values with
          | Ok wkvss =>
              match encode_groups coder_impl idx n wkvss
                      output_stream_list with
              | Ok streams =>
                  encode_table coder_impl key_coder_impl windowed_key_values
                    n (S idx) more streams
              | Raise e => Raise e
              | Diverge => Diverge
              end
          | Raise e => Raise e
          | Diverge => Diverge
          end
      | Raise e => Raise e
      | Diverge => Diverge
      end
  end.

Definition partition (n : Z) (self : GroupingBuffer V)
  : res (list (list bytes)) * GroupingBuffer V :=
  if negb (truthy (_grouped_output self)) then
    match (if is_default (_windowing self)
           then Ok (fun key values => Ok [globally_window key values])
           else create_trigger_driver (_windowing self)) with
    | Ok windowed_key_values =>
        let self1 :=
          set_grouped_output (Some (replicate (Z.to_nat n) [])) self in
        match encode_table (_post_grouped_coder self) (_key_coder self)
                windowed_key_values n O (_table self)
                (replicate (Z.to_nat n) []) with
        | Ok output_stream_list =>
            let grouped := map (fun output_stream => [output_stream])
                               output_stream_list in
            (Ok grouped,
             set_table [] (set_grouped_output (Some grouped) self1))
        | Raise e => (Raise e, self1)
        | Diverge => (Diverge, self1)
        end
    | Raise e => (Raise e, self)
    | Diverge => (Diverge, self)
    end
  else
    (Ok (default [] (_grouped_output self)), self).

Definition __iter__ (self : GroupingBuffer V)
  : res (list bytes) * GroupingBuffer V :=
  match partition 1 self with
  | (Ok shards, self') => (Ok (concat shards), self')
  | (Raise e, self') => (Raise e, self')
  | (Diverge, self') => (Diverge, self')
  end.

(** The class attribute [cleared = False]. *)
Definition cleared (self : GroupingBuffer V) : bool := false.

Definition clear (self : GroupingBuffer V) : res unit * GroupingBuffer V :=
  (Ok tt, self).

Definition reset (self : GroupingBuffer V) : res unit * GroupingBuffer V :=
  (Ok tt, self).

End Methods.
End GroupingBuffer.

(** ** The buffer family

    A [PartitionableBuffer] held in a [DataInput] is an instance of one of
    the two classes; method calls dispatch on the class of the receiver. *)
Inductive Buffer (V : Type) : Type :=
| BList (b : ListBuffer.ListBuffer V)
| BGroup (g : GroupingBuffer.GroupingBuffer V).

Arguments BList {V} b.
Arguments BGroup {V} g.

Section BufferDispatch.
Context {V : Type} `{WindowedValues V}.

Definition Buffer_source (extra : Buffer V)
  : ListBuffer.ListBuffer V + GroupingBuffer.GroupingBuffer V :=
  match extra with
  | BList b => inl b
  | BGroup g => inr g
  end.

(** [self.extend(extra)]. *)
Definition Buffer_extend (extra : Buffer V) (self : Buffer V)
  : res unit * Buffer V :=
  match self with
  | BList b =>
      let '(r, b') := ListBuffer.extend (Buffer_source extra) b in
      (r, BList b')
  | BGroup g =>
      let '(r, g') := GroupingBuffer.extend (Buffer_source extra) g in
      (r, BGroup g')
  end.

(** Truth value of a buffer object: neither class defines [__bool__] or
    [__len__], so an instance is true whatever it holds. *)
Definition Buffer_bool (b : Buffer V) : bool := true.

End BufferDispatch.

(** ** Insertion-ordered dictionaries *)

Section Dict.
Context {I B : Type} `{EqDecision I}.

Fixpoint dict_get (i : I) (d : list (I * B)) : option B :=
  match d with
  | [] => None
  | (j, b) :: d' => if decide (j = i) then Some b else dict_get i d'
  end.

(** [d[i] = b]: replaces in place, or adds at the end. *)
Fixpoint dict_set (i : I) (b : B) (d : list (I * B)) : list (I * B) :=
  match d with
  | [] => [(i, b)]
  | (j, c) :: d' =>
      if decide (j = i) then (j, b) :: d' else (j, c) :: dict_set i b d'
  end.

Definition dict_keys (d : list (I * B)) : list I := map fst d.

End Dict.

(** ** The scheduling queues *)

(** [DataInput(data, timers)]: per-PCollection buffers and per-timer-family
    buffers, the latter keyed by (transform id, timer family id). *)
Record DataInput (V : Type) : Type := mkDataInput {
  data : list (string * Buffer V);
  timers : list ((string * string) * Buffer V)
}.

Arguments mkDataInput {V} _ _.
Arguments data {V} _.
Arguments timers {V} _.

#[global] Instance DataInput_inhabited {V} : Inhabited (DataInput V) :=
  populate (mkDataInput [] []).

(** The truth value of a [DataInput] when the class is a plain two-field
    tuple, as its construction [DataInput(data_input, {})] and the accesses
    [.data] and [.timers] show it: a tuple that is not empty is true, whatever
    its fields hold. *)
Definition tuple_bool {V : Type} (inputs : DataInput V) : bool := true.

Module KeyedQueue.

(** A queue element is the tuple [(key, inputs)]; the deque [_q] and the
    index [_keyed_elements] hold the same tuple object, so the dictionaries
    of its [DataInput] are shared.  [store] maps the address of each such
    object to its current contents, and both structures hold the address.
    [_q] is written leftmost element first. *)
Record KeyedQueue (K V : Type) `{Countable K} : Type := mk {
  store : gmap nat (DataInput V);
  _q : list (K * nat);
  _keyed_elements : gmap K (K * nat)
}.

Arguments mk {K V _ _} _ _ _.
Arguments store {K V _ _} _.
Arguments _q {K V _ _} _.
Arguments _keyed_elements {K V _ _} _.

Section Methods.
Context {K V : Type} `{Countable K} `{WindowedValues V}.

(** [DataInput_bool] is the truth value of a [DataInput] in [if not
    incoming_inputs]; the class is declared in [translations.py]. *)
Variable DataInput_bool : DataInput V -> bool.

Definition __init__ : KeyedQueue K V := mk ∅ [] ∅.

(** The two merge loops of [enque], over the keys of the incoming
    dictionary in order.  An exception raised by [extend] leaves the entries
    merged so far in place. *)
Fixpoint merge_into {I : Type} `{EqDecision I} (incoming : list (I * Buffer V))
    (existing : list (I * Buffer V)) : res unit * list (I * Buffer V) :=
  match incoming with
  | [] => (Ok tt, existing)
  | (pcoll, inc) :: more =>
      match dict_get pcoll existing with
      | Some ex =>
          if Buffer_bool inc && Buffer_bool ex then
            match Buffer_extend inc ex with
            | (Ok _, ex') => merge_into more (dict_set pcoll ex' existing)
            | (Raise e, ex') => (Raise e, dict_set pcoll ex' existing)
            | (Diverge, ex') => (Diverge, dict_set pcoll ex' existing)
            end
          else if Buffer_bool inc then
            merge_into more (dict_set pcoll inc existing)
          else merge_into more existing
      | None =>
          if Buffer_bool inc then
            merge_into more (dict_set pcoll inc existing)
          else merge_into more existing
      end
  end.

Definition merge_inputs (incoming_inputs existing_inputs : DataInput V)
  : res unit * DataInput V :=
  match merge_into (data incoming_inputs) (data existing_inputs) with
  | (Ok _, data') =>
      let '(r, timers') :=
        merge_into (timers incoming_inputs) (timers existing_inputs) in
      (r, mkDataInput data' timers')
  | (r, data') => (r, mkDataInput data' (timers existing_inputs))
  end.

(** [enque(elm)].  The incoming [DataInput] is an object the caller built
    for this call; when the key is new it is placed in the store at an
    unused address.  An address held by the queue always resolves in its
    store, so reading it is a total lookup. *)
Definition enque (elm : K * DataInput V) (self : KeyedQueue K V)
  : res unit * KeyedQueue K V :=
  let key := elm.1 in
  let incoming_inputs := elm.2 in
  if negb (DataInput_bool incoming_inputs) then (Ok tt, self)
  else
    match _keyed_elements self !! key with
    | Some (_, ref) =>
        let existing_inputs := store self !!! ref in
        let '(r, merged) := merge_inputs incoming_inputs existing_inputs in
        (r, mk (<[ref := merged]> (store self)) (_q self)
               (_keyed_elements self))
    | None =>
        let ref := fresh (dom (store self)) in
        (Ok tt,
         mk (<[ref := incoming_inputs]> (store self))
            ((key, ref) :: _q self)
            (<[key := (key, ref)]> (_keyed_elements self)))
    end.

(** [deque()]: [self._q.pop()] takes the rightmost element, then
    [del self._keyed_elements[key]]. *)
Definition deque (self : KeyedQueue K V)
  : res (K * DataInput V) * KeyedQueue K V :=
  match reverse (_q self) with
  | [] => (Raise IndexError, self)
  | (key, ref) :: rest_rev =>
      match _keyed_elements self !! key with
      | None =>
          (Raise (KeyError ""),
           mk (store self) (reverse rest_rev) (_keyed_elements self))
      | Some _ =>
          (Ok (key, store self !!! ref),
           mk (store self) (reverse rest_rev)
              (delete key (_keyed_elements self)))
      end
  end.

Definition __len__ (self : KeyedQueue K V) : nat := length (_q self).

End Methods.
End KeyedQueue.

(** ** The execution context *)

Record FunctionSpec : Type := mkFunctionSpec {
  urn : string;
  payload : bytes
}.

Inductive MergeStatus : Type :=
| UNSPECIFIED
| NON_MERGING
| NEEDS_MERGE
| ALREADY_MERGED.

Record WindowingStrategy : Type := mkWindowingStrategy {
  window_fn : FunctionSpec;
  merge_status : MergeStatus;
  window_coder_id : string;
  environment_id : string
}.

Record PTransform : Type := mkPTransform {
  unique_name : string;
  spec : FunctionSpec;
  inputs : list (string * string);
  outputs : list (string * string)
}.

Record Stage : Type := mkStage {
  name : string;
  transforms : list PTransform
}.

(** [str.encode('utf-8')] on identifiers. *)
Definition encode_utf8 (s : string) : bytes := String.list_byte_of_string s.

Definition GenericNonMergingWindowFn_URN : string :=
  "internal-generic-non-merging".

Definition GenericMergingWindowFn_URN : string := "internal-generic-merging".

Module _ProcessingQueueManager.

Record _ProcessingQueueManager (V : Type) : Type := mk {
  time_pending_inputs : KeyedQueue.KeyedQueue (string * Z) V;
  watermark_pending_inputs : KeyedQueue.KeyedQueue (string * Z) V;
  ready_inputs : KeyedQueue.KeyedQueue string V
}.

Arguments mk {V} _ _ _.
Arguments time_pending_inputs {V} _.
Arguments watermark_pending_inputs {V} _.
Arguments ready_inputs {V} _.

Definition __init__ {V : Type} : _ProcessingQueueManager V :=
  mk KeyedQueue.__init__ KeyedQueue.__init__ KeyedQueue.__init__.

End _ProcessingQueueManager.

Module FnApiRunnerExecutionContext.

(** The attributes of the context that the two methods read or write.
    [pipeline_context_coders id] is [pipeline_context.coders[id].get_impl()];
    [_HANDLES] is the class-level table of [GenericMergingWindowFn], each
    instance represented by the strategy it was built from; [uuid_count]
    counts the handle ids drawn so far. *)
Record FnApiRunnerExecutionContext (V : Type) : Type := mk {
  queues : _ProcessingQueueManager._ProcessingQueueManager V;
  data_channel_coders : gmap string string;
  safe_coders : gmap string string;
  pipeline_context_coders : string -> res (CoderImpl V);
  pipeline_components_windowing_strategies : gmap string WindowingStrategy;
  pipeline_context_windowing_strategies : gmap string WindowingStrategy;
  _HANDLES : gmap string WindowingStrategy;
  uuid_count : nat
}.

Arguments mk {V} _ _ _ _ _ _ _ _.
Arguments queues {V} _.
Arguments data_channel_coders {V} _.
Arguments safe_coders {V} _.
Arguments pipeline_context_coders {V} _.
Arguments pipeline_components_windowing_strategies {V} _.
Arguments pipeline_context_windowing_strategies {V} _.
Arguments _HANDLES {V} _.
Arguments uuid_count {V} _.

Section Methods.
Context {V : Type} `{WindowedValues V}.

(** Constants and helpers of other modules ([bundle_processor],
    [translations], [timestamp], [runners.common], [proto_utils], [uuid],
    [window]).  [side_inputs_of payload] is the [side_inputs] field of the
    parsed [ParDoPayload]; [grpc_payload stage_name coder_id] is the
    serialized [RemoteGrpcPort] that replaces the payload of a data
    transform, obtained through the stage's bundle manager. *)
Variable DataInput_bool : DataInput V -> bool.
Variable DATA_INPUT_URN DATA_OUTPUT_URN : string.
Variable PAR_DO_URNS : list string.
Variable IMPULSE_BUFFER ENCODED_IMPULSE_VALUE : bytes.
Variable MAX_TIMESTAMP : Z.
Variable only_element : list string -> res string.
Variable side_inputs_of : bytes -> res (list string).
Variable grpc_payload : string -> string -> res bytes.
Variable known_urns : list string.
Variable PICKLED_WINDOWFN : string.
Variable uuid4_hex : nat -> string.

Definition SAFE_WINDOW_FNS : list string :=
  filter (fun u => u ≠ PICKLED_WINDOWFN) known_urns.

Definition set_queues (q : _ProcessingQueueManager._ProcessingQueueManager V)
    (self : FnApiRunnerExecutionContext V) : FnApiRunnerExecutionContext V :=
  mk q (data_channel_coders self) (safe_coders self)
     (pipeline_context_coders self)
     (pipeline_components_windowing_strategies self)
     (pipeline_context_windowing_strategies self) (_HANDLES self)
     (uuid_count self).

(** [d[k]] on a plain dictionary. *)
Definition getitem (d : gmap string string) (k : string) : res string :=
  match d !! k with
  | Some v => Ok v
  | None => Raise (KeyError k)
  end.

Definition set_payload (p : bytes) (t : PTransform) : PTransform :=
  mkPTransform (unique_name t) (mkFunctionSpec (urn (spec t)) p)
               (inputs t) (outputs t).

(** One iteration of [for transform in stage.transforms]: the transform as
    it is left by the iteration, and the new [data_input] and
    [ready_to_schedule]. *)
Definition visit_transform (self : FnApiRunnerExecutionContext V)
    (stage_name : string) (transform : PTransform)
    (acc : list (string * Buffer V) * bool)
  : res (PTransform * (list (string * Buffer V) * bool)) :=
  let '(data_input, ready_to_schedule) := acc in
  if bool_decide (urn (spec transform) ∈ [DATA_INPUT_URN; DATA_OUTPUT_URN])
  then
    let rewrite (coder_id : string) (data_input : list (string * Buffer V)) :=
      match grpc_payload stage_name coder_id with
      | Ok p => Ok (set_payload p transform, (data_input, ready_to_schedule))
      | Raise e => Raise e
      | Diverge => Diverge
      end in
    if bool_decide (urn (spec transform) = DATA_INPUT_URN) then
      match only_element (map snd (outputs transform)) with
      | Ok pcoll =>
          match getitem (data_channel_coders self) pcoll with
          | Ok coder_id =>
              match pipeline_context_coders self
                      (default coder_id (safe_coders self !! coder_id)) with
              | Ok coder_impl =>
                  if bool_decide (payload (spec transform) = IMPULSE_BUFFER)
                  then
                    match ListBuffer.append ENCODED_IMPULSE_VALUE
                            (ListBuffer.__init__ (Some coder_impl)) with
                    | (Ok _, buffer) =>
                        rewrite coder_id
                          (dict_set (unique_name transform) (BList buffer)
                                    data_input)
                    | (Raise e, _) => Raise e
                    | (Diverge, _) => Diverge
                    end
                  else rewrite coder_id data_input
              | Raise e => Raise e
              | Diverge => Diverge
              end
          | Raise e => Raise e
          | Diverge => Diverge
          end
      | Raise e => Raise e
      | Diverge => Diverge
      end
    else
      match only_element (map snd (inputs transform)) with
      | Ok pcoll =>
          match getitem (data_channel_coders self) pcoll with
          | Ok coder_id => rewrite coder_id data_input
          | Raise e => Raise e
          | Diverge => Diverge
          end
      | Raise e => Raise e
      | Diverge => Diverge
      end
  else if bool_decide (urn (spec transform) ∈ PAR_DO_URNS) then
    match side_inputs_of (payload (spec transform)) with
    | Ok side_inputs =>
        Ok (transform,
            (data_input,
             match side_inputs with
             | [] => ready_to_schedule
             | _ :: _ => false
             end))
    | Raise e => Raise e
    | Diverge => Diverge
    end
  else Ok (transform, (data_input, ready_to_schedule)).

(** The whole loop; on an exception the transforms visited so far keep
    their rewritten payloads. *)
Fixpoint visit_transforms (self : FnApiRunnerExecutionContext V)
    (stage_name : string) (ts : list PTransform)
    (acc : list (string * Buffer V) * bool)
  : res (list (string * Buffer V) * bool) * list PTransform :=
  match ts with
  | [] => (Ok acc, [])
  | t :: more =>
      match visit_transform self stage_name t acc with
      | Ok (t', acc') =>
          let '(r, more') := visit_transforms self stage_name more acc' in
          (r, t' :: more')
      | Raise e => (Raise e, t :: more)
      | Diverge => (Diverge, t :: more)
      end
  end.

Definition _enqueue_stage_initial_inputs (stage : Stage)
    (self : FnApiRunnerExecutionContext V)
  : res unit * (Stage * FnApiRunnerExecutionContext V) :=
  match visit_transforms self (name stage) (transforms stage) ([], true) with
  | (Ok (data_input, ready_to_schedule), ts') =>
      let stage' := mkStage (name stage) ts' in
      let q := queues self in
      match data_input with
      | [] => (Ok tt, (stage', self))
      | _ :: _ =>
          if ready_to_schedule then
            let '(r, ready') :=
              KeyedQueue.enque DataInput_bool
                (name stage, mkDataInput data_input [])
                (_ProcessingQueueManager.ready_inputs q) in
            (r, (stage',
                 set_queues
                   (_ProcessingQueueManager.mk
                      (_ProcessingQueueManager.time_pending_inputs q)
                      (_ProcessingQueueManager.watermark_pending_inputs q)
                      ready')
                   self))
          else
            let '(r, pending') :=
              KeyedQueue.enque DataInput_bool
                ((name stage, MAX_TIMESTAMP), mkDataInput data_input [])
                (_ProcessingQueueManager.watermark_pending_inputs q) in
            (r, (stage',
                 set_queues
                   (_ProcessingQueueManager.mk
                      (_ProcessingQueueManager.time_pending_inputs q)
                      pending'
                      (_ProcessingQueueManager.ready_inputs q))
                   self))
      end
  | (Raise e, ts') => (Raise e, (mkStage (name stage) ts', self))
  | (Diverge, ts') => (Diverge, (mkStage (name stage) ts', self))
  end.

(** [self.stages = {s.name: s for s in stages}] of [__init__]. *)
Definition stages_by_name (stages : list Stage) : list (string * Stage) :=
  foldl (fun d s => dict_set (name s) s d) [] stages.

(** [setup()]: [for stage in self.stages.values():
    self._enqueue_stage_initial_inputs(stage)], over the dictionary
    [self.stages]; the stage objects are rewritten in place.  An exception
    ends the loop where it is raised. *)
Fixpoint setup (stages : list (string * Stage))
    (self : FnApiRunnerExecutionContext V)
  : res unit * (list (string * Stage) * FnApiRunnerExecutionContext V) :=
  match stages with
  | [] => (Ok tt, ([], self))
  | (key, stage) :: more =>
      match _enqueue_stage_initial_inputs stage self with
      | (Ok _, (stage', self')) =>
          let '(r, (more', self'')) := setup more self' in
          (r, ((key, stage') :: more', self''))
      | (Raise e, (stage', self')) =>
          (Raise e, ((key, stage') :: more, self'))
      | (Diverge, (stage', self')) =>
          (Diverge, ((key, stage') :: more, self'))
      end
  end.

(** A [DATA_INPUT] transform that reads the impulse buffer, and a ParDo-kind
    transform whose payload lists at least one side input. *)
Definition is_impulse_read (t : PTransform) : Prop :=
  urn (spec t) = DATA_INPUT_URN ∧ payload (spec t) = IMPULSE_BUFFER.

Definition declares_side_inputs (t : PTransform) : Prop :=
  urn (spec t) ∈ PAR_DO_URNS
  ∧ ∃ side_inputs, side_inputs_of (payload (spec t)) = Ok side_inputs
                   ∧ side_inputs ≠ [].

(** The same two tests on a whole stage, as the loop of
    [_enqueue_stage_initial_inputs] evaluates them. *)
Definition reads_impulse (stage : Stage) : bool :=
  existsb (fun t => bool_decide (urn (spec t) = DATA_INPUT_URN)
                    && bool_decide (payload (spec t) = IMPULSE_BUFFER))
          (transforms stage).

Definition has_side_inputs (stage : Stage) : bool :=
  existsb (fun t => bool_decide (urn (spec t) ∈ PAR_DO_URNS)
                    && match side_inputs_of (payload (spec t)) with
                       | Ok (_ :: _) => true
                       | _ => false
                       end)
          (transforms stage).

(** The initial inputs of a stage: one entry per impulse read, keyed by the
    name of the transform, each a [ListBuffer] holding the encoded impulse
    value and nothing else. *)
Definition initial_inputs_of (ts : list PTransform)
    (data_input : list (string * Buffer V)) : Prop :=
  (∀ t, t ∈ ts → is_impulse_read t →
        unique_name t ∈ dict_keys data_input)
  ∧ (∀ entry, entry ∈ data_input →
        ∃ t coder_impl,
          t ∈ ts ∧ is_impulse_read t ∧ entry.1 = unique_name t
          ∧ entry.2 = BList (ListBuffer.mk coder_impl [ENCODED_IMPULSE_VALUE]
                               None false)).

(** [while safe_id in self.pipeline_components.windowing_strategies:
    safe_id += '_'].  The table is finite, so the loop exits within
    [size ws] rounds; [fuel] is set accordingly by the caller. *)
Fixpoint free_safe_id (fuel : nat) (ws : gmap string WindowingStrategy)
    (safe_id : string) : res string :=
  match ws !! safe_id with
  | None => Ok safe_id
  | Some _ =>
      match fuel with
      | O => Diverge
      | S fuel' => free_safe_id fuel' ws (safe_id +:+ "_")
      end
  end.

(** Modelled from the spec: [put_proto] of the pipeline context's table of
    windowing strategies ([pipeline_context.py]) records the rewritten
    strategy under the safe id. *)
Definition put_proto (id : string) (proto : WindowingStrategy)
    (table : gmap string WindowingStrategy) : gmap string WindowingStrategy :=
  <[id := proto]> table.

Definition set_window_fn (f : FunctionSpec) (proto : WindowingStrategy)
  : WindowingStrategy :=
  mkWindowingStrategy f (merge_status proto) (window_coder_id proto)
                      (environment_id proto).

Definition _make_safe_windowing_strategy (id : string)
    (self : FnApiRunnerExecutionContext V)
  : res string * FnApiRunnerExecutionContext V :=
  match pipeline_components_windowing_strategies self !! id with
  | None => (Raise (KeyError id), self)
  | Some windowing_strategy_proto =>
      if bool_decide (urn (window_fn windowing_strategy_proto)
                        ∈ SAFE_WINDOW_FNS)
      then (Ok id, self)
      else
        match free_safe_id
                (size (pipeline_components_windowing_strategies self))
                (pipeline_components_windowing_strategies self)
                (id +:+ "_safe") with
        | Ok safe_id =>
            match merge_status windowing_strategy_proto with
            | NON_MERGING =>
                let safe_proto :=
                  set_window_fn
                    (mkFunctionSpec GenericNonMergingWindowFn_URN
                       (encode_utf8
                          (window_coder_id windowing_strategy_proto)))
                    windowing_strategy_proto in
                (Ok safe_id,
                 mk (queues self) (data_channel_coders self)
                    (safe_coders self) (pipeline_context_coders self)
                    (pipeline_components_windowing_strategies self)
                    (put_proto safe_id safe_proto
                       (pipeline_context_windowing_strategies self))
                    (_HANDLES self) (uuid_count self))
            | NEEDS_MERGE =>
                let handle_id := uuid4_hex (uuid_count self) in
                let safe_proto :=
                  set_window_fn
                    (mkFunctionSpec GenericMergingWindowFn_URN
                       (encode_utf8 handle_id))
                    windowing_strategy_proto in
                (Ok safe_id,
                 mk (queues self) (data_channel_coders self)
                    (safe_coders self) (pipeline_context_coders self)
                    (pipeline_components_windowing_strategies self)
                    (put_proto safe_id safe_proto
                       (pipeline_context_windowing_strategies self))
                    (<[handle_id := windowing_strategy_proto]>
                       (_HANDLES self))
                    (S (uuid_count self)))
            | _ =>
                (Raise (NotImplementedError "Unsupported merging strategy"),
                 self)
            end
        | Raise e => (Raise e, self)
        | Diverge => (Diverge, self)
        end
  end.

(** The dictionary comprehension of [__init__] that fills
    [safe_windowing_strategies], over the ids in iteration order. *)
Fixpoint make_safe_windowing_strategies (ids : list string)
    (self : FnApiRunnerExecutionContext V)
  : res (list (string * string)) * FnApiRunnerExecutionContext V :=
  match ids with
  | [] => (Ok [], self)
  | id :: more =>
      match _make_safe_windowing_strategy id self with
      | (Ok safe_id, self') =>
          match make_safe_windowing_strategies more self' with
          | (Ok entries, self'') => (Ok ((id, safe_id) :: entries), self'')
          | (Raise e, self'') => (Raise e, self'')
          | (Diverge, self'') => (Diverge, self'')
          end
      | (Raise e, self') => (Raise e, self')
      | (Diverge, self') => (Diverge, self')
      end
  end.

(** [self.safe_windowing_strategies[id]]. *)
Definition safe_windowing_strategy (safe_windowing_strategies
                                      : list (string * string))
    (id : string) : res string :=
  match dict_get id safe_windowing_strategies with
  | Some safe_id => Ok safe_id
  | None => Raise (KeyError id)
  end.

End Methods.
End FnApiRunnerExecutionContext.

(** ** WindowGroupingBuffer *)

(** What [WindowGroupingBuffer] uses of decoded values: [value_of wv] is
    [wv.value], [windows_of wv] is [wv.windows], [pair_of v] is the
    unpacking [key, value = v], and [empty_str] is the string ['']. *)
Class SideInputValues (V W : Type) : Type := {
  value_of : V -> V;
  windows_of : V -> list W;
  pair_of : V -> res (V * V);
  empty_str : V
}.

(** What it uses of a [WindowedValueCoder]: [get_impl()], the
    implementation of [wrapped_value_coder], the implementations of
    [wrapped_value_coder.key_coder()] and [wrapped_value_coder.value_coder()]
    (the two calls raise on a coder that is not a key/value coder), and
    [window_coder.encode]. *)
Record WindowedValueCoder (V W : Type) : Type := {
  get_impl : CoderImpl V;
  wrapped_value_coder : CoderImpl V;
  wrapped_value_coder_key_coder : res (CoderImpl V);
  wrapped_value_coder_value_coder : res (CoderImpl V);
  window_coder : W -> res bytes
}.

Arguments get_impl {V W} _.
Arguments wrapped_value_coder {V W} _.
Arguments wrapped_value_coder_key_coder {V W} _.
Arguments wrapped_value_coder_value_coder {V W} _.
Arguments window_coder {V W} _.

Module WindowGroupingBuffer.

(** [_values_by_window] is an insertion-ordered [defaultdict(list)] keyed by
    (key, window). *)
Record WindowGroupingBuffer (V W : Type) : Type := mk {
  _kv_extractor : V -> res (V * V);
  _key_coder : CoderImpl V;
  _value_coder : CoderImpl V;
  _windowed_value_coder : CoderImpl V;
  _window_coder : W -> res bytes;
  _values_by_window : list ((V * W) * list V)
}.

Arguments mk {V W} _ _ _ _ _ _.
Arguments _kv_extractor {V W} _.
Arguments _key_coder {V W} _.
Arguments _value_coder {V W} _.
Arguments _windowed_value_coder {V W} _.
Arguments _window_coder {V W} _.
Arguments _values_by_window {V W} _.

Section Methods.
Context {V W : Type} `{SideInputValues V W} `{EqDecision V} `{EqDecision W}.

(** [common_urns.side_inputs.ITERABLE.urn], [...MULTIMAP.urn], and the
    implementation of [coders.SingletonCoder(value)]. *)
Variable ITERABLE_URN MULTIMAP_URN : string.
Variable SingletonCoder : V -> CoderImpl V.

Definition __init__ (access_pattern : FunctionSpec)
    (coder : WindowedValueCoder V W) : res (WindowGroupingBuffer V W) :=
  if bool_decide (urn access_pattern = ITERABLE_URN) then
    Ok (mk (fun value => Ok (empty_str, value)) (SingletonCoder empty_str)
           (wrapped_value_coder coder) (get_impl coder) (window_coder coder)
           [])
  else if bool_decide (urn access_pattern = MULTIMAP_URN) then
    match wrapped_value_coder_key_coder coder with
    | Ok key_coder =>
        match wrapped_value_coder_value_coder coder with
        | Ok value_coder =>
            Ok (mk pair_of key_coder value_coder (get_impl coder)
                   (window_coder coder) [])
        | Raise e => Raise e
        | Diverge => Diverge
        end
    | Raise e => Raise e
    | Diverge => Diverge
    end
  else Raise (ValueError ("Unknown access pattern: '"
                          +:+ urn access_pattern +:+ "'")).

(** [self._values_by_window[key, window].append(value)]: a missing key is
    created at the end. *)
Fixpoint values_append (k : V * W) (value : V)
    (t : list ((V * W) * list V)) : list ((V * W) * list V) :=
  match t with
  | [] => [(k, [value])]
  | (k', values) :: t' =>
      if decide (k' = k) then (k', values ++ [value]) :: t'
      else (k', values) :: values_append k value t'
  end.

(** [for window in windowed_value.windows]. *)
Fixpoint file_value (key value : V) (windows : list W)
    (t : list ((V * W) * list V)) : list ((V * W) * list V) :=
  match windows with
  | [] => t
  | window :: more =>
      file_value key value more (values_append (key, window) value t)
  end.

(** The [while input_stream.size() > 0] loop of [append]; fuel as in
    [ListBuffer.redistribute_stream]. *)
Fixpoint append_loop (fuel : nat) (self : WindowGroupingBuffer V W)
    (input_stream : bytes) (t : list ((V * W) * list V))
  : res unit * list ((V * W) * list V) :=
  match input_stream with
  | [] => (Ok tt, t)
  | _ :: _ =>
      match fuel with
      | O => (Diverge, t)
      | S fuel' =>
          match decode_from_stream (_windowed_value_coder self)
                  input_stream with
          | Ok (windowed_value, rest) =>
              match _kv_extractor self (value_of windowed_value) with
              | Ok (key, value) =>
                  let t' :=
                    file_value key value (windows_of windowed_value) t in
                  if (length rest <? length input_stream)%nat then
                    append_loop fuel' self rest t'
                  else (Diverge, t')
              | Raise e => (Raise e, t)
              | Diverge => (Diverge, t)
              end
          | Raise e => (Raise e, t)
          | Diverge => (Diverge, t)
          end
      end
  end.

Definition append (elements_data : bytes) (self : WindowGroupingBuffer V W)
  : res unit * WindowGroupingBuffer V W :=
  let '(r, t) :=
    append_loop (length elements_data) self elements_data
      (_values_by_window self) in
  (r, mk (_kv_extractor self) (_key_coder self) (_value_coder self)
         (_windowed_value_coder self) (_window_coder self) t).

(** [for value in values: value_coder_impl.encode_to_stream(value,
    output_stream, True)], then [output_stream.get()]. *)
Fixpoint encode_values (value_coder_impl : CoderImpl V) (values : list V)
  : res bytes :=
  match values with
  | [] => Ok []
  | value :: more =>
      match encode_to_stream value_coder_impl value with
      | Ok written =>
          match encode_values value_coder_impl more with
          | Ok rest => Ok (written ++ rest)
          | Raise e => Raise e
          | Diverge => Diverge
          end
      | Raise e => Raise e
      | Diverge => Diverge
      end
  end.

(** One round of the generator [encoded_items]: what it yields for an item
    of [_values_by_window], or the exception it raises. *)
Definition encoded_item (self : WindowGroupingBuffer V W)
    (item : (V * W) * list V) : res (bytes * bytes * bytes * nat) :=
  let '((key, window), values) := item in
  match _window_coder self window with
  | Ok encoded_window =>
      match encode_to_stream (_key_coder self) key with
      | Ok encoded_key =>
          match encode_values (_value_coder self) values with
          | Ok elements_data =>
              Ok (encoded_key, encoded_window, elements_data, length values)
          | Raise e => Raise e
          | Diverge => Diverge
          end
      | Raise e => Raise e
      | Diverge => Diverge
      end
  | Raise e => Raise e
  | Diverge => Diverge
  end.

(** [encoded_items()]: the items in the order of the dictionary, each
    computed when the consumer asks for it. *)
Definition encoded_items (self : WindowGroupingBuffer V W)
  : list (res (bytes * bytes * bytes * nat)) :=
  map (encoded_item self) (_values_by_window self).

End Methods.
End WindowGroupingBuffer.

(** ** Committing side inputs to state *)

(** The state keys that [commit_side_inputs_to_state] builds. *)
Inductive StateKey : Type :=
| IterableSideInput (transform_id side_input_id : string) (window : bytes)
| MultimapSideInput (transform_id side_input_id : string)
                    (window key : bytes)
| MultimapKeysSideInput (transform_id side_input_id : string)
                        (window : bytes)
| MultimapKeysValuesSideInput (transform_id side_input_id : string)
                              (window : bytes).

Module SideInputs.

(** The attributes of the context that [commit_side_inputs_to_state]
    writes: [pcoll_buffers], and the state servicer, represented by the
    [append_raw] calls it has received, oldest first. *)
Record State (V : Type) : Type := mk {
  pcoll_buffers : list (bytes * Buffer V);
  state_servicer : list (StateKey * bytes)
}.

Arguments mk {V} _ _.
Arguments pcoll_buffers {V} _.
Arguments state_servicer {V} _.

Section Methods.
Context {V W : Type} `{WindowedValues V} `{SideInputValues V W}
  `{EqDecision V} `{EqDecision W}.
Variable ITERABLE_URN MULTIMAP_URN : string.
Variable SingletonCoder : V -> CoderImpl V.
Variable split_buffer_id : bytes -> res (string * string).

(** [self.data_channel_coders], [self.safe_coders], and
    [self.pipeline_context.coders[id]]. *)
Variable data_channel_coders : gmap string string.
Variable safe_coders : gmap string string.
Variable pipeline_context_coders : string -> res (WindowedValueCoder V W).

(** [struct.pack('>i', elements_count)]. *)
Variable struct_pack_i : nat -> res bytes.

(** [iter(buffer)]. *)
Definition Buffer_iter (buffer : Buffer V) : res (list bytes) * Buffer V :=
  match buffer with
  | BList b => let '(r, b') := ListBuffer.__iter__ b in (r, BList b')
  | BGroup g => let '(r, g') := GroupingBuffer.__iter__ g in (r, BGroup g')
  end.

(** [for element_data in ...: elements_by_window.append(element_data)]. *)
Fixpoint append_all (records : list bytes)
    (elements_by_window : WindowGroupingBuffer.WindowGroupingBuffer V W)
  : res unit * WindowGroupingBuffer.WindowGroupingBuffer V W :=
  match records with
  | [] => (Ok tt, elements_by_window)
  | element_data :: more =>
      match WindowGroupingBuffer.append element_data elements_by_window with
      | (Ok _, elements_by_window') => append_all more elements_by_window'
      | (Raise e, elements_by_window') => (Raise e, elements_by_window')
      | (Diverge, elements_by_window') => (Diverge, elements_by_window')
      end
  end.

(** The loop of the [ITERABLE] branch over the generator. *)
Fixpoint write_iterable (consuming_transform_id tag : string)
    (items : list (res (bytes * bytes * bytes * nat)))
    (servicer : list (StateKey * bytes))
  : res unit * list (StateKey * bytes) :=
  match items with
  | [] => (Ok tt, servicer)
  | Ok (_, window, elements_data, _) :: more =>
      write_iterable consuming_transform_id tag more
        (servicer
           ++ [(IterableSideInput consuming_transform_id tag window,
                elements_data)])
  | Raise e :: _ => (Raise e, servicer)
  | Diverge :: _ => (Diverge, servicer)
  end.

(** The loop of the [MULTIMAP] branch: three writes per item. *)
Fixpoint write_multimap (consuming_transform_id tag : string)
    (items : list (res (bytes * bytes * bytes * nat)))
    (servicer : list (StateKey * bytes))
  : res unit * list (StateKey * bytes) :=
  match items with
  | [] => (Ok tt, servicer)
  | Ok (key, window, elements_data, elements_count) :: more =>
      let servicer2 :=
        servicer
          ++ [(MultimapSideInput consuming_transform_id tag window key,
               elements_data)]
          ++ [(MultimapKeysSideInput consuming_transform_id tag window,
               key)] in
      match struct_pack_i elements_count with
      | Ok packed =>
          write_multimap consuming_transform_id tag more
            (servicer2
               ++ [(MultimapKeysValuesSideInput consuming_transform_id tag
                      window,
                    key ++ packed ++ elements_data)])
      | Raise e => (Raise e, servicer2)
      | Diverge => (Diverge, servicer2)
      end
  | Raise e :: _ => (Raise e, servicer)
  | Diverge :: _ => (Diverge, servicer)
  end.

(** The body of the loop over [data_side_input.items()]. *)
Definition commit_side_input
    (item : (string * string) * (bytes * FunctionSpec)) (self : State V)
  : res unit * State V :=
  let '((consuming_transform_id, tag), (buffer_id, func_spec)) := item in
  match split_buffer_id buffer_id with
  | Ok (_, pcoll_id) =>
      match FnApiRunnerExecutionContext.getitem data_channel_coders
              pcoll_id with
      | Ok coder_id =>
          match FnApiRunnerExecutionContext.getitem safe_coders coder_id with
          | Ok safe_coder_id =>
              match pipeline_context_coders safe_coder_id with
              | Ok value_coder =>
                  match WindowGroupingBuffer.__init__ ITERABLE_URN
                          MULTIMAP_URN SingletonCoder func_spec
                          value_coder with
                  | Ok elements_by_window =>
                      let buffers :=
                        match dict_get buffer_id (pcoll_buffers self) with
                        | None =>
                            dict_set buffer_id
                              (BList (ListBuffer.__init__
                                        (Some (get_impl value_coder))))
                              (pcoll_buffers self)
                        | Some _ => pcoll_buffers self
                        end in
                      match dict_get buffer_id buffers with
                      | Some buffer =>
                          let '(r, buffer') := Buffer_iter buffer in
                          let buffers' := dict_set buffer_id buffer' buffers in
                          match r with
                          | Ok records =>
                              match append_all records
                                      elements_by_window with
                              | (Ok _, elements_by_window') =>
                                  let items :=
                                    WindowGroupingBuffer.encoded_items
                                      elements_by_window' in
                                  if bool_decide
                                       (urn func_spec = ITERABLE_URN) then
                                    let '(r', servicer') :=
                                      write_iterable consuming_transform_id
                                        tag items (state_servicer self) in
                                    (r', mk buffers' servicer')
                                  else if bool_decide
                                            (urn func_spec = MULTIMAP_URN) then
                                    let '(r', servicer') :=
                                      write_multimap consuming_transform_id
                                        tag items (state_servicer self) in
                                    (r', mk buffers' servicer')
                                  else
                                    (Raise (ValueError
                                              ("Unknown access pattern: '"
                                               +:+ urn func_spec +:+ "'")),
                                     mk buffers' (state_servicer self))
                              | (Raise e, _) =>
                                  (Raise e, mk buffers' (state_servicer self))
                              | (Diverge, _) =>
                                  (Diverge, mk buffers' (state_servicer self))
                              end
                          | Raise e =>
                              (Raise e, mk buffers' (state_servicer self))
                          | Diverge =>
                              (Diverge, mk buffers' (state_servicer self))
                          end
                      | None =>
                          (Raise (KeyError ""),
                           mk buffers (state_servicer self))
                      end
                  | Raise e => (Raise e, self)
                  | Diverge => (Diverge, self)
                  end
              | Raise e => (Raise e, self)
              | Diverge => (Diverge, self)
              end
          | Raise e => (Raise e, self)
          | Diverge => (Diverge, self)
          end
      | Raise e => (Raise e, self)
      | Diverge => (Diverge, self)
      end
  | Raise e => (Raise e, self)
  | Diverge => (Diverge, self)
  end.

Fixpoint commit_side_inputs_to_state
    (data_side_input : list ((string * string) * (bytes * FunctionSpec)))
    (self : State V) : res unit * State V :=
  match data_side_input with
  | [] => (Ok tt, self)
  | item :: more =>
      match commit_side_input item self with
      | (Ok _, self') => commit_side_inputs_to_state more self'
      | (Raise e, self') => (Raise e, self')
      | (Diverge, self') => (Diverge, self')
      end
  end.

End Methods.
End SideInputs.

(** ** What a run of decoded values files

    [entries_of wv kv] are the entries one windowed value adds to
    [_values_by_window] once its value has been split into [kv]: one per
    window, in order.  [values_under k entries] are the values filed under
    the key [k], and [keys_added keys entries] the keys of the dictionary
    after the entries were filed, new keys in the order they first occur. *)
Section Filing.
Context {V W : Type} `{SideInputValues V W} `{EqDecision V} `{EqDecision W}.

Definition entries_of (wv : V) (kv : V * V) : list ((V * W) * V) :=
  map (fun w => ((kv.1, w), kv.2)) (windows_of wv).

Definition values_under (k : V * W) (entries : list ((V * W) * V))
  : list V :=
  map snd (filter (fun e => e.1 = k) entries).

Definition keys_added (keys : list (V * W)) (entries : list ((V * W) * V))
  : list (V * W) :=
  foldl (fun acc e => if decide (e.1 ∈ acc) then acc else acc ++ [e.1])
        keys entries.

End Filing.

(** ** BundleContextManager.input_for *)

Module BundleContextManager.

Section Methods.

(** [bundle_processor.DATA_INPUT_URN] and
    [common_urns.sdf_components.TRUNCATE_SIZED_RESTRICTION.urn]. *)
Variable DATA_INPUT_URN TRUNCATE_SIZED_RESTRICTION_URN : string.

(** [pcoll in proto.outputs.values()]. *)
Definition outputs_pcoll (pcoll : string) (proto : PTransform) : bool :=
  bool_decide (pcoll ∈ map snd (outputs proto)).

(** The inner loop: the first [DATA_INPUT] transform that outputs
    [read_input]. *)
Fixpoint find_grpc_read (read_input : string)
    (items : list (string * PTransform)) : option string :=
  match items with
  | [] => None
  | (grpc_read, transform_proto) :: more =>
      if bool_decide (urn (spec transform_proto) = DATA_INPUT_URN)
         && outputs_pcoll read_input transform_proto
      then Some grpc_read
      else find_grpc_read read_input more
  end.

(** The outer loop over [transforms.items()]; [transforms] is the whole
    dictionary [self.process_bundle_descriptor.transforms]. *)
Fixpoint input_for_loop (transforms : list (string * PTransform))
    (transform_id input_pcoll : string) (items : list (string * PTransform))
  : res string :=
  match items with
  | [] => Raise (RuntimeError ("No IO transform feeds " +:+ transform_id))
  | (read_id, proto) :: more =>
      if bool_decide (urn (spec proto) = DATA_INPUT_URN)
         && outputs_pcoll input_pcoll proto
      then Ok read_id
      else if bool_decide (urn (spec proto) = TRUNCATE_SIZED_RESTRICTION_URN)
              && outputs_pcoll input_pcoll proto
      then
        match dict_get read_id transforms with
        | Some read_proto =>
            match map snd (inputs read_proto) with
            | read_input :: _ =>
                match find_grpc_read read_input transforms with
                | Some grpc_read => Ok grpc_read
                | None =>
                    input_for_loop transforms transform_id input_pcoll more
                end
            | [] => Raise IndexError
            end
        | None => Raise (KeyError read_id)
        end
      else input_for_loop transforms transform_id input_pcoll more
  end.

(** [input_for(transform_id, input_id)] on the transforms of the process
    bundle descriptor, a dictionary from transform ids to transforms. *)
Definition input_for (transforms : list (string * PTransform))
    (transform_id input_id : string) : res string :=
  match dict_get transform_id transforms with
  | Some proto =>
      match dict_get input_id (inputs proto) with
      | Some input_pcoll =>
          input_for_loop transforms transform_id input_pcoll transforms
      | None => Raise (KeyError input_id)
      end
  | None => Raise (KeyError transform_id)
  end.

End Methods.
End BundleContextManager.

(** ** The dictionaries of the pipeline

    [_compute_pipeline_dictionaries] fills three attributes of the context.
    The keys of [pcollection_to_producer_transform] are the impulse buffer
    id, a [bytes] object, and PCollection ids, which are [str]. *)

#[global] Instance byte_countable : Countable byte :=
  inj_countable Byte.to_N Byte.of_N Byte.of_to_N.

Module PipelineDictionaries.

Record PipelineDictionaries : Type := mk {
  input_transform_to_buffer_id : gmap string bytes;
  pcollection_to_producer_transform : gmap (bytes + string) (option string);
  buffer_id_to_consumer_pairs : gmap bytes (gset (string * string))
}.

(** The three dictionaries as [__init__] creates them. *)
Definition __init__ : PipelineDictionaries := mk ∅ ∅ ∅.

Section Methods.
Variable DATA_INPUT_URN DATA_OUTPUT_URN : string.
Variable PAR_DO_URNS : list string.
Variable IMPULSE_BUFFER : bytes.

(** [split_buffer_id] of [translations.py]: the kind and the PCollection id
    of a buffer id, or an exception. *)
Variable split_buffer_id : bytes -> res (string * string).

(** The body of [for t in s.transforms]. *)
Definition visit_transform (s_name : string) (t : PTransform)
    (self : PipelineDictionaries) : res unit * PipelineDictionaries :=
  let buffer_id := payload (spec t) in
  if bool_decide (urn (spec t) = DATA_INPUT_URN) then
    let inputs' :=
      <[unique_name t := buffer_id]> (input_transform_to_buffer_id self) in
    if bool_decide (payload (spec t) = IMPULSE_BUFFER) then
      (Ok tt,
       mk inputs'
          (<[inl IMPULSE_BUFFER := None]>
             (pcollection_to_producer_transform self))
          (buffer_id_to_consumer_pairs self))
    else if bool_decide (payload (spec t) = IMPULSE_BUFFER) then
      (Raise (AssertionError ""),
       mk inputs' (pcollection_to_producer_transform self)
          (buffer_id_to_consumer_pairs self))
    else
      match split_buffer_id buffer_id with
      | Ok (_, input_pcoll) =>
          let producers' :=
            match pcollection_to_producer_transform self
                    !! inr input_pcoll with
            | None =>
                <[inr input_pcoll := None]>
                  (pcollection_to_producer_transform self)
            | Some _ => pcollection_to_producer_transform self
            end in
          let consumers1 :=
            match buffer_id_to_consumer_pairs self !! buffer_id with
            | None => <[buffer_id := ∅]> (buffer_id_to_consumer_pairs self)
            | Some _ => buffer_id_to_consumer_pairs self
            end in
          let consumers2 :=
            if decide ((s_name, unique_name t) ∈ consumers1 !!! buffer_id)
            then consumers1
            else <[buffer_id :=
                     consumers1 !!! buffer_id ∪ {[(s_name, unique_name t)]}]>
                   consumers1 in
          (Ok tt, mk inputs' producers' consumers2)
      | Raise e =>
          (Raise e,
           mk inputs' (pcollection_to_producer_transform self)
              (buffer_id_to_consumer_pairs self))
      | Diverge =>
          (Diverge,
           mk inputs' (pcollection_to_producer_transform self)
              (buffer_id_to_consumer_pairs self))
      end
  else if bool_decide (urn (spec t) = DATA_OUTPUT_URN) then
    match split_buffer_id buffer_id with
    | Ok (_, output_pcoll) =>
        (Ok tt,
         mk (input_transform_to_buffer_id self)
            (<[inr output_pcoll := Some (unique_name t)]>
               (pcollection_to_producer_transform self))
            (buffer_id_to_consumer_pairs self))
    | Raise e => (Raise e, self)
    | Diverge => (Diverge, self)
    end
  else if bool_decide (urn (spec t) ∈ PAR_DO_URNS) then (Ok tt, self)
  else (Ok tt, self).

Fixpoint visit_transforms (s_name : string) (ts : list PTransform)
    (self : PipelineDictionaries) : res unit * PipelineDictionaries :=
  match ts with
  | [] => (Ok tt, self)
  | t :: more =>
      match visit_transform s_name t self with
      | (Ok _, self') => visit_transforms s_name more self'
      | (Raise e, self') => (Raise e, self')
      | (Diverge, self') => (Diverge, self')
      end
  end.

(** [for s in self.stages.values()], over the stages in that order. *)
Fixpoint _compute_pipeline_dictionaries (stages : list Stage)
    (self : PipelineDictionaries) : res unit * PipelineDictionaries :=
  match stages with
  | [] => (Ok tt, self)
  | s :: more =>
      match visit_transforms (name s) (transforms s) self with
      | (Ok _, self') => _compute_pipeline_dictionaries more self'
      | (Raise e, self') => (Raise e, self')
      | (Diverge, self') => (Diverge, self')
      end
  end.

(** A transform that reads buffer [b] off the data channel, other than the
    impulse buffer; one that reads PCollection [p]; one that writes it. *)
Definition reads_buffer (b : bytes) (t : PTransform) : Prop :=
  urn (spec t) = DATA_INPUT_URN ∧ payload (spec t) = b ∧ b ≠ IMPULSE_BUFFER.

Definition reads_pcollection (p : string) (t : PTransform) : bool :=
  bool_decide (urn (spec t) = DATA_INPUT_URN)
  && negb (bool_decide (payload (spec t) = IMPULSE_BUFFER))
  && match split_buffer_id (payload (spec t)) with
     | Ok (_, p') => bool_decide (p' = p)
     | _ => false
     end.

Definition writes_pcollection (p : string) (t : PTransform) : bool :=
  negb (bool_decide (urn (spec t) = DATA_INPUT_URN))
  && bool_decide (urn (spec t) = DATA_OUTPUT_URN)
  && match split_buffer_id (payload (spec t)) with
     | Ok (_, p') => bool_decide (p' = p)
     | _ => false
     end.

(** The name of the last transform of [ts] that writes [p]. *)
Fixpoint last_writer (p : string) (ts : list PTransform) : option string :=
  match ts with
  | [] => None
  | t :: more =>
      match last_writer p more with
      | Some n => Some n
      | None => if writes_pcollection p t then Some (unique_name t) else None
      end
  end.

End Methods.

(** No buffer id is a key without a consumer. *)
Definition consumers_inhabited (self : PipelineDictionaries) : Prop :=
  ∀ b pairs, buffer_id_to_consumer_pairs self !! b = Some pairs → pairs ≠ ∅.

End PipelineDictionaries.

(** ** Sub-elements of records

    The values held by a record are read the way the loops above read them:
    decode from the front until the stream is empty. *)

Section SubElements.
Context {V : Type}.

Fixpoint decode_stream (fuel : nat) (c : CoderImpl V) (input_stream : bytes)
  : res (list V) :=
  match input_stream with
  | [] => Ok []
  | _ :: _ =>
      match fuel with
      | O => Diverge
      | S fuel' =>
          match decode_from_stream c input_stream with
          | Ok (decoded_value, rest) =>
              if (length rest <? length input_stream)%nat then
                match decode_stream fuel' c rest with
                | Ok values => Ok (decoded_value :: values)
                | Raise e => Raise e
                | Diverge => Diverge
                end
              else Diverge
          | Raise e => Raise e
          | Diverge => Diverge
          end
      end
  end.

Definition sub_elements (c : CoderImpl V) (record : bytes) : res (list V) :=
  decode_stream (length record) c record.

Fixpoint sub_elements_of_records (c : CoderImpl V) (records : list bytes)
  : res (list V) :=
  match records with
  | [] => Ok []
  | record :: more =>
      match sub_elements c record with
      | Ok values =>
          match sub_elements_of_records c more with
          | Ok values' => Ok (values ++ values')
          | Raise e => Raise e
          | Diverge => Diverge
          end
      | Raise e => Raise e
      | Diverge => Diverge
      end
  end.

(** [encodes c values s]: the stream [s] is the encodings of [values], one
    after the other. *)
Fixpoint encodes (c : CoderImpl V) (values : list V) (s : bytes) : Prop :=
  match values with
  | [] => s = []
  | v :: values' =>
      ∃ written s', encode_to_stream c v = Ok written
                    ∧ s = written ++ s' ∧ encodes c values' s'
  end.

(** A coder whose decoder inverts its encoder on the front of a stream, whose
    encodings are not empty, and which can re-encode what it decodes. *)
Definition coder_round_trips (c : CoderImpl V) : Prop :=
  (∀ v written rest,
     encode_to_stream c v = Ok written →
     written ≠ [] ∧ decode_from_stream c (written ++ rest) = Ok (v, rest))
  ∧ (∀ s v rest,
       decode_from_stream c s = Ok (v, rest) →
       ∃ written, encode_to_stream c v = Ok written).

(** The grouped output of a [ListBuffer], when present, was computed from
    the inputs the buffer holds now. *)
Definition ListBuffer_consistent (b : ListBuffer.ListBuffer V) : Prop :=
  match ListBuffer._grouped_output b with
  | None => True
  | Some grouped =>
      ∃ n streams idx,
        (0 < n)%nat
        ∧ ListBuffer.redistribute (ListBuffer._coder_impl b) n
            (ListBuffer._inputs b) (replicate n [], O) = Ok (streams, idx)
        ∧ grouped = map (fun output_stream => [output_stream]) streams
  end.

End SubElements.

(** ** Well-formed queues

    The invariant that [__init__], [enque] and [deque] maintain: no key and
    no address occurs twice in the deque, the index maps each pending key
    to its element of the deque and nothing else, and every address held
    resolves in the store. *)
Definition KeyedQueue_wf {K V : Type} `{Countable K}
    (q : KeyedQueue.KeyedQueue K V) : Prop :=
  NoDup (map fst (KeyedQueue._q q))
  ∧ NoDup (map snd (KeyedQueue._q q))
  ∧ (∀ k e, KeyedQueue._keyed_elements q !! k = Some e
            ↔ e ∈ KeyedQueue._q q ∧ e.1 = k)
  ∧ (∀ e, e ∈ KeyedQueue._q q → e.2 ∈ dom (KeyedQueue.store q)).

(** The payload pending under a key, read through the index. *)
Definition KeyedQueue_pending {K V : Type} `{Countable K}
    (q : KeyedQueue.KeyedQueue K V) (key : K) : option (DataInput V) :=
  match KeyedQueue._keyed_elements q !! key with
  | Some (_, ref) => Some (KeyedQueue.store q !!! ref)
  | None => None
  end.

(** [n] calls of [deque()] in a row. *)
Fixpoint KeyedQueue_deque_many {K V : Type} `{Countable K} (n : nat)
    (q : KeyedQueue.KeyedQueue K V) : KeyedQueue.KeyedQueue K V :=
  match n with
  | O => q
  | S n' => KeyedQueue_deque_many n' (KeyedQueue.deque q).2
  end.

(** ** Safe windowing strategies *)

(** [k] underscores, the suffix the loop of [_make_safe_windowing_strategy]
    has added after [k] rounds. *)
Fixpoint underscores (k : nat) : string :=
  match k with
  | O => ""
  | S k' => "_" +:+ underscores k'
  end.

(** A strategy whose window function is one of the two generic adapters. *)
Definition references_generic_adapter (proto : WindowingStrategy) : Prop :=
  urn (window_fn proto) = GenericNonMergingWindowFn_URN
  ∨ urn (window_fn proto) = GenericMergingWindowFn_URN.

(** [safe_id] is an acceptable answer for [id] in the context [self]: the id
    itself when its window function is safe; otherwise another id, not an
    id of the pipeline, registered in the pipeline context with a strategy
    that references a generic adapter. *)
Definition safe_strategy_for {V : Type} (SAFE_WINDOW_FNS : list string)
    (self : FnApiRunnerExecutionContext.FnApiRunnerExecutionContext V)
    (id safe_id : string) : Prop :=
  ∃ proto,
    FnApiRunnerExecutionContext.pipeline_components_windowing_strategies self
      !! id = Some proto
    ∧ ((urn (window_fn proto) ∈ SAFE_WINDOW_FNS ∧ safe_id = id)
       ∨ ((urn (window_fn proto) ∉ SAFE_WINDOW_FNS)
          ∧ (merge_status proto = NON_MERGING
             ∨ merge_status proto = NEEDS_MERGE)
          ∧ safe_id ≠ id
          ∧ FnApiRunnerExecutionContext.pipeline_components_windowing_strategies
              self !! safe_id = None
          ∧ ∃ safe_proto,
              FnApiRunnerExecutionContext.pipeline_context_windowing_strategies
                self !! safe_id = Some safe_proto
              ∧ references_generic_adapter safe_proto)).

(** ** Sample values, coders and buffers

    A small universe of decoded values and three coders over it, used to
    run the definitions above on concrete inputs. *)

Module Samples.

(** A byte, a windowed key/value pair, or a windowed key with its grouped
    values. *)
Inductive pyval : Type :=
| PByte (b : byte)
| PKeyValue (k v : byte)
| PGroup (k : byte) (vs : list byte).

Definition byte_of (v : pyval) : list byte :=
  match v with
  | PByte b => [b]
  | _ => []
  end.

#[global] Instance pyval_windowed_values : WindowedValues pyval := {|
  kv_of := fun wkv =>
    match wkv with
    | PKeyValue k v => Ok (PByte k, PByte v)
    | _ => Raise (ValueError "")
    end;
  with_value := fun _ v => v;
  globally_window := fun key values =>
    PGroup (default "000"%byte (head (byte_of key)))
           (concat (map byte_of values))
|}.

(** One byte per element. *)
Definition byte_coder : CoderImpl pyval := {|
  decode_from_stream := fun s =>
    match s with
    | b :: rest => Ok (PByte b, rest)
    | [] => Raise (CoderError "end of stream")
    end;
  encode_to_stream := fun v =>
    match v with
    | PByte b => Ok [b]
    | _ => Raise (CoderError "not a byte")
    end;
  decode := fun s =>
    match s with
    | [b] => Ok (PByte b)
    | _ => Raise (CoderError "not one byte")
    end;
  encode := fun v =>
    match v with
    | PByte b => Ok [b]
    | _ => Raise (CoderError "not a byte")
    end
|}.

(** Two bytes per element: a windowed key/value pair. *)
Definition kv_coder : CoderImpl pyval := {|
  decode_from_stream := fun s =>
    match s with
    | k :: v :: rest => Ok (PKeyValue k v, rest)
    | _ => Raise (CoderError "end of stream")
    end;
  encode_to_stream := fun v =>
    match v with
    | PKeyValue k v => Ok [k; v]
    | _ => Raise (CoderError "not a key/value pair")
    end;
  decode := fun _ => Raise (CoderError "stream coder");
  encode := fun _ => Raise (CoderError "stream coder")
|}.

(** A grouped key followed by its values; the value 255 cannot be
    encoded. *)
Definition grouped_coder : CoderImpl pyval := {|
  decode_from_stream := fun _ => Raise (CoderError "write only");
  encode_to_stream := fun v =>
    match v with
    | PGroup k vs =>
        if existsb (fun b => bool_decide (b = "255"%byte)) vs
        then Raise (CoderError "value out of range")
        else Ok (k :: vs)
    | _ => Raise (CoderError "not a group")
    end;
  decode := fun _ => Raise (CoderError "stream coder");
  encode := fun _ => Raise (CoderError "stream coder")
|}.

Definition default_windowing : Windowing pyval := {|
  is_default := true;
  create_trigger_driver := Raise (NotImplementedError "")
|}.

Definition grouping_buffer : GroupingBuffer.GroupingBuffer pyval :=
  GroupingBuffer.__init__ byte_coder kv_coder grouped_coder default_windowing.

Definition list_buffer : ListBuffer.ListBuffer pyval :=
  ListBuffer.__init__ (Some byte_coder).

(** A two-stage pipeline: stage [A] reads the impulse and runs a ParDo
    without side inputs; stage [B] reads the impulse and runs a ParDo with
    one side input. *)
Definition DATA_INPUT_URN : string := "beam:runner:source:v1".
Definition DATA_OUTPUT_URN : string := "beam:runner:sink:v1".
Definition PAR_DO_URNS : list string := ["beam:transform:pardo:v1"%string].
Definition IMPULSE_BUFFER : bytes := encode_utf8 "impulse".
Definition ENCODED_IMPULSE_VALUE : bytes := ["000"%byte].
Definition MAX_TIMESTAMP : Z := 9223372036854775807.

Definition only_element (l : list string) : res string :=
  match l with
  | [x] => Ok x
  | _ => Raise (ValueError "")
  end.

(** A payload with no byte lists no side input. *)
Definition side_inputs_of (p : bytes) : res (list string) :=
  match p with
  | [] => Ok []
  | _ :: _ => Ok ["side"%string]
  end.

Definition grpc_payload (stage_name coder_id : string) : res bytes :=
  Ok (encode_utf8 coder_id).

Definition impulse_read (unique_name : string) : PTransform :=
  mkPTransform unique_name (mkFunctionSpec DATA_INPUT_URN IMPULSE_BUFFER)
               [] [("out"%string, "pc"%string)].

Definition par_do (unique_name : string) (p : bytes) : PTransform :=
  mkPTransform unique_name
               (mkFunctionSpec "beam:transform:pardo:v1" p)
               [("in"%string, "pc"%string)] [].

Definition stage_A : Stage :=
  mkStage "A" [impulse_read "A/Read"; par_do "A/ParDo" []].

Definition stage_B : Stage :=
  mkStage "B" [impulse_read "B/Read"; par_do "B/ParDo" ["001"%byte]].

Definition enqueue_initial_inputs (stage : Stage)
    (self : FnApiRunnerExecutionContext.FnApiRunnerExecutionContext pyval) :=
  FnApiRunnerExecutionContext._enqueue_stage_initial_inputs tuple_bool
    DATA_INPUT_URN DATA_OUTPUT_URN PAR_DO_URNS IMPULSE_BUFFER
    ENCODED_IMPULSE_VALUE MAX_TIMESTAMP only_element side_inputs_of
    grpc_payload stage self.

Definition custom_strategy (status : MergeStatus) : WindowingStrategy :=
  mkWindowingStrategy (mkFunctionSpec "custom:windowfn" []) status
                      "window_coder" "env".

Definition global_strategy : WindowingStrategy :=
  mkWindowingStrategy (mkFunctionSpec "beam:window_fn:global_windows:v1" [])
                      NON_MERGING "window_coder" "env".

Definition known_urns : list string :=
  ["beam:window_fn:global_windows:v1"%string;
   "beam:window_fn:pickled_python:v1"%string].

Definition PICKLED_WINDOWFN : string := "beam:window_fn:pickled_python:v1".

Definition uuid4_hex (count : nat) : string :=
  String.concat "" (replicate (S count) "0f"%string).

Definition context_with
    (strategies : gmap string WindowingStrategy)
  : FnApiRunnerExecutionContext.FnApiRunnerExecutionContext pyval :=
  FnApiRunnerExecutionContext.mk _ProcessingQueueManager.__init__
    {["pc"%string := "coder"%string]} ∅ (fun _ => Ok byte_coder)
    strategies strategies ∅ O.

(** Strategies of a pipeline: a built-in one, two custom ones, and one
    whose id is the first candidate safe id of ["w"]. *)
Definition strategies : gmap string WindowingStrategy :=
  {["global"%string := global_strategy;
    "w"%string := custom_strategy NON_MERGING;
    "w_safe"%string := global_strategy;
    "m"%string := custom_strategy NEEDS_MERGE]}.

Definition make_safe (id : string)
    (self : FnApiRunnerExecutionContext.FnApiRunnerExecutionContext pyval) :=
  FnApiRunnerExecutionContext._make_safe_windowing_strategy known_urns
    PICKLED_WINDOWFN uuid4_hex id self.

Definition context
  : FnApiRunnerExecutionContext.FnApiRunnerExecutionContext pyval :=
  context_with {["global"%string := global_strategy]}.

End Samples.

(** ** Dealing round-robin

    [deal n l] is the list of the [n] slices [l[0::n]], ..., [l[n-1::n]]. *)
Definition deal {A : Type} (n : nat) (l : list A) : list (list A) :=
  map (fun k => slice_from_step k n l) (seq 0 n).

(** ** Histories of a queue

    A queue as a sequence of calls leaves it, starting from [__init__];
    the outcome of each call is dropped, the queue it leaves is kept. *)
Inductive KeyedQueue_call (K V : Type) : Type :=
| CallEnque (elm : K * DataInput V)
| CallDeque.

Arguments CallEnque {K V} elm.
Arguments CallDeque {K V}.

Definition KeyedQueue_step {K V : Type} `{Countable K} `{WindowedValues V}
    (DataInput_bool : DataInput V -> bool)
    (q : KeyedQueue.KeyedQueue K V) (call : KeyedQueue_call K V)
  : KeyedQueue.KeyedQueue K V :=
  match call with
  | CallEnque elm => (KeyedQueue.enque DataInput_bool elm q).2
  | CallDeque => (KeyedQueue.deque q).2
  end.

Definition KeyedQueue_run {K V : Type} `{Countable K} `{WindowedValues V}
    (DataInput_bool : DataInput V -> bool)
    (calls : list (KeyedQueue_call K V)) : KeyedQueue.KeyedQueue K V :=
  fold_left (KeyedQueue_step DataInput_bool) calls KeyedQueue.__init__.

(** ** More sample values *)

Module MoreSamples.

Definition records (c : CoderImpl Samples.pyval) (l : list bytes)
  : ListBuffer.ListBuffer Samples.pyval :=
  ListBuffer.mk c l None false.

Definition four_records : ListBuffer.ListBuffer Samples.pyval :=
  records Samples.byte_coder [["a"]; ["b"]; ["c"]; ["d"; "e"]]%byte.

Definition one_record : ListBuffer.ListBuffer Samples.pyval :=
  records Samples.byte_coder [["a"; "b"; "c"]]%byte.

(** A record of one byte, which the two-byte coder cannot decode. *)
Definition truncated_record : ListBuffer.ListBuffer Samples.pyval :=
  records Samples.kv_coder [["a"]]%byte.

End MoreSamples.

(** Grouping buffers holding a few key/value pairs. *)
Module GroupSamples.

Definition kv_jk : GroupingBuffer.GroupingBuffer Samples.pyval :=
  (GroupingBuffer.append ["k"; "v"; "j"; "x"; "k"; "w"]%byte
     Samples.grouping_buffer).2.

Definition kv_more : GroupingBuffer.GroupingBuffer Samples.pyval :=
  (GroupingBuffer.append ["j"; "y"; "i"; "z"]%byte
     Samples.grouping_buffer).2.

End GroupSamples.

(** Queues with one pending stage. *)
Module QueueSamples.

Definition list_input : DataInput Samples.pyval :=
  mkDataInput [("pc"%string, BList MoreSamples.four_records)] [].

Definition group_input : DataInput Samples.pyval :=
  mkDataInput [("pc"%string, BGroup GroupSamples.kv_jk)] [].

Definition one_list : KeyedQueue.KeyedQueue string Samples.pyval :=
  (KeyedQueue.enque tuple_bool ("A"%string, list_input)
     KeyedQueue.__init__).2.

Definition one_group : KeyedQueue.KeyedQueue string Samples.pyval :=
  (KeyedQueue.enque tuple_bool ("G"%string, group_input)
     KeyedQueue.__init__).2.

End QueueSamples.

(** ** Sample stages without an impulse read *)

Module StageSamples.

Definition data_write (unique_name : string) : PTransform :=
  mkPTransform unique_name
               (mkFunctionSpec Samples.DATA_OUTPUT_URN (encode_utf8 "out"))
               [("in"%string, "pc"%string)] [].

Definition data_read (unique_name : string) : PTransform :=
  mkPTransform unique_name
               (mkFunctionSpec Samples.DATA_INPUT_URN (encode_utf8 "pc"))
               [] [("out"%string, "pc"%string)].

Definition stage_C : Stage :=
  mkStage "C" [data_read "C/Read"; Samples.par_do "C/ParDo" [];
               data_write "C/Write"].

Definition stage_D : Stage :=
  mkStage "D" [Samples.impulse_read "D/Read"].

Definition setup (stages : list Stage) :=
  FnApiRunnerExecutionContext.setup tuple_bool
    Samples.DATA_INPUT_URN Samples.DATA_OUTPUT_URN Samples.PAR_DO_URNS
    Samples.IMPULSE_BUFFER Samples.ENCODED_IMPULSE_VALUE
    Samples.MAX_TIMESTAMP Samples.only_element Samples.side_inputs_of
    Samples.grpc_payload
    (FnApiRunnerExecutionContext.stages_by_name stages) Samples.context.

End StageSamples.

(** ** Sample buffer ids *)

Module DictionarySamples.

(** [buffer_id.decode('utf-8').split(':', 1)], unpacked into two names. *)
Fixpoint split_colon (s : string) : option (string * string) :=
  match s with
  | EmptyString => None
  | String c rest =>
      if Ascii.eqb c ":" then Some (EmptyString, rest)
      else match split_colon rest with
           | Some (kind, pcoll_id) => Some (String c kind, pcoll_id)
           | None => None
           end
  end.

Definition split_buffer_id (buffer_id : bytes) : res (string * string) :=
  match split_colon (String.string_of_list_byte buffer_id) with
  | Some r => Ok r
  | None => Raise (ValueError "")
  end.

Definition read (unique_name : string) (buffer_id : string) : PTransform :=
  mkPTransform unique_name
               (mkFunctionSpec Samples.DATA_INPUT_URN (encode_utf8 buffer_id))
               [] [("out"%string, "pc"%string)].

Definition write (unique_name : string) (buffer_id : string) : PTransform :=
  mkPTransform unique_name
               (mkFunctionSpec Samples.DATA_OUTPUT_URN (encode_utf8 buffer_id))
               [("in"%string, "pc"%string)] [].

(** The second stage reads what the first writes, before and after it. *)
Definition stages : list Stage :=
  [mkStage "S0" [read "S0/Read" "materialize:pc2"];
   mkStage "S1" [Samples.impulse_read "S1/Impulse";
                 read "S1/Read" "materialize:pc1";
                 write "S1/Write" "materialize:pc2"];
   mkStage "S2" [read "S2/Read" "materialize:pc2";
                 Samples.par_do "S2/ParDo" [];
                 write "S2/Write" "group:pc3"]].

Definition compute (stages : list Stage) :=
  PipelineDictionaries._compute_pipeline_dictionaries
    Samples.DATA_INPUT_URN Samples.DATA_OUTPUT_URN Samples.PAR_DO_URNS
    Samples.IMPULSE_BUFFER split_buffer_id stages
    PipelineDictionaries.__init__.

End DictionarySamples.

(** ** Sample side inputs *)

Module SideInputSamples.

(** A byte, a key/value tuple, the string [''], and a windowed byte or
    tuple with its windows; windows are numbered. *)
Inductive sval : Type :=
| SByte (b : byte)
| STuple (k v : byte)
| SStr
| SWindowed (b : byte) (windows : list nat)
| SWindowedTuple (k v : byte) (windows : list nat).

#[global] Instance sval_eq_dec : EqDecision sval.
Proof. solve_decision. Defined.

#[global] Instance sval_windowed_values : WindowedValues sval := {|
  kv_of := fun wkv =>
    match wkv with
    | SWindowedTuple k v _ => Ok (SByte k, SByte v)
    | _ => Raise (ValueError "")
    end;
  with_value := fun _ v => v;
  globally_window := fun key _ => key
|}.

#[global] Instance sval_side_input_values : SideInputValues sval nat := {|
  value_of := fun wv =>
    match wv with
    | SWindowed b _ => SByte b
    | SWindowedTuple k v _ => STuple k v
    | v => v
    end;
  windows_of := fun wv =>
    match wv with
    | SWindowed _ windows => windows
    | SWindowedTuple _ _ windows => windows
    | _ => []
    end;
  pair_of := fun v =>
    match v with
    | STuple k v => Ok (SByte k, SByte v)
    | _ => Raise (ValueError "")
    end;
  empty_str := SStr
|}.

(** The second byte of an encoded element tells its windows. *)
Definition windows_of_mask (m : byte) : list nat :=
  match m with
  | "001"%byte => [0%nat]
  | "002"%byte => [1%nat]
  | "003"%byte => [0%nat; 1%nat]
  | _ => []
  end.

Definition windowed_coder : CoderImpl sval := {|
  decode_from_stream := fun s =>
    match s with
    | b :: m :: rest => Ok (SWindowed b (windows_of_mask m), rest)
    | _ => Raise (CoderError "end of stream")
    end;
  encode_to_stream := fun _ => Raise (CoderError "read only");
  decode := fun _ => Raise (CoderError "stream coder");
  encode := fun _ => Raise (CoderError "stream coder")
|}.

Definition value_coder : CoderImpl sval := {|
  decode_from_stream := fun _ => Raise (CoderError "write only");
  encode_to_stream := fun v =>
    match v with
    | SByte b => Ok [b]
    | _ => Raise (CoderError "not a byte")
    end;
  decode := fun _ => Raise (CoderError "stream coder");
  encode := fun _ => Raise (CoderError "stream coder")
|}.

(** A singleton coder writes nothing. *)
Definition SingletonCoder (value : sval) : CoderImpl sval := {|
  decode_from_stream := fun s => Ok (value, s);
  encode_to_stream := fun _ => Ok [];
  decode := fun _ => Ok value;
  encode := fun _ => Ok []
|}.

Definition coder : WindowedValueCoder sval nat := {|
  get_impl := windowed_coder;
  wrapped_value_coder := value_coder;
  wrapped_value_coder_key_coder := Raise (ValueError "Not a KV coder");
  wrapped_value_coder_value_coder := Raise (ValueError "Not a KV coder");
  window_coder := fun w =>
    match w with
    | 0%nat => Ok ["000"%byte]
    | 1%nat => Ok ["001"%byte]
    | _ => Raise (CoderError "unknown window")
    end
|}.

Definition ITERABLE_URN : string := "beam:side_input:iterable:v1".
Definition MULTIMAP_URN : string := "beam:side_input:multimap:v1".

(** The buffer of an [ITERABLE] side input before any element. *)
Definition elements_by_window
  : WindowGroupingBuffer.WindowGroupingBuffer sval nat :=
  WindowGroupingBuffer.mk (fun value => Ok (SStr, value))
    (SingletonCoder SStr) value_coder windowed_coder (window_coder coder) [].

Definition buffer_id : bytes := encode_utf8 "materialize:pc".

Definition pipeline_context_coders (id : string)
  : res (WindowedValueCoder sval nat) :=
  if bool_decide (id = "c_safe"%string) then Ok coder else Raise (KeyError id).

Definition struct_pack_i (n : nat) : res bytes :=
  match Byte.of_nat n with
  | Some b => Ok ["000"%byte; "000"%byte; "000"%byte; b]
  | None => Raise (ValueError "out of range")
  end.

Definition commit
    (data_side_input : list ((string * string) * (bytes * FunctionSpec)))
    (self : SideInputs.State sval) :=
  SideInputs.commit_side_inputs_to_state ITERABLE_URN MULTIMAP_URN
    SingletonCoder DictionarySamples.split_buffer_id
    {["pc"%string := "c"%string]} {["c"%string := "c_safe"%string]}
    pipeline_context_coders struct_pack_i data_side_input self.

(** Three elements in two records: [a] in both windows, [b] in the first,
    [c] in the second. *)
Definition state : SideInputs.State sval :=
  SideInputs.mk
    [(buffer_id,
      BList (ListBuffer.mk windowed_coder
               [["a"; "003"; "b"; "001"]; ["c"; "002"]]%byte None false))]
    [].

Definition iterable : (string * string) * (bytes * FunctionSpec) :=
  (("t"%string, "tag"%string), (buffer_id, mkFunctionSpec ITERABLE_URN [])).

Definition unknown : (string * string) * (bytes * FunctionSpec) :=
  (("t"%string, "tag"%string),
   (buffer_id, mkFunctionSpec "beam:side_input:other:v1" [])).

End SideInputSamples.

(** ** A sample process bundle descriptor *)

Module DescriptorSamples.

Definition TRUNCATE_SIZED_RESTRICTION_URN : string :=
  "beam:transform:sdf_truncate_sized_restrictions:v1".

(** A read followed by SDF/Truncate and SDF/Process. *)
Definition transforms : list (string * PTransform) :=
  [("read"%string,
    mkPTransform "Read" (mkFunctionSpec Samples.DATA_INPUT_URN [])
                 [] [("out"%string, "pc"%string)]);
   ("truncate"%string,
    mkPTransform "SDF/Truncate"
                 (mkFunctionSpec TRUNCATE_SIZED_RESTRICTION_URN [])
                 [("in"%string, "pc"%string)]
                 [("out"%string, "pc_truncated"%string)]);
   ("process"%string,
    mkPTransform "SDF/Process"
                 (mkFunctionSpec "beam:transform:pardo:v1" [])
                 [("in"%string, "pc_truncated"%string)]
                 [("out"%string, "pc_out"%string)])].

Definition input_for (transform_id input_id : string) : res string :=
  BundleContextManager.input_for Samples.DATA_INPUT_URN
    TRUNCATE_SIZED_RESTRICTION_URN transforms transform_id input_id.

End DescriptorSamples.

(** * Properties *)

(** ** Cleared-state contract of ListBuffer *)

Section ListBufferCleared.
Context {V : Type}.
Implicit Types (b : ListBuffer.ListBuffer V) (c : CoderImpl V).

Lemma ListBuffer_clear_state b :
  (ListBuffer.clear b).2 = ListBuffer.mk (ListBuffer._coder_impl b) [] None true.
Proof. reflexivity. Qed.

Lemma ListBuffer_clear_reset_fresh b :
  (ListBuffer.reset (ListBuffer.clear b).2)
  = (Ok tt, ListBuffer.__init__ (Some (ListBuffer._coder_impl b))).
Proof. reflexivity. Qed.

(** C8.  After [clear()], each of [append], [extend], iteration and
    [partition] raises a [RuntimeError] and leaves the buffer as it is;
    [reset()] on a buffer that is not cleared raises a [RuntimeError];
    [clear()] then [reset()] gives the buffer the state of a newly built
    one (same coder), on which [append] succeeds and stores the record. *)
Theorem ListBuffer_cleared_contract b :
  let cl := (ListBuffer.clear b).2 in
  (∀ element,
     ListBuffer.append element cl
     = (Raise (RuntimeError "Trying to append to a cleared ListBuffer."), cl))
  ∧ (∀ (extra : ListBuffer.ListBuffer V + GroupingBuffer.GroupingBuffer V),
       ListBuffer.extend extra cl
       = (Raise (RuntimeError "Trying to append to a cleared ListBuffer."),
          cl))
  ∧ ListBuffer.__iter__ cl
    = (Raise (RuntimeError "Trying to iterate through a cleared ListBuffer."),
       cl)
  ∧ (∀ n,
       ListBuffer.partition n cl
       = (Raise (RuntimeError "Trying to partition a cleared ListBuffer."),
          cl))
  ∧ (∀ c inputs grouped,
       ListBuffer.reset (ListBuffer.mk c inputs grouped false)
       = (Raise (RuntimeError "Trying to reset a non-cleared ListBuffer."),
          ListBuffer.mk c inputs grouped false))
  ∧ (ListBuffer.reset cl).1 = Ok tt
  ∧ (ListBuffer.reset cl).2
    = ListBuffer.__init__ (Some (ListBuffer._coder_impl b))
  ∧ (∀ element,
       ListBuffer.append element (ListBuffer.reset cl).2
       = (Ok tt,
          ListBuffer.mk (ListBuffer._coder_impl b) [element] None false))
  ∧ (ListBuffer.__iter__ (ListBuffer.reset cl).2).1 = Ok [].
Proof.
  cbv zeta. repeat split; intros; reflexivity.
Qed.

End ListBufferCleared.

(** ** GroupingBuffer: clear, reset, memoized partition *)

Section GroupingBufferFacts.
Context {V : Type} `{WindowedValues V}.
Implicit Types (g : GroupingBuffer.GroupingBuffer V).

(** C10.  [clear()] and [reset()] return without touching the buffer, the
    [cleared] attribute is [False] before and after, and [append],
    [extend], iteration and [partition] give after [clear()] what they give
    without it. *)
Theorem GroupingBuffer_clear_reset_noop g :
  GroupingBuffer.clear g = (Ok tt, g)
  ∧ GroupingBuffer.reset g = (Ok tt, g)
  ∧ GroupingBuffer.cleared g = false
  ∧ GroupingBuffer.cleared (GroupingBuffer.clear g).2 = false
  ∧ GroupingBuffer._table (GroupingBuffer.clear g).2 = GroupingBuffer._table g
  ∧ GroupingBuffer._grouped_output (GroupingBuffer.clear g).2
    = GroupingBuffer._grouped_output g
  ∧ (∀ elements_data,
       GroupingBuffer.append elements_data (GroupingBuffer.clear g).2
       = GroupingBuffer.append elements_data g)
  ∧ (∀ (src : ListBuffer.ListBuffer V + GroupingBuffer.GroupingBuffer V),
       GroupingBuffer.extend src (GroupingBuffer.clear g).2
       = GroupingBuffer.extend src g)
  ∧ GroupingBuffer.__iter__ (GroupingBuffer.clear g).2
    = GroupingBuffer.__iter__ g
  ∧ (∀ n,
       GroupingBuffer.partition n (GroupingBuffer.clear g).2
       = GroupingBuffer.partition n g).
Proof.
  repeat split; intros; reflexivity.
Qed.

Lemma encode_groups_length (coder_impl : CoderImpl V) idx n wkvss streams
    streams' :
  GroupingBuffer.encode_groups coder_impl idx n wkvss streams = Ok streams' →
  length streams' = length streams.
Proof.
  revert streams. induction wkvss as [|w more IH]; intros streams; simpl.
  - intros [= <-]. reflexivity.
  - destruct (GroupingBuffer.stream_index idx n) as [i| |]; try discriminate.
    destruct (encode_to_stream coder_impl w) as [written| |];
      try discriminate.
    intros Hrec. apply IH in Hrec. rewrite Hrec. apply length_alter.
Qed.

Lemma encode_table_length (coder_impl key_coder_impl : CoderImpl V) wkv n idx
    items streams streams' :
  GroupingBuffer.encode_table coder_impl key_coder_impl wkv n idx items streams
  = Ok streams' →
  length streams' = length streams.
Proof.
  revert idx streams.
  induction items as [|[encoded_key windowed_values] more IH];
    intros idx streams; simpl.
  - intros [= <-]. reflexivity.
  - destruct (decode key_coder_impl encoded_key) as [key| |];
      try discriminate.
    destruct (wkv key windowed_values) as [wkvss| |]; try discriminate.
    destruct (GroupingBuffer.encode_groups coder_impl idx n wkvss streams)
      as [streams1| |] eqn:Hg; try discriminate.
    intros Hrec. apply IH in Hrec. apply encode_groups_length in Hg.
    congruence.
Qed.

(** A successful [partition] leaves the table empty and the shards cached. *)
Lemma GroupingBuffer_partition_Ok_state n g shards g' :
  GroupingBuffer.partition n g = (Ok shards, g') →
  GroupingBuffer._grouped_output g' = Some shards
  ∨ (g' = g ∧ shards = default [] (GroupingBuffer._grouped_output g)
     ∧ truthy (GroupingBuffer._grouped_output g) = true).
Proof.
  unfold GroupingBuffer.partition.
  destruct (truthy (GroupingBuffer._grouped_output g)) eqn:Ht; simpl.
  - intros [= <- <-]. right. auto.
  - destruct (if is_default (GroupingBuffer._windowing g) then _ else _)
      as [wkv| |]; try discriminate.
    destruct (GroupingBuffer.encode_table _ _ _ _ _ _ _) as [streams| |];
      try discriminate.
    intros [= <- <-]. left. reflexivity.
Qed.

(** C3.  When [partition(n)] returns, a second [partition(n)] returns the
    same shards and leaves the buffer as the first call left it. *)
Theorem GroupingBuffer_partition_twice n g shards g' :
  GroupingBuffer.partition n g = (Ok shards, g') →
  GroupingBuffer.partition n g' = (Ok shards, g').
Proof.
  unfold GroupingBuffer.partition at 1.
  destruct (truthy (GroupingBuffer._grouped_output g)) eqn:Ht; simpl.
  - intros [= <- <-]. unfold GroupingBuffer.partition. rewrite Ht. reflexivity.
  - destruct (if is_default (GroupingBuffer._windowing g) then _ else _)
      as [wkv| |] eqn:Hw; try discriminate.
    destruct (GroupingBuffer.encode_table _ _ _ _ _ _ _) as [streams| |]
      eqn:Henc; try discriminate.
    intros [= <- <-]. unfold GroupingBuffer.partition. simpl.
    destruct streams as [|s streams]; simpl.
    + rewrite Hw. simpl.
      apply encode_table_length in Henc. rewrite length_replicate in Henc.
      rewrite <- Henc. reflexivity.
    + reflexivity.
Qed.

End GroupingBufferFacts.

Lemma GroupingBuffer_partition_twice_witness :
  let g := (GroupingBuffer.append ["k"; "v"; "j"; "x"; "k"; "w"]%byte
              Samples.grouping_buffer).2 in
  let first := GroupingBuffer.partition 2 g in
  first.1 = Ok [[["k"; "v"; "w"]]; [["j"; "x"]]]%byte
  ∧ GroupingBuffer._table first.2 = []
  ∧ GroupingBuffer.partition 2 first.2
    = (Ok [[["k"; "v"; "w"]]; [["j"; "x"]]]%byte, first.2).
Proof.
  cbv zeta. split; [reflexivity|]. split; [reflexivity|].
  apply GroupingBuffer_partition_twice
    with (g := (GroupingBuffer.append ["k"; "v"; "j"; "x"; "k"; "w"]%byte
                  Samples.grouping_buffer).2).
  reflexivity.
Defined.

(** ** Calls after a partition, and failed partitions *)

Section AfterPartition.
Context {V : Type} `{WindowedValues V}.
Implicit Types (g other : GroupingBuffer.GroupingBuffer V).

Lemma GroupingBuffer_partition_truthy n g shards g' :
  1 ≤ n →
  GroupingBuffer.partition n g = (Ok shards, g') →
  truthy (GroupingBuffer._grouped_output g') = true.
Proof.
  intros Hn. unfold GroupingBuffer.partition.
  destruct (truthy (GroupingBuffer._grouped_output g)) eqn:Ht; simpl.
  - intros [= <- <-]. exact Ht.
  - destruct (if is_default (GroupingBuffer._windowing g) then _ else _)
      as [wkv| |]; try discriminate.
    destruct (GroupingBuffer.encode_table _ _ _ _ _ _ _) as [streams| |]
      eqn:Henc; try discriminate.
    intros [= <- <-]. simpl.
    apply encode_table_length in Henc. rewrite length_replicate in Henc.
    destruct streams; [simpl in Henc; lia | reflexivity].
Qed.

(** After a successful [partition(n)], [n >= 1], [append] is refused. *)
Lemma GroupingBuffer_append_after_partition n g shards g' elements_data :
  1 ≤ n →
  GroupingBuffer.partition n g = (Ok shards, g') →
  GroupingBuffer.append elements_data g'
  = (Raise (RuntimeError "Grouping table append after read."), g').
Proof.
  intros Hn Hp. unfold GroupingBuffer.append.
  rewrite (GroupingBuffer_partition_truthy n g shards g' Hn Hp). reflexivity.
Qed.

(** C4.  After a successful [partition(n)], [n >= 1], [extend] still
    returns normally: a [ListBuffer] source is ignored and a
    [GroupingBuffer] source is merged into the table, which has just been
    emptied; the merged values are absent from every later [partition],
    which returns the cached shards.  ([append] is refused in that state,
    see [GroupingBuffer_append_after_partition].) *)
Theorem GroupingBuffer_extend_after_partition_succeeds n g shards g' other :
  1 ≤ n →
  GroupingBuffer.partition n g = (Ok shards, g') →
  (∀ lb : ListBuffer.ListBuffer V,
     GroupingBuffer.extend (Buffer_source (BList lb)) g' = (Ok tt, g'))
  ∧ (GroupingBuffer.extend (Buffer_source (BGroup other)) g').1 = Ok tt
  ∧ GroupingBuffer._table
      (GroupingBuffer.extend (Buffer_source (BGroup other)) g').2
    = fold_left (fun t kv => GroupingBuffer.table_extend kv.1 kv.2 t)
        (GroupingBuffer._table other) (GroupingBuffer._table g')
  ∧ (GroupingBuffer.partition n
       (GroupingBuffer.extend (Buffer_source (BGroup other)) g').2).1
    = Ok shards.
Proof.
  intros Hn Hp. split; [reflexivity|]. split; [reflexivity|].
  split; [reflexivity|].
  pose proof (GroupingBuffer_partition_truthy n g shards g' Hn Hp) as Ht.
  unfold GroupingBuffer.partition. simpl. rewrite Ht. simpl.
  destruct (GroupingBuffer_partition_Ok_state n g shards g' Hp)
    as [->|(-> & -> & _)]; reflexivity.
Qed.

(** A [partition] that does not return leaves the buffer either untouched
    (the trigger driver could not be built) or with [n] empty shards
    recorded as its grouped output and the table still in place. *)
Lemma GroupingBuffer_partition_failure_state n g r g' :
  GroupingBuffer.partition n g = (r, g') →
  is_Ok r = false →
  g' = g
  ∨ g' = GroupingBuffer.set_grouped_output (Some (replicate (Z.to_nat n) []))
           g.
Proof.
  unfold GroupingBuffer.partition.
  destruct (truthy (GroupingBuffer._grouped_output g)); simpl.
  - intros [= <- <-]. discriminate.
  - destruct (if is_default (GroupingBuffer._windowing g) then _ else _)
      as [wkv| |]; try (intros [= <- <-]; auto).
    destruct (GroupingBuffer.encode_table _ _ _ _ _ _ _) as [streams| |];
      intros [= <- <-]; try discriminate; auto.
Qed.

End AfterPartition.

Lemma GroupingBuffer_extend_after_partition_succeeds_witness :
  let g := (GroupingBuffer.append ["k"; "v"]%byte Samples.grouping_buffer).2 in
  let other :=
    (GroupingBuffer.append ["j"; "x"]%byte Samples.grouping_buffer).2 in
  let g' := (GroupingBuffer.partition 1 g).2 in
  let extended := GroupingBuffer.extend (Buffer_source (BGroup other)) g' in
  extended.1 = Ok tt
  ∧ GroupingBuffer._table extended.2 = [(["j"%byte], [Samples.PByte "x"])]
  ∧ (GroupingBuffer.partition 1 extended.2).1 = Ok [[["k"; "v"]]]%byte.
Proof.
  cbv zeta.
  pose proof (GroupingBuffer_extend_after_partition_succeeds 1
    (GroupingBuffer.append ["k"; "v"]%byte Samples.grouping_buffer).2
    [[["k"; "v"]]]%byte
    (GroupingBuffer.partition 1
       (GroupingBuffer.append ["k"; "v"]%byte Samples.grouping_buffer).2).2
    (GroupingBuffer.append ["j"; "x"]%byte Samples.grouping_buffer).2
    ltac:(lia) eq_refl) as (_ & H1 & H2 & H3).
  split; [exact H1|]. split; [|exact H3]. reflexivity.
Defined.

Section ListBufferFailure.
Context {V : Type}.

(** A [ListBuffer.partition] that does not return leaves the buffer as it
    was: the grouped output is assigned after the last record has been
    re-encoded. *)
Lemma ListBuffer_partition_failure_state n (b : ListBuffer.ListBuffer V) r b' :
  ListBuffer.partition n b = (r, b') →
  is_Ok r = false →
  b' = b.
Proof.
  unfold ListBuffer.partition.
  destruct (ListBuffer.cleared b); [intros [= <- <-]; reflexivity|].
  destruct (_ || _); [intros [= <- <-]; discriminate|].
  destruct (negb _); [|intros [= <- <-]; discriminate].
  destruct (ListBuffer.redistribute _ _ _ _) as [[streams idx]| |];
    intros [= <- <-]; try discriminate; reflexivity.
Qed.

End ListBufferFailure.

(** C6.  A [GroupingBuffer] holding the key ["k"] with a value that the
    output coder rejects: [partition(1)] raises the coder's error, and the
    buffer is not as it was before the call.  Its grouped output, [None]
    before, is now one empty shard; the table is still in place but a second
    [partition(1)] returns the empty shard instead of raising again, and
    [append] is refused. *)
Theorem GroupingBuffer_failed_partition_memoizes_empty_shards :
  let g := (GroupingBuffer.append ["k"; "255"]%byte
              Samples.grouping_buffer).2 in
  let failed := GroupingBuffer.partition 1 g in
  GroupingBuffer._table g = [(["k"%byte], [Samples.PByte "255"])]
  ∧ GroupingBuffer._grouped_output g = None
  ∧ failed.1 = Raise (CoderError "value out of range")
  ∧ GroupingBuffer._grouped_output failed.2 = Some [[]]
  ∧ GroupingBuffer._table failed.2 = GroupingBuffer._table g
  ∧ failed.2 ≠ g
  ∧ GroupingBuffer.partition 1 failed.2 = (Ok [[]], failed.2)
  ∧ (GroupingBuffer.append ["j"; "x"]%byte failed.2).1
    = Raise (RuntimeError "Grouping table append after read.").
Proof.
  cbv zeta. repeat split; try reflexivity.
  intros Heq. apply (f_equal GroupingBuffer._grouped_output) in Heq.
  discriminate Heq.
Qed.

(** ** ListBuffer.partition keeps every element *)

Section Slices.
Context {A : Type}.
Implicit Types (l : list A).

Lemma slice_from_step_nil k n : slice_from_step k n (@nil A) = [].
Proof. reflexivity. Qed.

Lemma concat_slices_nil n (ks : list nat) :
  concat (map (fun k => slice_from_step k n (@nil A)) ks) = [].
Proof. induction ks as [|k ks IH]; simpl; auto. Qed.

(** The slices of [x :: t] are the slices of [t] rotated by one, with [x]
    in front of the last of them. *)
Lemma slices_cons n (x : A) (t : list A) :
  map (fun k => slice_from_step k (S n) (x :: t)) (seq 0 (S n))
  = (x :: slice_from_step n (S n) t)
      :: map (fun k => slice_from_step k (S n) t) (seq 0 n).
Proof.
  simpl. f_equal. rewrite <- seq_shift, map_map. reflexivity.
Qed.

Lemma concat_slices_perm n l :
  concat (map (fun k => slice_from_step k (S n) l) (seq 0 (S n))) ≡ₚ l.
Proof.
  induction l as [|x t IH].
  - rewrite concat_slices_nil. reflexivity.
  - rewrite slices_cons. simpl. constructor.
    etransitivity; [|exact IH].
    rewrite seq_S, map_app, concat_app. simpl. rewrite app_nil_r.
    apply Permutation_app_comm.
Qed.

End Slices.

Section Redistribution.
Context {V : Type} (c : CoderImpl V).
Implicit Types (vals : list (list V)) (streams : list bytes).

Lemma encodes_snoc values s v written :
  encodes c values s →
  encode_to_stream c v = Ok written →
  encodes c (values ++ [v]) (s ++ written).
Proof.
  revert s. induction values as [|v0 values IH]; intros s; simpl.
  - intros -> Hv. exists written, []. rewrite app_nil_r. auto.
  - intros (w0 & s' & Hw0 & -> & Hrest) Hv.
    exists w0, (s' ++ written). rewrite app_assoc. auto.
Qed.

Lemma concat_alter_snoc vals idx v :
  (idx < length vals)%nat →
  concat (alter (fun o => o ++ [v]) idx vals) ≡ₚ concat vals ++ [v].
Proof.
  revert idx. induction vals as [|x vals IH]; intros idx Hidx; simpl in *.
  - lia.
  - destruct idx as [|idx]; simpl.
    + rewrite <- !app_assoc. apply Permutation_app_head.
      apply Permutation_app_comm.
    + change (list_alter ?f idx vals) with (alter f idx vals).
      rewrite IH by lia. rewrite app_assoc. reflexivity.
Qed.

(** The inner loop reads exactly the sub-elements that [decode_stream]
    reads, and adds each of them to one output stream. *)
Lemma redistribute_stream_sound n fuel input streams idx streams' idx' vals :
  ListBuffer.redistribute_stream fuel c n input (streams, idx)
  = Ok (streams', idx') →
  Forall2 (fun s values => encodes c values s) streams vals →
  (idx < n)%nat → length streams = n →
  ∃ read vals',
    decode_stream fuel c input = Ok read
    ∧ Forall2 (fun s values => encodes c values s) streams' vals'
    ∧ (idx' < n)%nat ∧ length streams' = n
    ∧ concat vals' ≡ₚ concat vals ++ read.
Proof.
  revert input streams idx vals.
  induction fuel as [|fuel IH]; intros input streams idx vals;
    destruct input as [|b input]; simpl; try discriminate.
  - intros [= <- <-] HR Hidx Hlen. exists [], vals.
    rewrite app_nil_r. auto.
  - intros [= <- <-] HR Hidx Hlen. exists [], vals.
    rewrite app_nil_r. auto.
  - destruct (decode_from_stream c (b :: input)) as [[v rest]| |];
      try discriminate.
    destruct (encode_to_stream c v) as [written| |] eqn:Henc;
      try discriminate.
    destruct (length rest <? S (length input))%nat; try discriminate.
    intros Hrun HR Hidx Hlen.
    assert (Hvals : length vals = n)
      by (rewrite <- Hlen; symmetry; eapply Forall2_length; exact HR).
    destruct (IH rest _ _ (alter (fun o => o ++ [v]) idx vals) Hrun)
      as (read & vals' & Hdec & HR' & Hidx' & Hlen' & Hperm).
    + apply Forall2_alter; [exact HR|].
      intros s values _ _ Hs. apply encodes_snoc; assumption.
    + apply Nat.mod_upper_bound. lia.
    + rewrite length_alter. exact Hlen.
    + exists (v :: read), vals'. rewrite Hdec. repeat split; auto.
      rewrite Hperm, concat_alter_snoc by lia.
      rewrite <- app_assoc. reflexivity.
Qed.

Lemma redistribute_sound n inputs streams idx streams' idx' vals :
  ListBuffer.redistribute c n inputs (streams, idx) = Ok (streams', idx') →
  Forall2 (fun s values => encodes c values s) streams vals →
  (idx < n)%nat → length streams = n →
  ∃ read vals',
    sub_elements_of_records c inputs = Ok read
    ∧ Forall2 (fun s values => encodes c values s) streams' vals'
    ∧ length streams' = n
    ∧ concat vals' ≡ₚ concat vals ++ read.
Proof.
  revert streams idx vals.
  induction inputs as [|input more IH]; intros streams idx vals; simpl.
  - intros [= <- <-] HR Hidx Hlen. exists [], vals.
    rewrite app_nil_r. auto.
  - destruct (ListBuffer.redistribute_stream _ _ _ _ _)
      as [[streams1 idx1]| |] eqn:Hone; try discriminate.
    intros Hrun HR Hidx Hlen.
    destruct (redistribute_stream_sound _ _ _ _ _ _ _ _ Hone HR Hidx Hlen)
      as (read1 & vals1 & Hdec1 & HR1 & Hidx1 & Hlen1 & Hperm1).
    destruct (IH _ _ _ Hrun HR1 Hidx1 Hlen1)
      as (read2 & vals2 & Hdec2 & HR2 & Hlen2 & Hperm2).
    exists (read1 ++ read2), vals2. unfold sub_elements.
    rewrite Hdec1, Hdec2. repeat split; auto.
    rewrite Hperm2, Hperm1, <- app_assoc. reflexivity.
Qed.

(** Decoding a stream of encodings gives the encoded values back. *)
Lemma decode_stream_encodes fuel values s :
  coder_round_trips c →
  encodes c values s →
  (length s ≤ fuel)%nat →
  decode_stream fuel c s = Ok values.
Proof.
  intros [Hrt _]. revert fuel s.
  induction values as [|v values IH]; intros fuel s; simpl.
  - intros -> _. destruct fuel; reflexivity.
  - intros (written & s' & Henc & -> & Hrest) Hfuel.
    destruct (Hrt v written s' Henc) as [Hne Hdec].
    destruct written as [|w0 written]; [congruence|].
    simpl in Hfuel. destruct fuel as [|fuel]; [lia|].
    cbn [decode_stream app]. change (w0 :: written ++ s')
      with ((w0 :: written) ++ s'). rewrite Hdec.
    assert (Hlt : (length s' <? length ((w0 :: written) ++ s'))%nat = true).
    { apply Nat.ltb_lt. rewrite length_app. simpl. lia. }
    rewrite Hlt.
    rewrite (IH fuel s' Hrest); [reflexivity|].
    rewrite length_app in Hfuel. lia.
Qed.

Lemma sub_elements_of_streams streams vals :
  coder_round_trips c →
  Forall2 (fun s values => encodes c values s) streams vals →
  sub_elements_of_records c streams = Ok (concat vals).
Proof.
  intros Hc. induction 1 as [|s values streams vals Hs _ IH]; simpl.
  - reflexivity.
  - unfold sub_elements.
    rewrite (decode_stream_encodes _ _ _ Hc Hs) by lia.
    rewrite IH. reflexivity.
Qed.

(** What the redistribution pass writes holds, shard by shard, a
    rearrangement of the sub-elements of the inputs. *)
Lemma redistribute_keeps_sub_elements n inputs streams idx :
  coder_round_trips c →
  (0 < n)%nat →
  ListBuffer.redistribute c n inputs (replicate n [], O) = Ok (streams, idx) →
  length streams = n
  ∧ ∃ before after,
      sub_elements_of_records c inputs = Ok before
      ∧ sub_elements_of_records c streams = Ok after
      ∧ after ≡ₚ before.
Proof.
  intros Hc Hn Hrun.
  destruct (redistribute_sound n inputs _ _ _ _ (replicate n []) Hrun)
    as (read & vals' & Hdec & HR & Hlen & Hperm).
  - apply Forall2_replicate. reflexivity.
  - exact Hn.
  - apply length_replicate.
  - split; [exact Hlen|]. exists read, (concat vals').
    split; [exact Hdec|]. split; [apply sub_elements_of_streams; assumption|].
    rewrite Hperm.
    assert (Hnil : concat (replicate n (@nil V)) = []).
    { clear. induction n; simpl; auto. }
    rewrite Hnil. reflexivity.
Qed.

(** When every input decodes to its end and the coder re-encodes what it
    decodes, the redistribution pass completes. *)
Lemma redistribute_stream_returns n fuel input st read :
  coder_round_trips c →
  decode_stream fuel c input = Ok read →
  ∃ st', ListBuffer.redistribute_stream fuel c n input st = Ok st'.
Proof.
  intros [_ Hre]. revert input st read.
  induction fuel as [|fuel IH]; intros input st read;
    destruct input as [|b input]; simpl; try discriminate; eauto.
  destruct (decode_from_stream c (b :: input)) as [[v rest]| |] eqn:Hdec;
    try discriminate.
  destruct (Hre _ _ _ Hdec) as [written ->].
  destruct (length rest <? S (length input))%nat; try discriminate.
  destruct (decode_stream fuel c rest) as [values| |] eqn:Hrest;
    try discriminate.
  intros _. eapply IH. exact Hrest.
Qed.

Lemma redistribute_returns n inputs st read :
  coder_round_trips c →
  sub_elements_of_records c inputs = Ok read →
  ∃ st', ListBuffer.redistribute c n inputs st = Ok st'.
Proof.
  intros Hc. revert st read.
  induction inputs as [|input more IH]; intros st read; simpl; eauto.
  unfold sub_elements.
  destruct (decode_stream (length input) c input) as [values| |] eqn:Hone;
    try discriminate.
  destruct (sub_elements_of_records c more) as [values'| |] eqn:Hmore;
    try discriminate.
  intros _.
  destruct (redistribute_stream_returns n _ _ st _ Hc Hone) as [st1 ->].
  eapply IH. reflexivity.
Qed.

End Redistribution.

Section ListBufferPartition.
Context {V : Type}.
Implicit Types (b : ListBuffer.ListBuffer V).

Lemma ListBuffer_consistent_truthy b :
  ListBuffer_consistent b →
  ListBuffer._grouped_output b = None
  ∨ truthy (ListBuffer._grouped_output b) = true.
Proof.
  unfold ListBuffer_consistent.
  destruct (ListBuffer._grouped_output b) as [grouped|]; [|auto].
  intros (n & streams & idx & Hn & Hrun & ->). right.
  destruct (redistribute_sound _ n _ _ _ _ _ (replicate n []) Hrun)
    as (_ & _ & _ & _ & Hlen & _).
  - apply Forall2_replicate. reflexivity.
  - exact Hn.
  - apply length_replicate.
  - destruct streams; [simpl in Hlen; lia | reflexivity].
Qed.

Lemma ListBuffer_init_consistent coder_impl :
  ListBuffer_consistent (ListBuffer.__init__ (V := V) coder_impl).
Proof. exact I. Qed.

Lemma ListBuffer_copy_consistent b :
  ListBuffer_consistent (ListBuffer.copy b).
Proof. exact I. Qed.

Lemma ListBuffer_clear_consistent b :
  ListBuffer_consistent (ListBuffer.clear b).2.
Proof. exact I. Qed.

Lemma ListBuffer_reset_consistent b :
  ListBuffer_consistent b → ListBuffer_consistent (ListBuffer.reset b).2.
Proof.
  unfold ListBuffer.reset. destruct (negb (ListBuffer.cleared b)); auto.
Qed.

Lemma ListBuffer_append_consistent element b :
  ListBuffer_consistent b →
  ListBuffer_consistent (ListBuffer.append element b).2.
Proof.
  intros Hb. unfold ListBuffer.append.
  destruct (ListBuffer.cleared b); [exact Hb|].
  destruct (ListBuffer_consistent_truthy b Hb) as [Hnone| ->]; [|exact Hb].
  rewrite Hnone. exact I.
Qed.

Lemma ListBuffer_extend_consistent {G : Type}
    (extra : ListBuffer.ListBuffer V + G) b :
  ListBuffer_consistent b →
  ListBuffer_consistent (ListBuffer.extend extra b).2.
Proof.
  intros Hb. unfold ListBuffer.extend.
  destruct (ListBuffer.cleared b); [exact Hb|].
  destruct (ListBuffer_consistent_truthy b Hb) as [Hnone| ->]; [|exact Hb].
  rewrite Hnone. simpl. destruct extra; [exact I|].
  unfold ListBuffer_consistent. simpl. rewrite Hnone. exact I.
Qed.

Lemma ListBuffer_partition_consistent n b :
  ListBuffer_consistent b →
  ListBuffer_consistent (ListBuffer.partition n b).2.
Proof.
  intros Hb. unfold ListBuffer.partition.
  destruct (ListBuffer.cleared b); [exact Hb|].
  destruct (_ || _) eqn:Hpath; [exact Hb|].
  destruct (negb _); [|exact Hb].
  destruct (ListBuffer.redistribute _ _ _ _) as [[streams idx]| |] eqn:Hrun;
    try exact Hb.
  simpl. unfold ListBuffer_consistent. simpl.
  exists (Z.to_nat n), streams, idx. split; [|auto].
  apply orb_false_iff in Hpath as [Hge Hzero].
  rewrite Z.geb_leb in Hge. apply Z.leb_gt in Hge.
  apply Nat.eqb_neq in Hzero. lia.
Qed.

(** C1.  For [n >= 1] and a buffer that is not cleared:
    - when the buffer holds at least [n] records, or none, [partition(n)]
      returns [n] shards, leaves the buffer as it is, and the shards put
      end to end are a rearrangement of the records;
    - otherwise, when every record decodes to its end under a coder that
      round-trips, [partition(n)] returns shards of one record each, and
      the sub-elements decoded from those records are a rearrangement of the
      sub-elements decoded from the records of the buffer. *)
Theorem ListBuffer_partition_keeps_elements n b :
  1 ≤ n →
  ListBuffer.cleared b = false →
  ListBuffer_consistent b →
  ((n ≤ Z.of_nat (length (ListBuffer._inputs b))
    ∨ ListBuffer._inputs b = []) →
   ∃ shards,
     ListBuffer.partition n b = (Ok shards, b)
     ∧ length shards = Z.to_nat n
     ∧ concat shards ≡ₚ ListBuffer._inputs b)
  ∧ (Z.of_nat (length (ListBuffer._inputs b)) < n →
     ListBuffer._inputs b ≠ [] →
     coder_round_trips (ListBuffer._coder_impl b) →
     ∀ before,
       sub_elements_of_records (ListBuffer._coder_impl b)
         (ListBuffer._inputs b) = Ok before →
       ∃ shards b' after,
         ListBuffer.partition n b = (Ok shards, b')
         ∧ ListBuffer._inputs b' = ListBuffer._inputs b
         ∧ Forall (fun shard => length shard = 1%nat) shards
         ∧ sub_elements_of_records (ListBuffer._coder_impl b) (concat shards)
           = Ok after
         ∧ after ≡ₚ before).
Proof.
  intros Hn Hcl Hb. split.
  - intros Hpath. unfold ListBuffer.partition. rewrite Hcl.
    assert (Hcond : (Z.of_nat (length (ListBuffer._inputs b)) >=? n)
                    || (length (ListBuffer._inputs b) =? 0)%nat = true).
    { apply orb_true_iff. destruct Hpath as [Hge|Hnil].
      - left. rewrite Z.geb_leb. apply Z.leb_le. exact Hge.
      - right. rewrite Hnil. reflexivity. }
    rewrite Hcond. eexists. split; [reflexivity|].
    split; [rewrite length_map, length_seq; reflexivity|].
    destruct (Z.to_nat n) as [|m] eqn:Hm; [lia|].
    apply concat_slices_perm.
  - intros Hlt Hne Hc before Hbefore.
    assert (Hcond : (Z.of_nat (length (ListBuffer._inputs b)) >=? n)
                    || (length (ListBuffer._inputs b) =? 0)%nat = false).
    { apply orb_false_iff. split.
      - rewrite Z.geb_leb. apply Z.leb_gt. exact Hlt.
      - apply Nat.eqb_neq. destruct (ListBuffer._inputs b); simpl; congruence. }
    assert (Hshards : ∀ streams : list bytes,
              concat (map (fun s => [s]) streams) = streams
              ∧ Forall (fun shard : list bytes => length shard = 1%nat)
                  (map (fun s => [s]) streams)).
    { induction streams as [|s streams [IH1 IH2]]; simpl; split; auto.
      congruence. }
    unfold ListBuffer.partition. rewrite Hcl, Hcond.
    destruct (ListBuffer_consistent_truthy b Hb) as [Hnone|Htruthy].
    + rewrite Hnone. simpl.
      destruct (redistribute_returns _ (Z.to_nat n) _
                  (replicate (Z.to_nat n) [], O) _ Hc Hbefore)
        as [[streams idx] Hrun].
      rewrite Hrun.
      assert (Hpos : (0 < Z.to_nat n)%nat) by lia.
      destruct (redistribute_keeps_sub_elements _ _ _ _ _ Hc Hpos Hrun)
        as (_ & before' & after & Hb' & Ha & Hperm).
      rewrite Hbefore in Hb'. injection Hb' as <-.
      eexists _, _, after. split; [reflexivity|].
      destruct (Hshards streams) as [-> Hone]. auto.
    + rewrite Htruthy. simpl.
      unfold ListBuffer_consistent in Hb.
      destruct (ListBuffer._grouped_output b) as [grouped|];
        [|discriminate].
      destruct Hb as (n' & streams & idx & Hn' & Hrun & ->).
      destruct (redistribute_keeps_sub_elements _ _ _ _ _ Hc Hn' Hrun)
        as (_ & before' & after & Hb' & Ha & Hperm).
      rewrite Hbefore in Hb'. injection Hb' as <-. simpl.
      eexists _, _, after. split; [reflexivity|].
      destruct (Hshards streams) as [-> Hone]. auto.
Qed.

End ListBufferPartition.

Lemma Samples_byte_coder_round_trips : coder_round_trips Samples.byte_coder.
Proof.
  split.
  - intros [b|k v|k vs] written rest; simpl; try discriminate.
    intros [= <-]. split; [discriminate | reflexivity].
  - intros [|b s] v rest; simpl; try discriminate.
    intros [= <- <-]. eexists. reflexivity.
Qed.

Lemma ListBuffer_partition_keeps_elements_witness :
  let b := (ListBuffer.append ["a"; "b"]%byte Samples.list_buffer).2 in
  (∃ shards,
     ListBuffer.partition 1 b = (Ok shards, b)
     ∧ length shards = 1%nat
     ∧ concat shards ≡ₚ [["a"; "b"]%byte])
  ∧ (∃ shards b' after,
       ListBuffer.partition 2 b = (Ok shards, b')
       ∧ ListBuffer._inputs b' = [["a"; "b"]%byte]
       ∧ Forall (fun shard => length shard = 1%nat) shards
       ∧ sub_elements_of_records Samples.byte_coder (concat shards)
         = Ok after
       ∧ after ≡ₚ [Samples.PByte "a"; Samples.PByte "b"]).
Proof.
  cbv zeta. split.
  - apply (ListBuffer_partition_keeps_elements 1
             (ListBuffer.append ["a"; "b"]%byte Samples.list_buffer).2
             ltac:(lia) eq_refl I).
    left. simpl. lia.
  - apply (ListBuffer_partition_keeps_elements 2
             (ListBuffer.append ["a"; "b"]%byte Samples.list_buffer).2
             ltac:(lia) eq_refl I).
    + simpl. lia.
    + discriminate.
    + exact Samples_byte_coder_round_trips.
    + reflexivity.
Defined.

(** The records themselves are not kept by the redistribution pass: one
    record of two sub-elements, split over two shards, comes back as two
    records of one sub-element each. *)
Lemma ListBuffer_partition_redistribution_changes_records :
  let b := (ListBuffer.append ["a"; "b"]%byte Samples.list_buffer).2 in
  ListBuffer._inputs b = [["a"; "b"]%byte]
  ∧ (ListBuffer.partition 2 b).1 = Ok [[["a"%byte]]; [["b"%byte]]]
  ∧ ¬ (concat [[["a"%byte]]; [["b"%byte]]] ≡ₚ ListBuffer._inputs b).
Proof.
  cbv zeta. split; [reflexivity|]. split; [reflexivity|].
  intros Hperm. apply Permutation_length in Hperm. discriminate Hperm.
Qed.

(** ** The keyed queues *)

Section Dicts.
Context {I B : Type} `{EqDecision I}.
Implicit Types (d : list (I * B)).

Lemma dict_get_None i d : i ∉ dict_keys d → dict_get i d = None.
Proof.
  induction d as [|[j b] d IH]; simpl; [reflexivity|].
  intros Hi. apply not_elem_of_cons in Hi as [Hne Hi].
  destruct (decide (j = i)); [congruence | auto].
Qed.

Lemma dict_set_new i b d : i ∉ dict_keys d → dict_set i b d = d ++ [(i, b)].
Proof.
  induction d as [|[j c] d IH]; simpl; [reflexivity|].
  intros Hi. apply not_elem_of_cons in Hi as [Hne Hi].
  destruct (decide (j = i)); [congruence|]. rewrite IH; auto.
Qed.

End Dicts.

Section KeyedQueueFacts.
Context {K V : Type} `{Countable K} `{WindowedValues V}.
Variable DataInput_bool : DataInput V -> bool.
Implicit Types (q : KeyedQueue.KeyedQueue K V) (key : K) (d : DataInput V).

Lemma merge_into_disjoint {I : Type} `{EqDecision I}
    (incoming existing : list (I * Buffer V)) :
  NoDup (dict_keys incoming) →
  dict_keys existing ## dict_keys incoming →
  KeyedQueue.merge_into incoming existing = (Ok tt, existing ++ incoming).
Proof.
  revert existing.
  induction incoming as [|[pcoll inc] more IH]; intros existing; simpl.
  - intros _ _. rewrite app_nil_r. reflexivity.
  - intros Hnd Hdisj. apply NoDup_cons in Hnd as [Hnew Hnd].
    assert (Hfree : pcoll ∉ dict_keys existing).
    { intros Hin. apply (Hdisj pcoll Hin). left. }
    rewrite (dict_get_None _ _ Hfree). simpl.
    rewrite (dict_set_new _ _ _ Hfree).
    rewrite IH; [rewrite <- app_assoc; reflexivity | exact Hnd |].
    unfold dict_keys in *. rewrite map_app. simpl.
    intros k Hk Hk'. apply elem_of_app in Hk as [Hk|Hk].
    + apply (Hdisj k Hk). right. exact Hk'.
    + apply list_elem_of_singleton in Hk as ->. contradiction.
Qed.

Lemma merge_inputs_disjoint d1 d2 :
  NoDup (dict_keys (data d2)) →
  NoDup (dict_keys (timers d2)) →
  dict_keys (data d1) ## dict_keys (data d2) →
  dict_keys (timers d1) ## dict_keys (timers d2) →
  KeyedQueue.merge_inputs d2 d1
  = (Ok tt, mkDataInput (data d1 ++ data d2) (timers d1 ++ timers d2)).
Proof.
  intros Hd Ht Hdd Htt. unfold KeyedQueue.merge_inputs.
  rewrite (merge_into_disjoint _ _ Hd Hdd).
  rewrite (merge_into_disjoint _ _ Ht Htt). reflexivity.
Qed.

Lemma KeyedQueue_init_wf :
  KeyedQueue_wf (KeyedQueue.__init__ (K := K) (V := V)).
Proof.
  unfold KeyedQueue_wf. simpl.
  split; [constructor|]. split; [constructor|]. split.
  - intros k e. rewrite lookup_empty. split; [discriminate|].
    intros [Hin _]. inversion Hin.
  - intros e Hin. inversion Hin.
Qed.

(** [enque] keeps the queue well formed, whatever it returns. *)
Lemma KeyedQueue_enque_wf q key d :
  KeyedQueue_wf q →
  KeyedQueue_wf (KeyedQueue.enque DataInput_bool (key, d) q).2.
Proof.
  intros Hwf. pose proof Hwf as (Hkeys & Hrefs & Hidx & Hdom).
  unfold KeyedQueue.enque. simpl.
  destruct (negb (DataInput_bool d)); [exact Hwf|].
  destruct (KeyedQueue._keyed_elements q !! key) as [[key' ref]|] eqn:Hkey.
  - destruct (KeyedQueue.merge_inputs d (KeyedQueue.store q !!! ref))
      as [r merged]. simpl.
    split; [exact Hkeys|]. split; [exact Hrefs|]. split; [exact Hidx|].
    simpl. intros e Hin. rewrite dom_insert_L.
    apply elem_of_union_r, Hdom, Hin.
  - simpl. set (ref := fresh (dom (KeyedQueue.store q))).
    assert (Hfresh : ref ∉ dom (KeyedQueue.store q)) by apply is_fresh.
    split; [|split; [|split]]; simpl.
    + apply NoDup_cons. split; [|exact Hkeys].
      intros Hin. apply list_elem_of_fmap in Hin as ([k r] & Hk & Hin).
      simpl in Hk. subst k.
      assert (KeyedQueue._keyed_elements q !! key = Some (key, r)) as Hsome
        by (apply Hidx; auto).
      congruence.
    + apply NoDup_cons. split; [|exact Hrefs].
      intros Hin. apply list_elem_of_fmap in Hin as (e & Hr & Hin).
      apply Hdom in Hin. rewrite <- Hr in Hin. contradiction.
    + intros k e. destruct (decide (key = k)) as [<-|Hne].
      * rewrite lookup_insert_eq. split.
        -- intros [= <-]. split; [left | reflexivity].
        -- intros [Hin Hk]. apply elem_of_cons in Hin as [->|Hin];
             [reflexivity|].
           assert (KeyedQueue._keyed_elements q !! key = Some e) as Hsome
             by (apply Hidx; auto).
           congruence.
      * rewrite lookup_insert_ne by exact Hne. rewrite Hidx. split.
        -- intros [Hin Hk]. split; [right; exact Hin | exact Hk].
        -- intros [Hin Hk]. split; [|exact Hk].
           apply elem_of_cons in Hin as [->|Hin]; [|exact Hin].
           simpl in Hk. congruence.
    + intros e Hin. rewrite dom_insert_L.
      apply elem_of_cons in Hin as [->|Hin]; simpl.
      * apply elem_of_union_l, elem_of_singleton. reflexivity.
      * apply elem_of_union_r, Hdom, Hin.
Qed.

Lemma reverse_cons_inv {A : Type} (l : list A) x r :
  reverse l = x :: r → l = reverse r ++ [x].
Proof.
  intros Hrev. rewrite <- (reverse_involutive l), Hrev, reverse_cons.
  reflexivity.
Qed.

(** [deque] keeps the queue well formed, whatever it returns. *)
Lemma KeyedQueue_deque_wf q :
  KeyedQueue_wf q → KeyedQueue_wf (KeyedQueue.deque q).2.
Proof.
  intros Hwf. pose proof Hwf as (Hkeys & Hrefs & Hidx & Hdom).
  unfold KeyedQueue.deque.
  destruct (reverse (KeyedQueue._q q)) as [|[key ref] rest_rev] eqn:Hrev;
    [exact Hwf|].
  apply reverse_cons_inv in Hrev.
  assert (Hlast : (key, ref) ∈ KeyedQueue._q q).
  { rewrite Hrev. apply elem_of_app. right. left. }
  assert (Hsome : KeyedQueue._keyed_elements q !! key = Some (key, ref))
    by (apply Hidx; auto).
  rewrite Hsome. simpl.
  rewrite Hrev, map_app in Hkeys, Hrefs.
  apply NoDup_app in Hkeys as (Hkeys & Hkeys' & _).
  apply NoDup_app in Hrefs as (Hrefs & _ & _).
  split; [exact Hkeys|]. split; [exact Hrefs|]. split; simpl.
  - intros k e. destruct (decide (key = k)) as [<-|Hne].
    + rewrite lookup_delete_eq. split; [discriminate|].
      intros [Hin Hk]. exfalso. apply (Hkeys' key).
      * apply list_elem_of_fmap. exists e. auto.
      * simpl. left.
    + rewrite lookup_delete_ne by exact Hne. rewrite Hidx, Hrev. split.
      * intros [Hin Hk]. split; [|exact Hk].
        apply elem_of_app in Hin as [Hin|Hin]; [exact Hin|].
        apply list_elem_of_singleton in Hin as ->. simpl in Hk. congruence.
      * intros [Hin Hk]. split; [|exact Hk]. apply elem_of_app. left.
        exact Hin.
  - intros e Hin. apply Hdom. rewrite Hrev. apply elem_of_app. left.
    exact Hin.
Qed.

(** An input that is false in [if not incoming_inputs] is dropped. *)
Lemma KeyedQueue_enque_false q key d :
  DataInput_bool d = false →
  KeyedQueue.enque DataInput_bool (key, d) q = (Ok tt, q).
Proof. intros Hd. unfold KeyedQueue.enque. simpl. rewrite Hd. reflexivity. Qed.

(** An input that is true creates an entry for a key that is not pending,
    whatever its dictionaries hold. *)
Lemma KeyedQueue_enque_new q key d :
  DataInput_bool d = true →
  KeyedQueue._keyed_elements q !! key = None →
  let q' := (KeyedQueue.enque DataInput_bool (key, d) q).2 in
  (KeyedQueue.enque DataInput_bool (key, d) q).1 = Ok tt
  ∧ KeyedQueue._q q'
    = (key, fresh (dom (KeyedQueue.store q))) :: KeyedQueue._q q
  ∧ KeyedQueue.__len__ q' = S (KeyedQueue.__len__ q)
  ∧ KeyedQueue_pending q' key = Some d.
Proof.
  intros Hd Hkey. unfold KeyedQueue.enque, KeyedQueue_pending. simpl.
  rewrite Hd, Hkey. simpl. repeat split.
  rewrite lookup_insert_eq, lookup_total_insert_eq. reflexivity.
Qed.

End KeyedQueueFacts.

Section KeyedQueueMerge.
Context {K V : Type} `{Countable K} `{WindowedValues V}.
Variable DataInput_bool : DataInput V -> bool.
Implicit Types (q : KeyedQueue.KeyedQueue K V) (key : K) (d : DataInput V).

Lemma KeyedQueue_deque_last q front key ref :
  KeyedQueue._q q = front ++ [(key, ref)] →
  is_Some (KeyedQueue._keyed_elements q !! key) →
  KeyedQueue.deque q
  = (Ok (key, KeyedQueue.store q !!! ref),
     KeyedQueue.mk (KeyedQueue.store q) front
       (delete key (KeyedQueue._keyed_elements q))).
Proof.
  intros Hq [e He]. unfold KeyedQueue.deque.
  rewrite Hq, reverse_app, reverse_singleton. simpl.
  rewrite He, reverse_involutive. reflexivity.
Qed.

(** Dequeuing the [length older] oldest elements leaves the newer ones as
    they are, in the deque, in the index and in the store. *)
Lemma KeyedQueue_deque_many_older older front q :
  KeyedQueue_wf q →
  KeyedQueue._q q = front ++ older →
  let q' := KeyedQueue_deque_many (length older) q in
  KeyedQueue._q q' = front
  ∧ KeyedQueue.store q' = KeyedQueue.store q
  ∧ (∀ k, k ∈ map fst front →
          KeyedQueue._keyed_elements q' !! k
          = KeyedQueue._keyed_elements q !! k).
Proof.
  revert q. induction older as [|[key ref] older IH] using rev_ind;
    intros q Hwf Hq; simpl.
  - rewrite app_nil_r in Hq. auto.
  - rewrite length_app, Nat.add_comm. simpl.
    pose proof Hwf as (Hkeys & _ & Hidx & _).
    rewrite app_assoc in Hq.
    assert (Hsome : is_Some (KeyedQueue._keyed_elements q !! key)).
    { exists (key, ref). apply Hidx. split; [|reflexivity].
      rewrite Hq. apply elem_of_app. right. left. }
    pose proof (KeyedQueue_deque_wf q Hwf) as Hwf'.
    rewrite (KeyedQueue_deque_last q _ key ref Hq Hsome) in Hwf' |- *.
    simpl in *.
    destruct (IH _ Hwf' eq_refl) as (Hq' & Hstore & Hkeyed).
    split; [exact Hq'|]. split; [exact Hstore|].
    intros k Hk. rewrite (Hkeyed k Hk). simpl.
    apply lookup_delete_ne. intros <-.
    rewrite Hq, map_app in Hkeys. apply NoDup_app in Hkeys as (_ & Hdisj & _).
    apply (Hdisj key).
    + rewrite map_app. apply elem_of_app. left. exact Hk.
    + simpl. left.
Qed.

(** C2.  On a well-formed queue where [key] is not pending, enqueue
    [(key, d1)] and then [(key, d2)], both true in [if not
    incoming_inputs], the per-PCollection dictionaries of [d1] and [d2]
    having no key in common.  The first call adds one element at the tail;
    the second returns what the timer merge returns and changes neither the
    deque nor the index, so the element keeps its position and the length
    stays one more than before.  The payload pending under [key] holds the
    data of [d1] followed by the data of [d2], and the timers merged family
    by family (the timers of both when they have no family in common).
    Other keys keep their payload, no key occurs twice in the deque, and
    once the elements that were pending before have been dequeued, the next
    [deque()] returns [key] with that payload. *)
Theorem KeyedQueue_enque_twice_merges q key d1 d2 :
  KeyedQueue_wf q →
  KeyedQueue._keyed_elements q !! key = None →
  DataInput_bool d1 = true →
  DataInput_bool d2 = true →
  NoDup (dict_keys (data d2)) →
  dict_keys (data d1) ## dict_keys (data d2) →
  let first := KeyedQueue.enque DataInput_bool (key, d1) q in
  let second := KeyedQueue.enque DataInput_bool (key, d2) first.2 in
  let merged_timers := KeyedQueue.merge_into (timers d2) (timers d1) in
  let union := mkDataInput (data d1 ++ data d2) merged_timers.2 in
  first.1 = Ok tt
  ∧ second.1 = merged_timers.1
  ∧ (NoDup (dict_keys (timers d2)) →
     dict_keys (timers d1) ## dict_keys (timers d2) →
     merged_timers = (Ok tt, timers d1 ++ timers d2))
  ∧ KeyedQueue._q first.2
    = (key, fresh (dom (KeyedQueue.store q))) :: KeyedQueue._q q
  ∧ KeyedQueue._q second.2 = KeyedQueue._q first.2
  ∧ KeyedQueue._keyed_elements second.2 = KeyedQueue._keyed_elements first.2
  ∧ KeyedQueue.__len__ second.2 = S (KeyedQueue.__len__ q)
  ∧ KeyedQueue_pending second.2 key = Some union
  ∧ (∀ k, k ≠ key →
          KeyedQueue_pending second.2 k = KeyedQueue_pending q k)
  ∧ KeyedQueue_wf second.2
  ∧ NoDup (map fst (KeyedQueue._q second.2))
  ∧ (KeyedQueue.deque
       (KeyedQueue_deque_many (KeyedQueue.__len__ q) second.2)).1
    = Ok (key, union).
Proof.
  intros Hwf Hkey Hd1 Hd2 Hnd Hdisj. cbv zeta.
  set (ref := fresh (dom (KeyedQueue.store q))).
  assert (Hfresh : ref ∉ dom (KeyedQueue.store q)) by apply is_fresh.
  assert (Hfirst : KeyedQueue.enque DataInput_bool (key, d1) q
                   = (Ok tt,
                      KeyedQueue.mk (<[ref := d1]> (KeyedQueue.store q))
                        ((key, ref) :: KeyedQueue._q q)
                        (<[key := (key, ref)]>
                           (KeyedQueue._keyed_elements q)))).
  { unfold KeyedQueue.enque. simpl. rewrite Hd1, Hkey. reflexivity. }
  assert (Hmerge : KeyedQueue.merge_inputs d2 d1
                   = ((KeyedQueue.merge_into (timers d2) (timers d1)).1,
                      mkDataInput (data d1 ++ data d2)
                        (KeyedQueue.merge_into (timers d2) (timers d1)).2)).
  { unfold KeyedQueue.merge_inputs.
    rewrite (merge_into_disjoint _ _ Hnd Hdisj).
    destruct (KeyedQueue.merge_into (timers d2) (timers d1)). reflexivity. }
  assert (Hsecond :
    KeyedQueue.enque DataInput_bool (key, d2)
      (KeyedQueue.enque DataInput_bool (key, d1) q).2
    = ((KeyedQueue.merge_into (timers d2) (timers d1)).1,
       KeyedQueue.mk
         (<[ref := mkDataInput (data d1 ++ data d2)
                     (KeyedQueue.merge_into (timers d2) (timers d1)).2]>
            (<[ref := d1]> (KeyedQueue.store q)))
         ((key, ref) :: KeyedQueue._q q)
         (<[key := (key, ref)]> (KeyedQueue._keyed_elements q)))).
  { rewrite Hfirst. unfold KeyedQueue.enque. simpl.
    rewrite Hd2, lookup_insert_eq, lookup_total_insert_eq, Hmerge.
    reflexivity. }
  pose proof (KeyedQueue_enque_wf DataInput_bool _ key d2
                (KeyedQueue_enque_wf DataInput_bool q key d1 Hwf)) as Hwf2.
  rewrite Hsecond in Hwf2 |- *. rewrite Hfirst. simpl in *.
  split; [reflexivity|]. split; [reflexivity|].
  split; [intros Hnt Hdt; apply merge_into_disjoint; assumption|].
  split; [reflexivity|]. split; [reflexivity|]. split; [reflexivity|].
  split; [reflexivity|]. split.
  { unfold KeyedQueue_pending. simpl.
    rewrite lookup_insert_eq, lookup_total_insert_eq. reflexivity. }
  split.
  { intros k Hne. unfold KeyedQueue_pending. simpl.
    rewrite lookup_insert_ne by congruence.
    destruct (KeyedQueue._keyed_elements q !! k) as [[k' r]|] eqn:Hk;
      [|reflexivity].
    destruct Hwf as (_ & _ & Hidx & Hdom).
    apply Hidx in Hk as [Hin _]. apply Hdom in Hin. simpl in Hin.
    rewrite !lookup_total_insert_ne by (intros ->; contradiction).
    reflexivity. }
  split; [exact Hwf2|]. split; [apply Hwf2|].
  destruct (KeyedQueue_deque_many_older (KeyedQueue._q q) [(key, ref)] _
              Hwf2 eq_refl) as (Hq' & Hstore & Hkeyed).
  unfold KeyedQueue.__len__.
  rewrite (KeyedQueue_deque_last _ [] key ref).
  - simpl. rewrite Hstore. simpl. rewrite lookup_total_insert_eq.
    reflexivity.
  - rewrite Hq'. reflexivity.
  - rewrite Hkeyed by (simpl; left). simpl. rewrite lookup_insert_eq. eauto.
Qed.

End KeyedQueueMerge.

Lemma KeyedQueue_enque_twice_merges_witness :
  let b := (ListBuffer.append ["a"]%byte Samples.list_buffer).2 in
  let d1 := mkDataInput [("pc1"%string, BList b)] [] in
  let d2 := mkDataInput [("pc2"%string, BList b)] [] in
  let first :=
    KeyedQueue.enque tuple_bool ("stage"%string, d1) KeyedQueue.__init__ in
  let second := KeyedQueue.enque tuple_bool ("stage"%string, d2) first.2 in
  KeyedQueue.__len__ second.2 = 1%nat
  ∧ NoDup (map fst (KeyedQueue._q second.2))
  ∧ (KeyedQueue.deque second.2).1
    = Ok ("stage"%string,
          mkDataInput [("pc1"%string, BList b); ("pc2"%string, BList b)] []).
Proof.
  cbv zeta.
  pose proof (KeyedQueue_enque_twice_merges tuple_bool
    (KeyedQueue.__init__ (K := string) (V := Samples.pyval)) "stage"%string
    (mkDataInput
       [("pc1"%string,
         BList (ListBuffer.append ["a"]%byte Samples.list_buffer).2)] [])
    (mkDataInput
       [("pc2"%string,
         BList (ListBuffer.append ["a"]%byte Samples.list_buffer).2)] [])
    KeyedQueue_init_wf (lookup_empty _) eq_refl eq_refl) as Hmerge.
  destruct Hmerge as (_ & _ & _ & _ & _ & _ & Hlen & _ & _ & _ & Hnd & Hdeq).
  - simpl. apply NoDup_singleton.
  - simpl. intros k Hk1 Hk2.
    apply list_elem_of_singleton in Hk1, Hk2. congruence.
  - split; [exact Hlen|]. split; [exact Hnd|]. exact Hdeq.
Defined.

(** A false input is dropped, a true one is not: enqueuing on a pending key
    an input whose two dictionaries are empty changes nothing that can be
    observed, on a key that is not pending it creates the entry (see
    [KeyedQueue_enque_new]). *)
Lemma KeyedQueue_enque_empty_pending {K V : Type} `{Countable K}
    `{WindowedValues V} (DataInput_bool : DataInput V -> bool)
    (q : KeyedQueue.KeyedQueue K V) (key : K) :
  KeyedQueue_wf q →
  is_Some (KeyedQueue._keyed_elements q !! key) →
  KeyedQueue.enque DataInput_bool (key, mkDataInput [] []) q = (Ok tt, q).
Proof.
  intros (_ & _ & Hidx & Hdom) [[k ref] Hkey]. unfold KeyedQueue.enque. simpl.
  destruct (negb (DataInput_bool (mkDataInput [] []))); [reflexivity|].
  rewrite Hkey. unfold KeyedQueue.merge_inputs. simpl.
  destruct (KeyedQueue.store q !!! ref) as [dat tim] eqn:Href. simpl.
  destruct q as [store q keyed]. simpl in *. f_equal. f_equal.
  apply insert_id. rewrite <- Href.
  apply Hidx in Hkey as [Hin _]. apply Hdom in Hin. simpl in Hin.
  apply elem_of_dom in Hin as [x Hx].
  rewrite (lookup_total_correct _ _ _ Hx). exact Hx.
Qed.

(** C9.  With [DataInput] a tuple, [enque(("stage", DataInput({}, {})))] on
    an empty queue is not a no-op: the guard [if not incoming_inputs] does
    not fire, the length goes from 0 to 1, and the key is now pending with
    an empty payload, which [deque()] returns. *)
Theorem KeyedQueue_enque_empty_input_adds_entry :
  let q : KeyedQueue.KeyedQueue string Samples.pyval := KeyedQueue.__init__ in
  let r := KeyedQueue.enque tuple_bool ("stage"%string, mkDataInput [] []) q in
  KeyedQueue.__len__ q = 0%nat
  ∧ KeyedQueue_pending q "stage"%string = None
  ∧ r.1 = Ok tt
  ∧ KeyedQueue.__len__ r.2 = 1%nat
  ∧ KeyedQueue_pending r.2 "stage"%string = Some (mkDataInput [] [])
  ∧ r.2 ≠ q
  ∧ (KeyedQueue.deque r.2).1 = Ok ("stage"%string, mkDataInput [] []).
Proof.
  cbv zeta.
  destruct (KeyedQueue_enque_new tuple_bool
              (KeyedQueue.__init__ (K := string) (V := Samples.pyval))
              "stage"%string (mkDataInput [] []) eq_refl (lookup_empty _))
    as (Hr & Hq & Hlen & Hpending).
  split; [reflexivity|]. split; [reflexivity|]. split; [exact Hr|].
  split; [exact Hlen|]. split; [exact Hpending|]. split.
  - intros Heq. rewrite Heq in Hlen. discriminate Hlen.
  - reflexivity.
Qed.

(** ** Seeding the queues with the initial inputs of a stage *)

Section Dicts2.
Context {I B : Type} `{EqDecision I}.
Implicit Types (d : list (I * B)).

Lemma dict_set_elem i b d e :
  e ∈ dict_set i b d → e = (i, b) ∨ e ∈ d.
Proof.
  induction d as [|[j c] d IH]; simpl.
  - intros Hin. apply list_elem_of_singleton in Hin. auto.
  - destruct (decide (j = i)) as [->|Hne]; intros Hin;
      apply elem_of_cons in Hin as [->|Hin]; auto.
    + right. right. exact Hin.
    + right. left.
    + destruct (IH Hin) as [->|Hd]; auto. right. right. exact Hd.
Qed.

Lemma dict_set_key i b d : i ∈ dict_keys (dict_set i b d).
Proof.
  induction d as [|[j c] d IH]; simpl; [left|].
  destruct (decide (j = i)) as [->|Hne]; simpl; [left | right; exact IH].
Qed.

Lemma dict_set_keys i b d k : k ∈ dict_keys d → k ∈ dict_keys (dict_set i b d).
Proof.
  induction d as [|[j c] d IH]; simpl; [intros Hin; inversion Hin|].
  intros Hin. destruct (decide (j = i)) as [->|Hne]; simpl; [exact Hin|].
  apply elem_of_cons in Hin as [->|Hin]; [left | right; auto].
Qed.

Lemma dict_set_not_nil i b d : dict_set i b d ≠ [].
Proof. destruct d as [|[j c] d]; simpl; [|destruct (decide (j = i))]; discriminate. Qed.

End Dicts2.

Section EnqueueInitialInputs.
Context {V : Type} `{WindowedValues V}.
Variable DataInput_bool : DataInput V -> bool.
Variable DATA_INPUT_URN DATA_OUTPUT_URN : string.
Variable PAR_DO_URNS : list string.
Variable IMPULSE_BUFFER ENCODED_IMPULSE_VALUE : bytes.
Variable MAX_TIMESTAMP : Z.
Variable only_element : list string -> res string.
Variable side_inputs_of : bytes -> res (list string).
Variable grpc_payload : string -> string -> res bytes.

(** The two data URNs are not ParDo URNs. *)
Hypothesis DATA_INPUT_URN_not_par_do : DATA_INPUT_URN ∉ PAR_DO_URNS.
Hypothesis DATA_OUTPUT_URN_not_par_do : DATA_OUTPUT_URN ∉ PAR_DO_URNS.

Local Abbreviation visit_transform :=
  (FnApiRunnerExecutionContext.visit_transform DATA_INPUT_URN DATA_OUTPUT_URN
     PAR_DO_URNS IMPULSE_BUFFER ENCODED_IMPULSE_VALUE only_element
     side_inputs_of grpc_payload).
Local Abbreviation visit_transforms :=
  (FnApiRunnerExecutionContext.visit_transforms DATA_INPUT_URN DATA_OUTPUT_URN
     PAR_DO_URNS IMPULSE_BUFFER ENCODED_IMPULSE_VALUE only_element
     side_inputs_of grpc_payload).
Local Abbreviation _enqueue_stage_initial_inputs :=
  (FnApiRunnerExecutionContext._enqueue_stage_initial_inputs DataInput_bool
     DATA_INPUT_URN DATA_OUTPUT_URN PAR_DO_URNS IMPULSE_BUFFER
     ENCODED_IMPULSE_VALUE MAX_TIMESTAMP only_element side_inputs_of
     grpc_payload).
Local Abbreviation is_impulse_read :=
  (FnApiRunnerExecutionContext.is_impulse_read DATA_INPUT_URN IMPULSE_BUFFER).
Local Abbreviation declares_side_inputs :=
  (FnApiRunnerExecutionContext.declares_side_inputs PAR_DO_URNS
     side_inputs_of).
Local Abbreviation initial_inputs_of :=
  (FnApiRunnerExecutionContext.initial_inputs_of DATA_INPUT_URN IMPULSE_BUFFER
     ENCODED_IMPULSE_VALUE).

Implicit Types (self : FnApiRunnerExecutionContext.FnApiRunnerExecutionContext V)
  (t : PTransform) (data_input : list (string * Buffer V)).

(** What one iteration does to [data_input] and [ready_to_schedule]. *)
Lemma visit_transform_effect self stage_name t data_input ready t' data_input'
    ready' :
  visit_transform self stage_name t (data_input, ready)
  = Ok (t', (data_input', ready')) →
  (is_impulse_read t ∧
     (∃ coder_impl,
        data_input'
        = dict_set (unique_name t)
            (BList (ListBuffer.mk coder_impl [ENCODED_IMPULSE_VALUE] None
                      false))
            data_input)
   ∨ ¬ is_impulse_read t ∧ data_input' = data_input)
  ∧ (declares_side_inputs t ∧ ready' = false
     ∨ ¬ declares_side_inputs t ∧ ready' = ready).
Proof.
  unfold FnApiRunnerExecutionContext.visit_transform,
    FnApiRunnerExecutionContext.is_impulse_read,
    FnApiRunnerExecutionContext.declares_side_inputs.
  case_bool_decide as Hdata.
  - assert (Hnot : urn (spec t) ∉ PAR_DO_URNS).
    { apply elem_of_cons in Hdata as [->|Hdata]; [assumption|].
      apply list_elem_of_singleton in Hdata as ->. assumption. }
    case_bool_decide as Hin.
    + destruct (only_element _) as [pcoll| |]; try discriminate.
      destruct (FnApiRunnerExecutionContext.getitem _ _) as [coder_id| |];
        try discriminate.
      destruct (FnApiRunnerExecutionContext.pipeline_context_coders _ _)
        as [coder_impl| |]; try discriminate.
      case_bool_decide as Himp; simpl;
        destruct (grpc_payload stage_name coder_id) as [p| |];
        try discriminate; intros [= <- <- <-].
      * split; [left; eauto | right; tauto].
      * split; right; tauto.
    + destruct (only_element _) as [pcoll| |]; try discriminate.
      destruct (FnApiRunnerExecutionContext.getitem _ _) as [coder_id| |];
        try discriminate.
      destruct (grpc_payload stage_name coder_id) as [p| |];
        try discriminate; intros [= <- <- <-].
      split; right; tauto.
  - assert (Hnot : ¬ (urn (spec t) = DATA_INPUT_URN
                      ∧ payload (spec t) = IMPULSE_BUFFER)).
    { intros [Hu _]. apply Hdata. rewrite Hu. left. }
    case_bool_decide as Hpardo.
    + destruct (side_inputs_of (payload (spec t))) as [side_inputs| |] eqn:Hsi;
        try discriminate.
      intros [= <- <- <-]. split; [right; auto|].
      destruct side_inputs as [|si side_inputs].
      * right. split; [|reflexivity]. intros (_ & sis & [= <-] & Hne).
        congruence.
      * left. split; [|reflexivity]. split; [exact Hpardo|].
        eexists. split; [reflexivity | discriminate].
    + intros [= <- <- <-]. split; right; tauto.
Qed.

(** What the whole loop computes when it completes. *)
Lemma visit_transforms_effect self stage_name ts data_input ready ts'
    data_input' ready' :
  visit_transforms self stage_name ts (data_input, ready)
  = (Ok (data_input', ready'), ts') →
  (data_input' = [] ↔ data_input = [] ∧ ∀ t, t ∈ ts → ¬ is_impulse_read t)
  ∧ (ready' = true ↔ ready = true ∧ ∀ t, t ∈ ts → ¬ declares_side_inputs t)
  ∧ (∀ t, t ∈ ts → is_impulse_read t →
          unique_name t ∈ dict_keys data_input')
  ∧ (∀ k, k ∈ dict_keys data_input → k ∈ dict_keys data_input')
  ∧ (∀ entry, entry ∈ data_input' →
        entry ∈ data_input
        ∨ ∃ t coder_impl,
            t ∈ ts ∧ is_impulse_read t ∧ entry.1 = unique_name t
            ∧ entry.2 = BList (ListBuffer.mk coder_impl
                                 [ENCODED_IMPULSE_VALUE] None false)).
Proof.
  revert data_input ready ts'.
  induction ts as [|t ts IH]; intros data_input ready ts';
    cbn [FnApiRunnerExecutionContext.visit_transforms].
  - intros [= <- <- <-]. repeat split; auto.
    + intros t Ht. inversion Ht.
    + tauto.
    + intros t Ht. inversion Ht.
    + tauto.
    + intros t Ht. inversion Ht.
  - destruct (visit_transform self stage_name t (data_input, ready))
      as [[t1 [data_input1 ready1]]| |] eqn:Hone; try discriminate.
    destruct (visit_transforms self stage_name ts (data_input1, ready1))
      as [r more'] eqn:Hmore.
    intros [= -> <-].
    destruct (IH _ _ _ Hmore) as (Hnil & Hready & Hkeys & Hmono & Hentries).
    destruct (visit_transform_effect _ _ _ _ _ _ _ _ Hone) as [Hd Hr].
    split; [|split; [|split; [|split]]].
    + rewrite Hnil. split.
      * intros [H1 Hno]. destruct Hd as [[_ [c ->]]|[Hnimp ->]].
        -- exfalso. exact (dict_set_not_nil _ _ _ H1).
        -- split; [exact H1|]. intros t0 Ht0.
           apply elem_of_cons in Ht0 as [->|Ht0]; auto.
      * intros [-> Hno]. destruct Hd as [[Himp _]|[_ ->]].
        -- exfalso. apply (Hno t); [left | exact Himp].
        -- split; [reflexivity|]. intros t0 Ht0. apply Hno. right. exact Ht0.
    + rewrite Hready. split.
      * intros [H1 Hno]. destruct Hr as [[_ ->]|[Hnd ->]]; [discriminate|].
        split; [exact H1|]. intros t0 Ht0.
        apply elem_of_cons in Ht0 as [->|Ht0]; auto.
      * intros [-> Hno]. destruct Hr as [[Hdecl _]|[_ ->]].
        -- exfalso. apply (Hno t); [left | exact Hdecl].
        -- split; [reflexivity|]. intros t0 Ht0. apply Hno. right. exact Ht0.
    + intros t0 Ht0 Himp0. apply elem_of_cons in Ht0 as [->|Ht0].
      * apply Hmono. destruct Hd as [[_ [c ->]]|[Hnimp _]];
          [apply dict_set_key | contradiction].
      * apply Hkeys; assumption.
    + intros k Hk. apply Hmono.
      destruct Hd as [[_ [c ->]]|[_ ->]]; [apply dict_set_keys|]; exact Hk.
    + intros entry Hentry. destruct (Hentries entry Hentry) as [Hin|Hnew].
      * destruct Hd as [[Himp [c ->]]|[_ ->]]; [|left; exact Hin].
        apply dict_set_elem in Hin as [->|Hin]; [|left; exact Hin].
        right. exists t, c. repeat split; [left | apply Himp..].
      * right. destruct Hnew as (t0 & c & Ht0 & Himp0 & He1 & He2).
        exists t0, c. repeat split; auto; [right; exact Ht0 | apply Himp0..].
Qed.


(** The loop completes when every iteration does. *)
Lemma visit_transforms_returns self stage_name ts acc :
  (∀ t acc', t ∈ ts → is_Ok (visit_transform self stage_name t acc') = true) →
  is_Ok (visit_transforms self stage_name ts acc).1 = true.
Proof.
  revert acc. induction ts as [|t ts IH]; intros acc Hall;
    cbn [FnApiRunnerExecutionContext.visit_transforms]; [reflexivity|].
  pose proof (Hall t acc ltac:(left)) as Hone.
  destruct (visit_transform self stage_name t acc) as [[t' acc']| |];
    try discriminate.
  specialize (IH acc' (fun t0 a Ht0 => Hall t0 a ltac:(right; exact Ht0))).
  destruct (visit_transforms self stage_name ts acc') as [r more]. exact IH.
Qed.

End EnqueueInitialInputs.


(** ** Safe windowing strategies *)

Section Strings.

Lemma string_app_assoc (s1 s2 s3 : string) :
  (s1 +:+ s2) +:+ s3 = s1 +:+ (s2 +:+ s3).
Proof.
  induction s1 as [|a s1 IH]; [reflexivity|].
  change (String a ((s1 +:+ s2) +:+ s3) = String a (s1 +:+ (s2 +:+ s3))).
  f_equal. exact IH.
Qed.

Lemma string_length_app (s1 s2 : string) :
  String.length (s1 +:+ s2) = (String.length s1 + String.length s2)%nat.
Proof.
  induction s1 as [|a s1 IH]; [reflexivity|].
  change (S (String.length (s1 +:+ s2))
          = S (String.length s1 + String.length s2)).
  f_equal. exact IH.
Qed.

Lemma underscores_length k : String.length (underscores k) = k.
Proof.
  induction k as [|k IH]; [reflexivity|].
  change (S (String.length (underscores k)) = S k). f_equal. exact IH.
Qed.

Lemma string_app_empty (s : string) : s +:+ "" = s.
Proof.
  induction s as [|a s IH]; [reflexivity|].
  change (String a (s +:+ "") = String a s). f_equal. exact IH.
Qed.

Lemma underscores_inj (s : string) k1 k2 :
  s +:+ underscores k1 = s +:+ underscores k2 → k1 = k2.
Proof.
  intros Heq. apply (f_equal String.length) in Heq.
  rewrite !string_length_app, !underscores_length in Heq. lia.
Qed.

End Strings.

Section FreeSafeId.
Implicit Types (ws : gmap string WindowingStrategy) (s : string).

Lemma free_safe_id_Ok fuel ws s r :
  FnApiRunnerExecutionContext.free_safe_id fuel ws s = Ok r →
  ws !! r = None ∧ ∃ k, r = s +:+ underscores k.
Proof.
  revert s. induction fuel as [|fuel IH]; intros s; simpl;
    destruct (ws !! s) eqn:Hs; try discriminate.
  - intros [= <-]. split; [exact Hs|]. exists O.
    simpl. symmetry. apply string_app_empty.
  - intros Hrec. destruct (IH _ Hrec) as [Hnone [k ->]].
    split; [exact Hnone|]. exists (S k). apply string_app_assoc.
  - intros [= <-]. split; [exact Hs|]. exists O.
    simpl. symmetry. apply string_app_empty.
Qed.

Lemma free_safe_id_not_Raise fuel ws s e :
  FnApiRunnerExecutionContext.free_safe_id fuel ws s ≠ Raise e.
Proof.
  revert s. induction fuel as [|fuel IH]; intros s; simpl;
    destruct (ws !! s); try discriminate. apply IH.
Qed.

(** The loop gives up only when every candidate it tried is taken. *)
Lemma free_safe_id_Diverge fuel ws s :
  FnApiRunnerExecutionContext.free_safe_id fuel ws s = Diverge →
  ∀ k, (k ≤ fuel)%nat → is_Some (ws !! (s +:+ underscores k)).
Proof.
  revert s. induction fuel as [|fuel IH]; intros s; simpl;
    destruct (ws !! s) eqn:Hs; try discriminate.
  - intros _ k Hk. assert (k = O) as -> by lia. simpl.
    rewrite string_app_empty, Hs. eauto.
  - intros Hrec [|k] Hk.
    + simpl. rewrite string_app_empty, Hs. eauto.
    + simpl. rewrite <- string_app_assoc. apply (IH _ Hrec). lia.
Qed.

(** A table of [size ws] strategies cannot hold [size ws + 1] different
    candidates, so the loop finds a free id. *)
Lemma free_safe_id_returns ws s :
  ∃ r, FnApiRunnerExecutionContext.free_safe_id (size ws) ws s = Ok r.
Proof.
  destruct (FnApiRunnerExecutionContext.free_safe_id (size ws) ws s)
    as [r|e|] eqn:Hrun; [eauto | |].
  - exfalso. exact (free_safe_id_not_Raise _ _ _ _ Hrun).
  - exfalso. pose proof (free_safe_id_Diverge _ _ _ Hrun) as Htaken.
    set (candidates := (fun k => s +:+ underscores k) <$> seq 0 (S (size ws))).
    assert (Hnd : NoDup candidates).
    { apply NoDup_fmap_2; [|apply NoDup_seq].
      intros k1 k2. apply underscores_inj. }
    assert (Hsub : list_to_set candidates ⊆ dom ws).
    { intros c Hc. apply elem_of_list_to_set in Hc.
      apply list_elem_of_fmap in Hc as (k & -> & Hk).
      apply elem_of_seq in Hk. apply elem_of_dom, Htaken. lia. }
    apply subseteq_size in Hsub.
    rewrite size_list_to_set, size_dom in Hsub by exact Hnd.
    unfold candidates in Hsub. rewrite length_fmap, length_seq in Hsub. lia.
Qed.

End FreeSafeId.

Section SafeWindowingStrategies.
Context {V : Type}.
Variable known_urns : list string.
Variable PICKLED_WINDOWFN : string.
Variable uuid4_hex : nat -> string.

Local Abbreviation SAFE_WINDOW_FNS :=
  (FnApiRunnerExecutionContext.SAFE_WINDOW_FNS known_urns PICKLED_WINDOWFN).
Local Abbreviation _make_safe_windowing_strategy :=
  (FnApiRunnerExecutionContext._make_safe_windowing_strategy (V := V)
     known_urns PICKLED_WINDOWFN uuid4_hex).
Local Abbreviation make_safe_windowing_strategies :=
  (FnApiRunnerExecutionContext.make_safe_windowing_strategies (V := V)
     known_urns PICKLED_WINDOWFN uuid4_hex).
Local Abbreviation components :=
  FnApiRunnerExecutionContext.pipeline_components_windowing_strategies.
Local Abbreviation registered :=
  FnApiRunnerExecutionContext.pipeline_context_windowing_strategies.

Implicit Types
  (self : FnApiRunnerExecutionContext.FnApiRunnerExecutionContext V)
  (id safe_id : string) (proto : WindowingStrategy).

Lemma safe_id_differs id k : (id +:+ "_safe") +:+ underscores k ≠ id.
Proof.
  intros Heq. apply (f_equal String.length) in Heq.
  rewrite !string_length_app, underscores_length in Heq. simpl in Heq. lia.
Qed.

(** The three outcomes of one call. *)
Lemma make_safe_windowing_strategy_cases id self proto :
  components self !! id = Some proto →
  (urn (window_fn proto) ∈ SAFE_WINDOW_FNS →
   _make_safe_windowing_strategy id self = (Ok id, self))
  ∧ (urn (window_fn proto) ∉ SAFE_WINDOW_FNS →
     merge_status proto = NON_MERGING ∨ merge_status proto = NEEDS_MERGE →
     ∃ safe_id safe_proto,
       (_make_safe_windowing_strategy id self).1 = Ok safe_id
       ∧ safe_id ≠ id
       ∧ components self !! safe_id = None
       ∧ components (_make_safe_windowing_strategy id self).2
         = components self
       ∧ registered (_make_safe_windowing_strategy id self).2
         = <[safe_id := safe_proto]> (registered self)
       ∧ references_generic_adapter safe_proto)
  ∧ (urn (window_fn proto) ∉ SAFE_WINDOW_FNS →
     merge_status proto = UNSPECIFIED ∨ merge_status proto = ALREADY_MERGED →
     _make_safe_windowing_strategy id self
     = (Raise (NotImplementedError "Unsupported merging strategy"), self)).
Proof.
  intros Hid.
  unfold FnApiRunnerExecutionContext._make_safe_windowing_strategy.
  rewrite Hid. split; [|split].
  - intros Hsafe. rewrite bool_decide_eq_true_2 by exact Hsafe. reflexivity.
  - intros Hunsafe Hstatus.
    rewrite bool_decide_eq_false_2 by exact Hunsafe.
    destruct (free_safe_id_returns (components self) (id +:+ "_safe"))
      as [safe_id Hfree].
    rewrite Hfree.
    destruct (free_safe_id_Ok _ _ _ _ Hfree) as [Hnone [k ->]].
    destruct Hstatus as [-> | ->]; simpl;
      eexists _, _; (split; [reflexivity|]);
      (split; [apply safe_id_differs|]); (split; [exact Hnone|]);
      (split; [reflexivity|]); (split; [reflexivity|]).
    + left. reflexivity.
    + right. reflexivity.
  - intros Hunsafe Hstatus.
    rewrite bool_decide_eq_false_2 by exact Hunsafe.
    destruct (free_safe_id_returns (components self) (id +:+ "_safe"))
      as [safe_id ->].
    destruct Hstatus as [-> | ->]; reflexivity.
Qed.

(** One call leaves the strategies of the pipeline alone and keeps every
    adapter strategy registered so far registered. *)
Lemma make_safe_windowing_strategy_frame id self :
  components (_make_safe_windowing_strategy id self).2 = components self
  ∧ ∀ s, (∃ p, registered self !! s = Some p ∧ references_generic_adapter p) →
         ∃ p, registered (_make_safe_windowing_strategy id self).2 !! s
              = Some p
              ∧ references_generic_adapter p.
Proof.
  destruct (components self !! id) as [proto|] eqn:Hid.
  - destruct (make_safe_windowing_strategy_cases id self proto Hid)
      as (Hsafe & Hrewrite & Hraise).
    destruct (decide (urn (window_fn proto) ∈ SAFE_WINDOW_FNS))
      as [Hin|Hnotin].
    + rewrite (Hsafe Hin). auto.
    + destruct (merge_status proto) eqn:Hstatus.
      * rewrite (Hraise Hnotin (or_introl eq_refl)). auto.
      * destruct (Hrewrite Hnotin (or_introl eq_refl))
          as (safe_id & safe_proto & _ & _ & _ & Hc & Hr & Had).
        split; [exact Hc|]. intros s (p & Hp & Hpa). rewrite Hr.
        destruct (decide (safe_id = s)) as [->|Hne].
        -- rewrite lookup_insert_eq. eauto.
        -- rewrite lookup_insert_ne by exact Hne. eauto.
      * destruct (Hrewrite Hnotin (or_intror eq_refl))
          as (safe_id & safe_proto & _ & _ & _ & Hc & Hr & Had).
        split; [exact Hc|]. intros s (p & Hp & Hpa). rewrite Hr.
        destruct (decide (safe_id = s)) as [->|Hne].
        -- rewrite lookup_insert_eq. eauto.
        -- rewrite lookup_insert_ne by exact Hne. eauto.
      * rewrite (Hraise Hnotin (or_intror eq_refl)). auto.
  - unfold FnApiRunnerExecutionContext._make_safe_windowing_strategy.
    rewrite Hid. auto.
Qed.

Lemma safe_strategy_for_frame id self self' s :
  components self' = components self →
  (∀ s', (∃ p, registered self !! s' = Some p
               ∧ references_generic_adapter p) →
         ∃ p, registered self' !! s' = Some p
              ∧ references_generic_adapter p) →
  safe_strategy_for SAFE_WINDOW_FNS self id s →
  safe_strategy_for SAFE_WINDOW_FNS self' id s.
Proof.
  intros Hc Hr (proto & Hid & Hcase). exists proto. rewrite Hc.
  split; [exact Hid|].
  destruct Hcase as [Hsafe|(Hunsafe & Hstatus & Hne & Hnone & Hreg)];
    [left; exact Hsafe|].
  right. repeat split; auto.
Qed.

(** A call that returns gives an acceptable answer. *)
Lemma make_safe_windowing_strategy_Ok id self s self' :
  _make_safe_windowing_strategy id self = (Ok s, self') →
  safe_strategy_for SAFE_WINDOW_FNS self' id s.
Proof.
  intros Hrun.
  destruct (components self !! id) as [proto|] eqn:Hid.
  - destruct (make_safe_windowing_strategy_cases id self proto Hid)
      as (Hsafe & Hrewrite & Hraise).
    destruct (decide (urn (window_fn proto) ∈ SAFE_WINDOW_FNS))
      as [Hin|Hnotin].
    + rewrite (Hsafe Hin) in Hrun. injection Hrun as <- <-.
      exists proto. split; [exact Hid|]. left. auto.
    + assert (Hstatus : merge_status proto = NON_MERGING
                        ∨ merge_status proto = NEEDS_MERGE).
      { destruct (merge_status proto) eqn:Hs; auto.
        - rewrite (Hraise Hnotin (or_introl eq_refl)) in Hrun.
          discriminate Hrun.
        - rewrite (Hraise Hnotin (or_intror eq_refl)) in Hrun.
          discriminate Hrun. }
      destruct (Hrewrite Hnotin Hstatus)
        as (safe_id & safe_proto & Hres & Hne & Hnone & Hc & Hr & Had).
      rewrite Hrun in Hres, Hc, Hr. simpl in Hres, Hc, Hr.
      injection Hres as ->.
      exists proto. rewrite Hc. split; [exact Hid|]. right.
      repeat split; auto. exists safe_proto. rewrite Hr, lookup_insert_eq.
      auto.
  - unfold FnApiRunnerExecutionContext._make_safe_windowing_strategy in Hrun.
    rewrite Hid in Hrun. discriminate Hrun.
Qed.

(** Every entry of the table filled at construction is an acceptable
    answer in the context as construction leaves it. *)
Lemma make_safe_windowing_strategies_entries ids self table self' :
  make_safe_windowing_strategies ids self = (Ok table, self') →
  map fst table = ids
  ∧ components self' = components self
  ∧ (∀ s', (∃ p, registered self !! s' = Some p
                 ∧ references_generic_adapter p) →
           ∃ p, registered self' !! s' = Some p
                ∧ references_generic_adapter p)
  ∧ ∀ id s, (id, s) ∈ table → safe_strategy_for SAFE_WINDOW_FNS self' id s.
Proof.
  revert self table self'.
  induction ids as [|id ids IH]; intros self table self';
    cbn [FnApiRunnerExecutionContext.make_safe_windowing_strategies].
  - intros [= <- <-]. repeat split; auto. intros id s Hin. inversion Hin.
  - destruct (_make_safe_windowing_strategy id self) as [[s| |] self1]
      eqn:Hone; try discriminate.
    destruct (make_safe_windowing_strategies ids self1)
      as [[entries| |] self2] eqn:Hmore; try discriminate.
    intros [= <- <-].
    destruct (IH _ _ _ Hmore) as (Hkeys & Hc & Hr & Hentries).
    pose proof (make_safe_windowing_strategy_frame id self) as [Hc1 Hr1].
    rewrite Hone in Hc1, Hr1. simpl in Hc1, Hr1.
    split; [simpl; rewrite Hkeys; reflexivity|].
    split; [congruence|]. split; [auto|].
    intros id' s' Hin. apply elem_of_cons in Hin as [[= -> ->]|Hin].
    + apply (safe_strategy_for_frame _ self1); auto.
      apply (make_safe_windowing_strategy_Ok _ self). exact Hone.
    + apply Hentries. exact Hin.
Qed.

Lemma dict_get_fst (table : list (string * string)) id :
  id ∈ map fst table →
  ∃ s, dict_get id table = Some s ∧ (id, s) ∈ table.
Proof.
  induction table as [|[j s] table IH]; simpl; [intros Hin; inversion Hin|].
  intros Hin. destruct (decide (j = id)) as [->|Hne].
  - exists s. split; [reflexivity | left].
  - apply elem_of_cons in Hin as [->|Hin]; [congruence|].
    destruct (IH Hin) as (s' & Hget & Hs'). exists s'.
    split; [exact Hget | right; exact Hs'].
Qed.

(** C7.  For an id of the pipeline's windowing strategies:
    - when the URN of its window function is in the safe set, the
      canonicalizer returns the id and changes nothing;
    - otherwise, when its merge status is [NON_MERGING] or [NEEDS_MERGE],
      it returns another id, free among the strategies of the pipeline,
      under which it has registered a strategy that references one of the
      two generic adapters;
    - otherwise (any other merge status) it raises [NotImplementedError].
    When the table [safe_windowing_strategies] has been filled at
    construction, looking an id of the pipeline up in it returns such an
    answer, and the lookup is a function of the table and the id alone. *)
Theorem make_safe_windowing_strategy_canonical id self proto :
  components self !! id = Some proto →
  ((urn (window_fn proto) ∈ SAFE_WINDOW_FNS →
    _make_safe_windowing_strategy id self = (Ok id, self))
   ∧ (urn (window_fn proto) ∉ SAFE_WINDOW_FNS →
      merge_status proto = NON_MERGING ∨ merge_status proto = NEEDS_MERGE →
      ∃ safe_id safe_proto,
        (_make_safe_windowing_strategy id self).1 = Ok safe_id
        ∧ safe_id ≠ id
        ∧ components self !! safe_id = None
        ∧ registered (_make_safe_windowing_strategy id self).2 !! safe_id
          = Some safe_proto
        ∧ references_generic_adapter safe_proto)
   ∧ (urn (window_fn proto) ∉ SAFE_WINDOW_FNS →
      merge_status proto = UNSPECIFIED ∨ merge_status proto = ALREADY_MERGED →
      _make_safe_windowing_strategy id self
      = (Raise (NotImplementedError "Unsupported merging strategy"), self)))
  ∧ (∀ ids table self',
       make_safe_windowing_strategies ids self = (Ok table, self') →
       id ∈ ids →
       ∃ s,
         FnApiRunnerExecutionContext.safe_windowing_strategy table id = Ok s
         ∧ safe_strategy_for SAFE_WINDOW_FNS self' id s).
Proof.
  intros Hid. split.
  - destruct (make_safe_windowing_strategy_cases id self proto Hid)
      as (Hsafe & Hrewrite & Hraise).
    split; [exact Hsafe|]. split; [|exact Hraise].
    intros Hunsafe Hstatus.
    destruct (Hrewrite Hunsafe Hstatus)
      as (safe_id & safe_proto & Hres & Hne & Hnone & _ & Hr & Had).
    exists safe_id, safe_proto. rewrite Hr, lookup_insert_eq. auto.
  - intros ids table self' Hinit Hin.
    destruct (make_safe_windowing_strategies_entries _ _ _ _ Hinit)
      as (Hkeys & _ & _ & Hentries).
    rewrite <- Hkeys in Hin.
    destruct (dict_get_fst table id Hin) as (s & Hget & Hs).
    exists s. unfold FnApiRunnerExecutionContext.safe_windowing_strategy.
    rewrite Hget. split; [reflexivity|]. apply Hentries. exact Hs.
Qed.

End SafeWindowingStrategies.

Lemma Samples_custom_not_safe :
  "custom:windowfn"%string
  ∉ FnApiRunnerExecutionContext.SAFE_WINDOW_FNS Samples.known_urns
      Samples.PICKLED_WINDOWFN.
Proof.
  intros Hin. apply list_elem_of_In in Hin. vm_compute in Hin.
  destruct Hin as [Hin|[]]. discriminate Hin.
Qed.

Lemma make_safe_windowing_strategy_canonical_witness :
  let self := Samples.context_with Samples.strategies in
  Samples.make_safe "global" self = (Ok "global"%string, self)
  ∧ (Samples.make_safe "w" self).1 = Ok "w_safe_"%string
  ∧ (Samples.make_safe "m" self).1 = Ok "m_safe"%string
  ∧ (∃ safe_id safe_proto,
       (Samples.make_safe "w" self).1 = Ok safe_id
       ∧ safe_id ≠ "w"%string
       ∧ Samples.strategies !! safe_id = None
       ∧ FnApiRunnerExecutionContext.pipeline_context_windowing_strategies
           (Samples.make_safe "w" self).2 !! safe_id = Some safe_proto
       ∧ references_generic_adapter safe_proto)
  ∧ (∀ table self',
       FnApiRunnerExecutionContext.make_safe_windowing_strategies
         Samples.known_urns Samples.PICKLED_WINDOWFN Samples.uuid4_hex
         ["global"%string; "w"%string; "m"%string] self = (Ok table, self') →
       ∃ s,
         FnApiRunnerExecutionContext.safe_windowing_strategy table "w" = Ok s
         ∧ safe_strategy_for
             (FnApiRunnerExecutionContext.SAFE_WINDOW_FNS Samples.known_urns
                Samples.PICKLED_WINDOWFN) self' "w" s).
Proof.
  cbv zeta.
  pose proof (make_safe_windowing_strategy_canonical (V := Samples.pyval)
                Samples.known_urns Samples.PICKLED_WINDOWFN Samples.uuid4_hex
                "w" (Samples.context_with Samples.strategies)
                (Samples.custom_strategy NON_MERGING) eq_refl)
    as ((_ & Hrewrite & _) & Hmemo).
  split; [reflexivity|]. split; [reflexivity|]. split; [reflexivity|].
  split.
  - exact (Hrewrite Samples_custom_not_safe (or_introl eq_refl)).
  - intros table self' Hinit. apply (Hmemo _ _ _ Hinit). right. left.
Defined.

(** A custom window function whose strategy is already merged: the
    canonicalizer returns no safe id, it raises. *)
Lemma make_safe_windowing_strategy_unsupported_merge_status :
  let self :=
    Samples.context_with
      {["w"%string := Samples.custom_strategy ALREADY_MERGED]} in
  FnApiRunnerExecutionContext.pipeline_components_windowing_strategies self
    !! "w"%string = Some (Samples.custom_strategy ALREADY_MERGED)
  ∧ (urn (window_fn (Samples.custom_strategy ALREADY_MERGED))
     ∉ FnApiRunnerExecutionContext.SAFE_WINDOW_FNS Samples.known_urns
         Samples.PICKLED_WINDOWFN)
  ∧ Samples.make_safe "w" self
    = (Raise (NotImplementedError "Unsupported merging strategy"), self)
  ∧ ¬ ∃ safe_id, (Samples.make_safe "w" self).1 = Ok safe_id.
Proof.
  cbv zeta. split; [reflexivity|]. split; [exact Samples_custom_not_safe|].
  assert (Hrun : Samples.make_safe "w"
                   (Samples.context_with
                      {["w"%string := Samples.custom_strategy ALREADY_MERGED]})
                 = (Raise (NotImplementedError "Unsupported merging strategy"),
                    Samples.context_with
                      {["w"%string :=
                          Samples.custom_strategy ALREADY_MERGED]}))
    by reflexivity.
  split; [exact Hrun|]. rewrite Hrun. intros [safe_id Hs]. discriminate Hs.
Qed.

(** * Further properties *)

(** ** Slices and the round-robin split of ListBuffer.partition *)

Section SliceIndex.
Context {A : Type}.
Implicit Types (l : list A).

(** [l[k::n]] at position [j] is [l] at position [k + j * n]. *)
Lemma slice_from_step_lookup l k n j :
  (0 < n)%nat →
  slice_from_step k n l !! j = l !! (k + j * n)%nat.
Proof.
  intros Hn. revert k j. induction l as [|x t IH]; intros k j.
  - rewrite !lookup_nil. reflexivity.
  - destruct k as [|k']; simpl.
    + destruct j as [|j']; simpl; [reflexivity|].
      rewrite IH. destruct n as [|m]; [lia|]. simpl. reflexivity.
    + apply IH.
Qed.

Lemma slice_from_step_length_bounds l k n :
  (0 < n)%nat →
  (length l ≤ k + length (slice_from_step k n l) * n)%nat
  ∧ ∀ j, (j < length (slice_from_step k n l))%nat → (k + j * n < length l)%nat.
Proof.
  intros Hn. split.
  - apply lookup_ge_None. rewrite <- slice_from_step_lookup by exact Hn.
    apply lookup_ge_None. lia.
  - intros j Hj. apply lookup_lt_is_Some.
    rewrite <- slice_from_step_lookup by exact Hn.
    apply lookup_lt_is_Some. exact Hj.
Qed.

(** Two slices with the same step and starts below the step differ in
    length by at most one. *)
Lemma slice_from_step_balanced l k1 k2 n :
  (k1 < n)%nat → (k2 < n)%nat →
  (length (slice_from_step k1 n l) ≤ S (length (slice_from_step k2 n l)))%nat.
Proof.
  intros Hk1 Hk2. assert (Hn : (0 < n)%nat) by lia.
  destruct (slice_from_step_length_bounds l k1 n Hn) as [_ Hin1].
  destruct (slice_from_step_length_bounds l k2 n Hn) as [Hout2 _].
  destruct (le_lt_dec (length (slice_from_step k1 n l))
              (S (length (slice_from_step k2 n l)))) as [Hle|Hgt];
    [exact Hle|].
  exfalso.
  specialize (Hin1 (S (length (slice_from_step k2 n l))) Hgt).
  simpl in Hin1. lia.
Qed.

End SliceIndex.

Section ListBufferRoundRobin.
Context {V : Type}.
Implicit Types (b : ListBuffer.ListBuffer V).

(** X1.  On a buffer that is not cleared and holds at least [n >= 1]
    records, [partition(n)] returns [n] shards and leaves the buffer as it
    is; record number [j] of shard number [k] is record number [k + j * n]
    of the buffer, so each shard lists every [n]-th record in insertion
    order. *)
Theorem ListBuffer_partition_round_robin_positions n b :
  1 ≤ n →
  ListBuffer.cleared b = false →
  n ≤ Z.of_nat (length (ListBuffer._inputs b)) →
  ∃ shards,
    ListBuffer.partition n b = (Ok shards, b)
    ∧ length shards = Z.to_nat n
    ∧ ∀ k shard, shards !! k = Some shard →
        ∀ j, shard !! j = ListBuffer._inputs b !! (k + j * Z.to_nat n)%nat.
Proof.
  intros Hn Hcl Hlen. unfold ListBuffer.partition. rewrite Hcl.
  assert (Hcond : (Z.of_nat (length (ListBuffer._inputs b)) >=? n) = true)
    by (rewrite Z.geb_leb; apply Z.leb_le; exact Hlen).
  rewrite Hcond. simpl. eexists. split; [reflexivity|].
  split; [rewrite length_map, length_seq; reflexivity|].
  intros k shard Hk j.
  change (map ?f ?l) with (f <$> l) in Hk.
  rewrite list_lookup_fmap in Hk.
  destruct (seq 0 (Z.to_nat n) !! k) as [k'|] eqn:Hseq; [|discriminate].
  apply lookup_seq in Hseq as [-> _]. simpl in Hk. injection Hk as <-.
  apply slice_from_step_lookup. lia.
Qed.

(** X2.  In the same situation no shard is empty and the sizes of any two
    shards differ by at most one. *)
Theorem ListBuffer_partition_round_robin_balanced n b :
  1 ≤ n →
  ListBuffer.cleared b = false →
  n ≤ Z.of_nat (length (ListBuffer._inputs b)) →
  ∃ shards,
    ListBuffer.partition n b = (Ok shards, b)
    ∧ (∀ shard, shard ∈ shards → shard ≠ [])
    ∧ (∀ shard1 shard2, shard1 ∈ shards → shard2 ∈ shards →
         (length shard1 ≤ S (length shard2))%nat).
Proof.
  intros Hn Hcl Hlen. unfold ListBuffer.partition. rewrite Hcl.
  assert (Hcond : (Z.of_nat (length (ListBuffer._inputs b)) >=? n) = true)
    by (rewrite Z.geb_leb; apply Z.leb_le; exact Hlen).
  rewrite Hcond. simpl. eexists. split; [reflexivity|].
  assert (Hshard : ∀ shard,
            shard ∈ map (fun k => slice_from_step k (Z.to_nat n)
                                    (ListBuffer._inputs b))
                        (seq 0 (Z.to_nat n)) →
            ∃ k, (k < Z.to_nat n)%nat
                 ∧ shard = slice_from_step k (Z.to_nat n)
                             (ListBuffer._inputs b)).
  { intros shard Hin. change (map ?f ?l) with (f <$> l) in Hin.
    apply list_elem_of_fmap in Hin as (k & -> & Hk).
    apply elem_of_seq in Hk. exists k. split; [lia | reflexivity]. }
  split.
  - intros shard Hin Hnil. destruct (Hshard shard Hin) as (k & Hk & ->).
    assert (Hsome : is_Some (ListBuffer._inputs b !! (k + 0 * Z.to_nat n)%nat))
      by (apply lookup_lt_is_Some; lia).
    rewrite <- slice_from_step_lookup in Hsome by lia.
    rewrite Hnil in Hsome. destruct Hsome as [x Hx]. discriminate Hx.
  - intros shard1 shard2 Hin1 Hin2.
    destruct (Hshard shard1 Hin1) as (k1 & Hk1 & ->).
    destruct (Hshard shard2 Hin2) as (k2 & Hk2 & ->).
    apply slice_from_step_balanced; assumption.
Qed.

(** X3.  A [partition] that raises, or that does not come back, leaves the
    buffer exactly as it was: the grouped output is assigned only once the
    last record has been re-encoded. *)
Theorem ListBuffer_partition_failure_atomic n b r b' :
  ListBuffer.partition n b = (r, b') →
  is_Ok r = false →
  b' = b.
Proof.
  unfold ListBuffer.partition.
  destruct (ListBuffer.cleared b); [intros [= <- <-]; reflexivity|].
  destruct (_ || _); [intros [= <- <-]; discriminate|].
  destruct (negb _); [|intros [= <- <-]; discriminate].
  destruct (ListBuffer.redistribute _ _ _ _) as [[streams idx]| |];
    intros [= <- <-]; try discriminate; reflexivity.
Qed.

(** X4.  A count [n <= 0] is not rejected: on a buffer that is not cleared
    [partition(n)] returns the empty list of shards and leaves the buffer
    as it is. *)
Theorem ListBuffer_partition_nonpositive n b :
  n ≤ 0 →
  ListBuffer.cleared b = false →
  ListBuffer.partition n b = (Ok [], b).
Proof.
  intros Hn Hcl. unfold ListBuffer.partition. rewrite Hcl.
  assert (Hcond : (Z.of_nat (length (ListBuffer._inputs b)) >=? n) = true)
    by (rewrite Z.geb_leb; apply Z.leb_le; lia).
  rewrite Hcond. simpl. replace (Z.to_nat n) with O by lia. reflexivity.
Qed.

(** X5.  Once the redistribution pass has cached its shards, any later
    [partition(m)] with [m] above the record count returns those same
    shards, whatever [m] is: the buffer is not split again for another
    count. *)
Theorem ListBuffer_partition_cached_for_other_counts n m b shards b' :
  ListBuffer_consistent b →
  Z.of_nat (length (ListBuffer._inputs b)) < n →
  ListBuffer._inputs b ≠ [] →
  ListBuffer.partition n b = (Ok shards, b') →
  Z.of_nat (length (ListBuffer._inputs b)) < m →
  ListBuffer.partition m b' = (Ok shards, b').
Proof.
  intros Hb Hlt Hne Hrun Hm.
  assert (Hpath : ∀ k, Z.of_nat (length (ListBuffer._inputs b)) < k →
            (Z.of_nat (length (ListBuffer._inputs b)) >=? k)
            || (length (ListBuffer._inputs b) =? 0)%nat = false).
  { intros k Hk. apply orb_false_iff. split.
    - rewrite Z.geb_leb. apply Z.leb_gt. exact Hk.
    - apply Nat.eqb_neq. destruct (ListBuffer._inputs b); simpl; congruence. }
  pose proof (ListBuffer_partition_consistent n b Hb) as Hb'.
  rewrite Hrun in Hb'. simpl in Hb'.
  revert Hrun. unfold ListBuffer.partition.
  destruct (ListBuffer.cleared b) eqn:Hcl; [discriminate|].
  rewrite (Hpath n Hlt).
  destruct (truthy (ListBuffer._grouped_output b)) eqn:Ht; simpl.
  - intros [= <- <-]. rewrite Hcl, (Hpath m Hm), Ht. reflexivity.
  - destruct (ListBuffer.redistribute _ _ _ _) as [[streams idx]| |];
      try discriminate.
    intros [= <- <-]. simpl in *. rewrite (Hpath m Hm).
    destruct (ListBuffer_consistent_truthy _ Hb') as [Hnone|Htruthy];
      [discriminate Hnone|].
    simpl in Htruthy. rewrite Htruthy. reflexivity.
Qed.

(** X6.  [append] is refused with "append after read" exactly when the
    redistribution pass has run: after a [partition(n)] that took the
    round-robin split the buffer still accepts records, after one that
    redistributed it does not. *)
Theorem ListBuffer_append_after_partition n b shards b' element :
  1 ≤ n →
  ListBuffer_consistent b →
  ListBuffer._grouped_output b = None →
  ListBuffer.partition n b = (Ok shards, b') →
  (n ≤ Z.of_nat (length (ListBuffer._inputs b))
   ∨ ListBuffer._inputs b = [] →
   ListBuffer.append element b'
   = (Ok tt,
      ListBuffer.mk (ListBuffer._coder_impl b)
        (ListBuffer._inputs b ++ [element]) None false))
  ∧ (Z.of_nat (length (ListBuffer._inputs b)) < n →
     ListBuffer._inputs b ≠ [] →
     ListBuffer.append element b'
     = (Raise (RuntimeError "ListBuffer append after read."), b')).
Proof.
  intros Hn Hb Hnone Hrun.
  pose proof (ListBuffer_partition_consistent n b Hb) as Hb'.
  rewrite Hrun in Hb'. simpl in Hb'.
  revert Hrun. unfold ListBuffer.partition.
  destruct (ListBuffer.cleared b) eqn:Hcl; [discriminate|].
  destruct (_ || _) eqn:Hpath.
  - intros [= <- <-]. split.
    + intros _. unfold ListBuffer.append. rewrite Hcl, Hnone. reflexivity.
    + intros Hlt Hne. exfalso. apply orb_true_iff in Hpath as [Hge|Hz].
      * rewrite Z.geb_leb in Hge. apply Z.leb_le in Hge. lia.
      * apply Nat.eqb_eq in Hz. destruct (ListBuffer._inputs b);
          [congruence | discriminate].
  - rewrite Hnone. simpl.
    destruct (ListBuffer.redistribute _ _ _ _) as [[streams idx]| |];
      try discriminate.
    intros [= <- <-]. split.
    + intros Hor. exfalso. apply orb_false_iff in Hpath as [Hge Hz].
      rewrite Z.geb_leb in Hge. apply Z.leb_gt in Hge.
      apply Nat.eqb_neq in Hz. destruct Hor as [Hle|Hnil]; [lia|].
      rewrite Hnil in Hz. simpl in Hz. congruence.
    + intros _ _. unfold ListBuffer.append. simpl.
      destruct (ListBuffer_consistent_truthy _ Hb') as [Hnone'|Htruthy];
        [discriminate Hnone'|].
      simpl in Htruthy. rewrite Htruthy. reflexivity.
Qed.

End ListBufferRoundRobin.

Lemma ListBuffer_partition_round_robin_positions_witness :
  ∃ shards,
    ListBuffer.partition 3 MoreSamples.four_records
    = (Ok shards, MoreSamples.four_records)
    ∧ length shards = 3%nat
    ∧ ∀ k shard, shards !! k = Some shard →
        ∀ j, shard !! j
             = ListBuffer._inputs MoreSamples.four_records !! (k + j * 3)%nat.
Proof.
  apply (ListBuffer_partition_round_robin_positions 3
           MoreSamples.four_records); [lia | reflexivity | simpl; lia].
Defined.

Lemma ListBuffer_partition_round_robin_balanced_witness :
  ∃ shards,
    ListBuffer.partition 3 MoreSamples.four_records
    = (Ok shards, MoreSamples.four_records)
    ∧ (∀ shard, shard ∈ shards → shard ≠ [])
    ∧ (∀ shard1 shard2, shard1 ∈ shards → shard2 ∈ shards →
         (length shard1 ≤ S (length shard2))%nat).
Proof.
  apply (ListBuffer_partition_round_robin_balanced 3
           MoreSamples.four_records); [lia | reflexivity | simpl; lia].
Defined.

Lemma ListBuffer_partition_failure_atomic_witness :
  (ListBuffer.partition 2 MoreSamples.truncated_record).1
  = Raise (CoderError "end of stream")
  ∧ (ListBuffer.partition 2 MoreSamples.truncated_record).2
    = MoreSamples.truncated_record.
Proof.
  split; [reflexivity|].
  apply (ListBuffer_partition_failure_atomic 2 MoreSamples.truncated_record
           (Raise (CoderError "end of stream"))); reflexivity.
Defined.

Lemma ListBuffer_partition_nonpositive_witness :
  ListBuffer.partition 0 MoreSamples.four_records
  = (Ok [], MoreSamples.four_records)
  ∧ ListBuffer.partition (-2) MoreSamples.four_records
    = (Ok [], MoreSamples.four_records).
Proof.
  split.
  - apply ListBuffer_partition_nonpositive; [lia | reflexivity].
  - apply ListBuffer_partition_nonpositive; [lia | reflexivity].
Defined.

Lemma ListBuffer_partition_cached_for_other_counts_witness :
  let first := ListBuffer.partition 2 MoreSamples.one_record in
  first.1 = Ok [[["a"; "c"]]; [["b"]]]%byte
  ∧ ListBuffer.partition 5 first.2 = (Ok [[["a"; "c"]]; [["b"]]]%byte, first.2).
Proof.
  cbv zeta. split; [reflexivity|].
  apply (ListBuffer_partition_cached_for_other_counts 2 5
           MoreSamples.one_record _ _ I).
  - simpl. lia.
  - discriminate.
  - reflexivity.
  - simpl. lia.
Defined.

Lemma ListBuffer_append_after_partition_witness :
  ListBuffer.append ["z"]%byte
    (ListBuffer.partition 3 MoreSamples.four_records).2
  = (Ok tt,
     MoreSamples.records Samples.byte_coder
       [["a"]; ["b"]; ["c"]; ["d"; "e"]; ["z"]]%byte)
  ∧ ListBuffer.append ["z"]%byte
      (ListBuffer.partition 2 MoreSamples.one_record).2
    = (Raise (RuntimeError "ListBuffer append after read."),
       (ListBuffer.partition 2 MoreSamples.one_record).2).
Proof.
  split.
  - apply (ListBuffer_append_after_partition 3 MoreSamples.four_records
             _ _ ["z"]%byte ltac:(lia) I eq_refl eq_refl).
    left. simpl. lia.
  - apply (ListBuffer_append_after_partition 2 MoreSamples.one_record
             _ _ ["z"]%byte ltac:(lia) I eq_refl eq_refl).
    + simpl. lia.
    + discriminate.
Defined.

(** ** Redistribution deals the sub-elements round-robin *)

Section Deal.
Context {A : Type}.
Implicit Types (l : list A).

Lemma succ_mod a n :
  (0 < n)%nat →
  (S a mod n = if decide (a mod n = Nat.pred n) then 0 else S (a mod n))%nat.
Proof.
  intros Hn. pose proof (Nat.mod_upper_bound a n ltac:(lia)) as Hlt.
  replace (S a) with (a + 1)%nat by lia.
  rewrite <- Nat.Div0.add_mod_idemp_l.
  destruct (decide (a mod n = Nat.pred n)%nat) as [Heq|Hne].
  - rewrite Heq. replace (Nat.pred n + 1)%nat with n by lia.
    apply Nat.Div0.mod_same.
  - rewrite Nat.mod_small by lia. lia.
Qed.

Lemma slice_from_step_snoc l k n v :
  (k < n)%nat →
  slice_from_step k n (l ++ [v])
  = slice_from_step k n l
      ++ (if decide (length l mod n = k)%nat then [v] else []).
Proof.
  intros Hk. assert (Hn : (0 < n)%nat) by lia.
  revert k Hk. induction l as [|x t IH]; intros k Hk; simpl.
  - rewrite Nat.Div0.mod_0_l. destruct k; reflexivity.
  - rewrite (succ_mod (length t) n Hn). destruct k as [|k'].
    + rewrite IH by lia. simpl. do 2 f_equal.
      destruct (decide (length t mod n = Nat.pred n)%nat); reflexivity.
    + rewrite IH by lia. f_equal.
      destruct (decide (length t mod n = k')%nat) as [Heq|Hne].
      * destruct (decide (length t mod n = Nat.pred n)%nat); [lia|].
        rewrite Heq. destruct (decide (S k' = S k')); [reflexivity|lia].
      * destruct (decide (length t mod n = Nat.pred n)%nat).
        -- destruct (decide (0%nat = S k')); [lia | reflexivity].
        -- destruct (decide (S (length t mod n) = S k')%nat);
             [lia | reflexivity].
Qed.

Lemma deal_length n l : length (deal n l) = n.
Proof. unfold deal. rewrite length_map, length_seq. reflexivity. Qed.

Lemma deal_lookup n l k :
  (k < n)%nat → deal n l !! k = Some (slice_from_step k n l).
Proof.
  intros Hk. unfold deal. change (map ?f ?x) with (f <$> x).
  rewrite list_lookup_fmap, lookup_seq_lt by exact Hk. reflexivity.
Qed.

(** One more element goes to the slice whose number is the count of the
    elements dealt so far, modulo [n]. *)
Lemma deal_snoc n l v :
  (0 < n)%nat →
  deal n (l ++ [v])
  = alter (fun o => o ++ [v]) (length l mod n)%nat (deal n l).
Proof.
  intros Hn. apply list_eq. intros k.
  destruct (le_lt_dec n k) as [Hge|Hlt].
  - rewrite !(proj2 (lookup_ge_None _ _)); [reflexivity | |].
    + rewrite length_alter, deal_length. exact Hge.
    + rewrite deal_length. exact Hge.
  - rewrite deal_lookup by exact Hlt.
    destruct (decide (k = length l mod n)%nat) as [->|Hne].
    + rewrite list_lookup_alter_eq, deal_lookup by exact Hlt. simpl.
      rewrite slice_from_step_snoc by exact Hlt.
      destruct (decide (length l mod n = length l mod n)%nat); [reflexivity|].
      congruence.
    + rewrite list_lookup_alter_ne by congruence.
      rewrite deal_lookup by exact Hlt.
      rewrite slice_from_step_snoc by exact Hlt.
      destruct (decide (length l mod n = k)%nat); [congruence|].
      rewrite app_nil_r. reflexivity.
Qed.

Lemma deal_nil n : deal n (@nil A) = replicate n [].
Proof.
  apply list_eq. intros k. destruct (le_lt_dec n k) as [Hge|Hlt].
  - rewrite !(proj2 (lookup_ge_None _ _)); [reflexivity | |].
    + rewrite length_replicate. exact Hge.
    + rewrite deal_length. exact Hge.
  - rewrite deal_lookup by exact Hlt. symmetry.
    apply lookup_replicate. auto.
Qed.

End Deal.

Section RedistributionDeals.
Context {V : Type} (c : CoderImpl V).

Lemma redistribute_stream_deals n fuel input streams idx streams' idx' dealt :
  (0 < n)%nat →
  ListBuffer.redistribute_stream fuel c n input (streams, idx)
  = Ok (streams', idx') →
  Forall2 (fun s values => encodes c values s) streams (deal n dealt) →
  idx = (length dealt mod n)%nat →
  ∃ read,
    decode_stream fuel c input = Ok read
    ∧ Forall2 (fun s values => encodes c values s) streams'
        (deal n (dealt ++ read))
    ∧ idx' = (length (dealt ++ read) mod n)%nat.
Proof.
  intros Hn. revert input streams idx dealt.
  induction fuel as [|fuel IH]; intros input streams idx dealt;
    destruct input as [|b input]; simpl; try discriminate.
  - intros [= <- <-] HR ->. exists []. rewrite app_nil_r. auto.
  - intros [= <- <-] HR ->. exists []. rewrite app_nil_r. auto.
  - destruct (decode_from_stream c (b :: input)) as [[v rest]| |];
      try discriminate.
    destruct (encode_to_stream c v) as [written| |] eqn:Henc;
      try discriminate.
    destruct (length rest <? S (length input))%nat; try discriminate.
    intros Hrun HR ->.
    destruct (IH rest _ _ (dealt ++ [v]) Hrun) as (read & Hdec & HR' & Hidx').
    + rewrite deal_snoc by exact Hn. apply Forall2_alter; [exact HR|].
      intros s values _ _ Hs. apply encodes_snoc; assumption.
    + rewrite length_app. simpl.
      rewrite <- (Nat.Div0.add_mod_idemp_l (length dealt) 1 n).
      f_equal. lia.
    + exists (v :: read). rewrite Hdec.
      rewrite <- app_assoc in HR', Hidx'. simpl in HR', Hidx'. auto.
Qed.

Lemma redistribute_deals n inputs streams idx streams' idx' dealt :
  (0 < n)%nat →
  ListBuffer.redistribute c n inputs (streams, idx) = Ok (streams', idx') →
  Forall2 (fun s values => encodes c values s) streams (deal n dealt) →
  idx = (length dealt mod n)%nat →
  ∃ read,
    sub_elements_of_records c inputs = Ok read
    ∧ Forall2 (fun s values => encodes c values s) streams'
        (deal n (dealt ++ read)).
Proof.
  intros Hn. revert streams idx dealt.
  induction inputs as [|input more IH]; intros streams idx dealt; simpl.
  - intros [= <- <-] HR _. exists []. rewrite app_nil_r. auto.
  - destruct (ListBuffer.redistribute_stream _ _ _ _ _)
      as [[streams1 idx1]| |] eqn:Hone; try discriminate.
    intros Hrun HR Hidx.
    destruct (redistribute_stream_deals _ _ _ _ _ _ _ _ Hn Hone HR Hidx)
      as (read1 & Hdec1 & HR1 & Hidx1).
    destruct (IH _ _ _ Hrun HR1 Hidx1) as (read2 & Hdec2 & HR2).
    exists (read1 ++ read2). unfold sub_elements.
    rewrite Hdec1, Hdec2, app_assoc. auto.
Qed.

End RedistributionDeals.

Section ListBufferDeals.
Context {V : Type}.
Implicit Types (b : ListBuffer.ListBuffer V).

(** X7.  With fewer records than [n] (and at least one) and nothing cached,
    a [partition(n)] that returns has decoded every record to its end and
    dealt the sub-elements round-robin, in the order they were read across
    all records: the result has [n] shards of one record each, and the
    record of shard [k] is the encodings, one after the other, of
    sub-elements number [k], [k + n], [k + 2n], ...  A shard that received
    nothing holds one empty record. *)
Theorem ListBuffer_partition_redistribution_deals n b shards b' :
  ListBuffer.cleared b = false →
  Z.of_nat (length (ListBuffer._inputs b)) < n →
  ListBuffer._inputs b ≠ [] →
  truthy (ListBuffer._grouped_output b) = false →
  ListBuffer.partition n b = (Ok shards, b') →
  ∃ sub,
    sub_elements_of_records (ListBuffer._coder_impl b) (ListBuffer._inputs b)
    = Ok sub
    ∧ length shards = Z.to_nat n
    ∧ ∀ k, (k < Z.to_nat n)%nat →
        ∃ record,
          shards !! k = Some [record]
          ∧ encodes (ListBuffer._coder_impl b)
              (slice_from_step k (Z.to_nat n) sub) record.
Proof.
  intros Hcl Hlt Hne Ht. unfold ListBuffer.partition. rewrite Hcl, Ht.
  assert (Hcond : (Z.of_nat (length (ListBuffer._inputs b)) >=? n)
                  || (length (ListBuffer._inputs b) =? 0)%nat = false).
  { apply orb_false_iff. split.
    - rewrite Z.geb_leb. apply Z.leb_gt. exact Hlt.
    - apply Nat.eqb_neq. destruct (ListBuffer._inputs b); simpl; congruence. }
  rewrite Hcond. simpl.
  destruct (ListBuffer.redistribute _ _ _ _) as [[streams idx]| |] eqn:Hrun;
    try discriminate.
  intros [= <- <-].
  assert (Hn : (0 < Z.to_nat n)%nat) by lia.
  destruct (redistribute_deals _ _ _ _ _ _ _ [] Hn Hrun) as (sub & Hsub & HR).
  - rewrite deal_nil. apply Forall2_replicate. reflexivity.
  - simpl. rewrite Nat.Div0.mod_0_l. reflexivity.
  - simpl in HR. exists sub. split; [exact Hsub|].
    pose proof (Forall2_length _ _ _ HR) as Hlen. rewrite deal_length in Hlen.
    split; [rewrite length_map; exact Hlen|].
    intros k Hk.
    destruct (lookup_lt_is_Some_2 streams k ltac:(lia)) as [record Hrec].
    exists record. change (map ?f ?l) with (f <$> l).
    rewrite list_lookup_fmap, Hrec. split; [reflexivity|].
    apply (Forall2_lookup_lr _ _ _ k _ _ HR Hrec).
    apply deal_lookup. exact Hk.
Qed.

End ListBufferDeals.

Lemma ListBuffer_partition_redistribution_deals_witness :
  ∃ sub,
    sub_elements_of_records Samples.byte_coder
      (ListBuffer._inputs MoreSamples.one_record) = Ok sub
    ∧ length [[["a"; "c"]]; [["b"]]]%byte = 2%nat
    ∧ ∀ k, (k < 2)%nat →
        ∃ record,
          [[["a"; "c"]]; [["b"]]]%byte !! k = Some [record]
          ∧ encodes Samples.byte_coder (slice_from_step k 2 sub) record.
Proof.
  apply (ListBuffer_partition_redistribution_deals 2 MoreSamples.one_record
           [[["a"; "c"]]; [["b"]]]%byte
           (ListBuffer.partition 2 MoreSamples.one_record).2
           eq_refl).
  - simpl. lia.
  - discriminate.
  - reflexivity.
  - reflexivity.
Defined.

(** ** GroupingBuffer: grouping by key, merging, dealing keys to shards *)

Section TableExtend.
Context {V : Type} `{WindowedValues V}.
Implicit Types (t : list (bytes * list V)) (k : bytes) (vs : list V).

Lemma table_extend_get_eq k vs t :
  dict_get k (GroupingBuffer.table_extend k vs t)
  = Some (default [] (dict_get k t) ++ vs).
Proof.
  induction t as [|[k' vs'] t IH]; simpl.
  - destruct (decide (k = k)); [reflexivity | congruence].
  - destruct (decide (k' = k)) as [->|Hne]; simpl.
    + destruct (decide (k = k)); [reflexivity | congruence].
    + destruct (decide (k' = k)); [congruence | exact IH].
Qed.

Lemma table_extend_get_ne k k0 vs t :
  k0 ≠ k →
  dict_get k0 (GroupingBuffer.table_extend k vs t) = dict_get k0 t.
Proof.
  intros Hne. induction t as [|[k' vs'] t IH]; simpl.
  - destruct (decide (k = k0)); [congruence | reflexivity].
  - destruct (decide (k' = k)) as [->|Hne']; simpl.
    + destruct (decide (k = k0)); [congruence | reflexivity].
    + destruct (decide (k' = k0)); [reflexivity | exact IH].
Qed.

(** A key already in the table keeps its place; a new key goes last. *)
Lemma table_extend_keys k vs t :
  dict_keys (GroupingBuffer.table_extend k vs t)
  = dict_keys t ++ (if decide (k ∈ dict_keys t) then [] else [k]).
Proof.
  induction t as [|[k' vs'] t IH]; simpl.
  - destruct (decide (k ∈ [])) as [Hin|_]; [inversion Hin | reflexivity].
  - destruct (decide (k' = k)) as [->|Hne]; simpl.
    + destruct (decide (k ∈ k :: dict_keys t)) as [_|Hout];
        [rewrite app_nil_r; reflexivity|].
      exfalso. apply Hout. left.
    + rewrite IH. do 2 f_equal.
      destruct (decide (k ∈ dict_keys t)) as [Hin|Hout];
        destruct (decide (k ∈ k' :: dict_keys t)) as [Hin'|Hout'];
        try reflexivity.
      * exfalso. apply Hout'. right. exact Hin.
      * exfalso. apply elem_of_cons in Hin' as [->|Hin']; [congruence|].
        contradiction.
Qed.

Lemma table_extend_NoDup k vs t :
  NoDup (dict_keys t) → NoDup (dict_keys (GroupingBuffer.table_extend k vs t)).
Proof.
  intros Hnd. rewrite table_extend_keys.
  destruct (decide (k ∈ dict_keys t)) as [Hin|Hout].
  - rewrite app_nil_r. exact Hnd.
  - apply NoDup_app. split; [exact Hnd|]. split; [|apply NoDup_singleton].
    intros x Hx Hx'. apply list_elem_of_singleton in Hx' as ->. contradiction.
Qed.

(** The values a list of (key, values) items holds for one key. *)
Lemma fold_table_extend_get (items : list (bytes * list V)) t k :
  default [] (dict_get k
    (fold_left (fun t kv => GroupingBuffer.table_extend kv.1 kv.2 t) items t))
  = default [] (dict_get k t)
      ++ concat (map snd (filter (fun kv => kv.1 = k) items)).
Proof.
  revert t. induction items as [|[k' vs'] items IH]; intros t; simpl.
  - rewrite app_nil_r. reflexivity.
  - rewrite IH. rewrite filter_cons. simpl.
    destruct (decide (k' = k)) as [->|Hne]; simpl.
    + rewrite table_extend_get_eq. simpl. rewrite app_assoc. reflexivity.
    + rewrite table_extend_get_ne by congruence. reflexivity.
Qed.

Lemma fold_table_extend_NoDup (items : list (bytes * list V)) t :
  NoDup (dict_keys t) →
  NoDup (dict_keys
    (fold_left (fun t kv => GroupingBuffer.table_extend kv.1 kv.2 t) items t)).
Proof.
  revert t. induction items as [|[k' vs'] items IH]; intros t Hnd; simpl;
    [exact Hnd|].
  apply IH, table_extend_NoDup, Hnd.
Qed.

Lemma dict_get_filter (items : list (bytes * list V)) k :
  NoDup (dict_keys items) →
  concat (map snd (filter (fun kv => kv.1 = k) items))
  = default [] (dict_get k items).
Proof.
  induction items as [|[k' vs'] items IH]; simpl; [reflexivity|].
  intros Hnd. apply NoDup_cons in Hnd as [Hout Hnd].
  rewrite filter_cons. simpl. destruct (decide (k' = k)) as [->|Hne]; simpl.
  - assert (Hnone : filter (fun kv : bytes * list V => kv.1 = k) items = []).
    { destruct (filter (fun kv : bytes * list V => kv.1 = k) items)
        as [|e rest] eqn:Hf; [reflexivity|].
      exfalso. apply Hout.
      assert (He : e ∈ filter (fun kv : bytes * list V => kv.1 = k) items)
        by (rewrite Hf; left).
      apply list_elem_of_filter in He as [<- He].
      apply list_elem_of_fmap. exists e. auto. }
    rewrite Hnone. simpl. apply app_nil_r.
  - apply IH, Hnd.
Qed.

End TableExtend.

Section GroupingBufferGrouping.
Context {V : Type} `{WindowedValues V}.
Implicit Types (g other : GroupingBuffer.GroupingBuffer V)
  (t : list (bytes * list V)).

(** What [append] stores for one decoded element: the encoded key, and the
    value itself under the default windowing or the windowed value
    otherwise. *)
Lemma append_loop_groups fuel (coder_impl key_coder_impl : CoderImpl V)
    is_trivial_windowing input_stream t t' :
  GroupingBuffer.append_loop fuel coder_impl key_coder_impl
    is_trivial_windowing input_stream t = (Ok tt, t') →
  ∃ elements pairs,
    decode_stream fuel coder_impl input_stream = Ok elements
    ∧ Forall2
        (fun wkv (pair : bytes * V) =>
           ∃ key value,
             kv_of wkv = Ok (key, value)
             ∧ encode key_coder_impl key = Ok pair.1
             ∧ pair.2 = if is_trivial_windowing then value
                        else with_value wkv value)
        elements pairs
    ∧ t' = fold_left
             (fun t (pair : bytes * V) =>
                GroupingBuffer.table_extend pair.1 [pair.2] t)
             pairs t.
Proof.
  revert input_stream t.
  induction fuel as [|fuel IH]; intros input_stream t;
    destruct input_stream as [|b input_stream]; simpl; try discriminate.
  - intros [= <-]. exists [], []. auto.
  - intros [= <-]. exists [], []. auto.
  - destruct (decode_from_stream coder_impl (b :: input_stream))
      as [[wkv rest]| |]; try discriminate.
    destruct (kv_of wkv) as [[key value]| |] eqn:Hkv; try discriminate.
    destruct (encode key_coder_impl key) as [encoded_key| |] eqn:Henc;
      try discriminate.
    destruct (length rest <? S (length input_stream))%nat; try discriminate.
    intros Hrun. destruct (IH _ _ Hrun) as (elements & pairs & Hdec & HF & ->).
    exists (wkv :: elements),
      ((encoded_key,
        if is_trivial_windowing then value else with_value wkv value)
       :: pairs).
    rewrite Hdec. split; [reflexivity|]. split; [|reflexivity].
    constructor; [|exact HF]. exists key, value. auto.
Qed.

Lemma fold_table_extend_singletons (pairs : list (bytes * V)) t k :
  default [] (dict_get k
    (fold_left (fun t (pair : bytes * V) =>
                  GroupingBuffer.table_extend pair.1 [pair.2] t) pairs t))
  = default [] (dict_get k t)
      ++ map snd (filter (fun pair => pair.1 = k) pairs).
Proof.
  revert t. induction pairs as [|[k' v] pairs IH]; intros t; simpl.
  - rewrite app_nil_r. reflexivity.
  - rewrite IH. rewrite filter_cons. simpl.
    destruct (decide (k' = k)) as [->|Hne]; simpl.
    + rewrite table_extend_get_eq. simpl. rewrite <- app_assoc. reflexivity.
    + rewrite table_extend_get_ne by congruence. reflexivity.
Qed.

Lemma fold_table_extend_singletons_NoDup (pairs : list (bytes * V)) t :
  NoDup (dict_keys t) →
  NoDup (dict_keys
    (fold_left (fun t (pair : bytes * V) =>
                  GroupingBuffer.table_extend pair.1 [pair.2] t) pairs t)).
Proof.
  revert t. induction pairs as [|[k' v] pairs IH]; intros t Hnd; simpl;
    [exact Hnd|].
  apply IH, table_extend_NoDup, Hnd.
Qed.

(** X8.  An [append] that returns has decoded the whole stream into
    windowed key/value elements and filed each under its encoded key: for
    every encoded key the table now holds the values it held before
    followed by the values of the new elements with that key, in the order
    they came in the stream.  Keys stay unique and nothing else in the
    buffer changes. *)
Theorem GroupingBuffer_append_groups_by_key elements_data g g' :
  GroupingBuffer.append elements_data g = (Ok tt, g') →
  ∃ elements pairs,
    sub_elements (GroupingBuffer._pre_grouped_coder g) elements_data
    = Ok elements
    ∧ Forall2
        (fun wkv (pair : bytes * V) =>
           ∃ key value,
             kv_of wkv = Ok (key, value)
             ∧ encode (GroupingBuffer._key_coder g) key = Ok pair.1
             ∧ pair.2 = if is_default (GroupingBuffer._windowing g)
                        then value else with_value wkv value)
        elements pairs
    ∧ (∀ k,
         default [] (dict_get k (GroupingBuffer._table g'))
         = default [] (dict_get k (GroupingBuffer._table g))
             ++ map snd (filter (fun pair => pair.1 = k) pairs))
    ∧ (NoDup (dict_keys (GroupingBuffer._table g)) →
       NoDup (dict_keys (GroupingBuffer._table g')))
    ∧ g' = GroupingBuffer.set_table (GroupingBuffer._table g') g.
Proof.
  unfold GroupingBuffer.append.
  destruct (truthy (GroupingBuffer._grouped_output g)); [discriminate|].
  destruct (GroupingBuffer.append_loop _ _ _ _ _ _) as [r t'] eqn:Hloop.
  intros [= -> <-].
  destruct (append_loop_groups _ _ _ _ _ _ _ Hloop)
    as (elements & pairs & Hdec & HF & ->).
  exists elements, pairs. split; [exact Hdec|]. split; [exact HF|].
  split; [intros k; apply fold_table_extend_singletons|].
  split; [apply fold_table_extend_singletons_NoDup | reflexivity].
Qed.

(** X9.  [extend] from another [GroupingBuffer] never fails and appends,
    for every key, the values of the source after the values already held;
    keys stay unique and the grouped output of the receiver is not touched.
    Only the table of the source is read: a source whose table is empty,
    as it is once the source has been partitioned, contributes nothing. *)
Theorem GroupingBuffer_extend_merges_per_key g other :
  NoDup (dict_keys (GroupingBuffer._table other)) →
  let extended := GroupingBuffer.extend (Buffer_source (BGroup other)) g in
  extended.1 = Ok tt
  ∧ (∀ k,
       default [] (dict_get k (GroupingBuffer._table extended.2))
       = default [] (dict_get k (GroupingBuffer._table g))
           ++ default [] (dict_get k (GroupingBuffer._table other)))
  ∧ (NoDup (dict_keys (GroupingBuffer._table g)) →
     NoDup (dict_keys (GroupingBuffer._table extended.2)))
  ∧ GroupingBuffer._grouped_output extended.2
    = GroupingBuffer._grouped_output g
  ∧ (GroupingBuffer._table other = [] → extended.2 = g).
Proof.
  intros Hnd. cbv zeta. simpl. split; [reflexivity|]. split.
  - intros k. rewrite fold_table_extend_get, dict_get_filter by exact Hnd.
    reflexivity.
  - split; [apply fold_table_extend_NoDup|]. split; [reflexivity|].
    intros ->. destruct g; reflexivity.
Qed.

(** X10.  After a [partition(n)] that returned, [n >= 1], the table is
    empty, [append] is refused with "append after read", and iterating
    the buffer yields the records of the shards of that partition, shard
    after shard, without grouping anything again. *)
Theorem GroupingBuffer_after_partition n g shards g' :
  1 ≤ n →
  truthy (GroupingBuffer._grouped_output g) = false →
  GroupingBuffer.partition n g = (Ok shards, g') →
  GroupingBuffer._table g' = []
  ∧ (∀ elements_data,
       GroupingBuffer.append elements_data g'
       = (Raise (RuntimeError "Grouping table append after read."), g'))
  ∧ GroupingBuffer.__iter__ g' = (Ok (concat shards), g').
Proof.
  intros Hn Ht Hrun.
  pose proof (GroupingBuffer_partition_truthy n g shards g' Hn Hrun) as Ht'.
  split; [|split].
  - revert Hrun. unfold GroupingBuffer.partition. rewrite Ht. simpl.
    destruct (if is_default (GroupingBuffer._windowing g) then _ else _)
      as [wkv| |]; try discriminate.
    destruct (GroupingBuffer.encode_table _ _ _ _ _ _ _) as [streams| |];
      try discriminate.
    intros [= <- <-]. reflexivity.
  - intros elements_data. unfold GroupingBuffer.append. rewrite Ht'.
    reflexivity.
  - unfold GroupingBuffer.__iter__, GroupingBuffer.partition. rewrite Ht'.
    simpl.
    destruct (GroupingBuffer_partition_Ok_state n g shards g' Hrun)
      as [->|(_ & _ & Hcontra)]; [reflexivity | congruence].
Qed.

End GroupingBufferGrouping.

Section GroupingBufferDeals.
Context {V : Type} `{WindowedValues V}.
Implicit Types (g : GroupingBuffer.GroupingBuffer V).

Lemma stream_index_positive idx n :
  1 ≤ n →
  GroupingBuffer.stream_index idx n = Ok (idx mod Z.to_nat n)%nat.
Proof.
  intros Hn. unfold GroupingBuffer.stream_index.
  destruct (n =? 0) eqn:H0; [apply Z.eqb_eq in H0; lia|].
  destruct (n <? 0) eqn:Hneg; [apply Z.ltb_lt in Hneg; lia|].
  f_equal. rewrite <- (Z2Nat.id n) at 1 by lia.
  rewrite <- Nat2Z.inj_mod. apply Nat2Z.id.
Qed.

(** All the groups of one key go to the stream of that key. *)
Lemma encode_groups_blob (coder_impl : CoderImpl V) idx n wkvss streams
    streams' :
  1 ≤ n →
  GroupingBuffer.encode_groups coder_impl idx n wkvss streams = Ok streams' →
  ∃ blob,
    encodes coder_impl wkvss blob
    ∧ streams' = alter (fun o => o ++ blob) (idx mod Z.to_nat n)%nat streams.
Proof.
  intros Hn. revert streams. induction wkvss as [|w more IH]; intros streams;
    simpl.
  - intros [= <-]. exists []. split; [reflexivity|].
    symmetry. apply list_alter_id. intros x. apply app_nil_r.
  - rewrite (stream_index_positive idx n Hn).
    destruct (encode_to_stream coder_impl w) as [written| |] eqn:Henc;
      try discriminate.
    intros Hrun. destruct (IH _ Hrun) as (blob & Hblob & ->).
    exists (written ++ blob). split; [eauto|].
    rewrite list_alter_alter_eq. apply list_alter_ext; [|reflexivity].
    intros x _. simpl. rewrite app_assoc. reflexivity.
Qed.

Lemma encode_table_deals (coder_impl key_coder_impl : CoderImpl V) wkv n idx
    items streams streams' (dealt : list bytes) :
  1 ≤ n →
  GroupingBuffer.encode_table coder_impl key_coder_impl wkv n idx items streams
  = Ok streams' →
  streams = @concat byte <$> deal (Z.to_nat n) dealt →
  idx = length dealt →
  ∃ blobs,
    Forall2
      (fun (item : bytes * list V) blob =>
         ∃ key groups,
           decode key_coder_impl item.1 = Ok key
           ∧ wkv key item.2 = Ok groups
           ∧ encodes coder_impl groups blob)
      items blobs
    ∧ streams' = @concat byte <$> deal (Z.to_nat n) (dealt ++ blobs).
Proof.
  intros Hn. revert idx streams dealt.
  induction items as [|[encoded_key windowed_values] more IH];
    intros idx streams dealt; simpl.
  - intros [= <-] -> _. exists []. rewrite app_nil_r. auto.
  - destruct (decode key_coder_impl encoded_key) as [key| |] eqn:Hkey;
      try discriminate.
    destruct (wkv key windowed_values) as [groups| |] eqn:Hgroups;
      try discriminate.
    destruct (GroupingBuffer.encode_groups coder_impl idx n groups streams)
      as [streams1| |] eqn:Hone; try discriminate.
    intros Hrun -> ->.
    destruct (encode_groups_blob _ _ _ _ _ _ Hn Hone) as (blob & Hblob & ->).
    destruct (IH _ _ (dealt ++ [blob]) Hrun) as (blobs & HF & ->).
    + rewrite deal_snoc by lia.
      rewrite (list_fmap_alter (@concat byte) (fun o => o ++ [blob])
                 (fun o => o ++ blob)); [reflexivity|].
      apply Forall_forall. intros x _. rewrite concat_app. simpl.
      rewrite app_nil_r. reflexivity.
    + rewrite length_app. simpl. lia.
    + exists (blob :: blobs). rewrite <- app_assoc. simpl.
      split; [|reflexivity]. constructor; [|exact HF].
      exists key, groups. auto.
Qed.

(** X11.  A [partition(n)], [n >= 1], that computes its result deals the
    keys of the table round-robin in insertion order: it returns [n]
    shards of one record each, and the record of shard [k] is, one after
    the other, the encoded groups of keys number [k], [k + n], [k + 2n],
    ...  Under the default windowing the groups of a key are the single
    value [(key, values)] in the global window.  The table is empty
    afterwards and the shards are cached. *)
Theorem GroupingBuffer_partition_deals_keys n g shards g' :
  1 ≤ n →
  truthy (GroupingBuffer._grouped_output g) = false →
  GroupingBuffer.partition n g = (Ok shards, g') →
  ∃ wkv blobs,
    (if is_default (GroupingBuffer._windowing g)
     then wkv = (fun key values => Ok [globally_window key values])
     else create_trigger_driver (GroupingBuffer._windowing g) = Ok wkv)
    ∧ Forall2
        (fun (item : bytes * list V) blob =>
           ∃ key groups,
             decode (GroupingBuffer._key_coder g) item.1 = Ok key
             ∧ wkv key item.2 = Ok groups
             ∧ encodes (GroupingBuffer._post_grouped_coder g) groups blob)
        (GroupingBuffer._table g) blobs
    ∧ shards
      = map (fun k => [concat (slice_from_step k (Z.to_nat n) blobs)])
            (seq 0 (Z.to_nat n))
    ∧ GroupingBuffer._table g' = []
    ∧ GroupingBuffer._grouped_output g' = Some shards.
Proof.
  intros Hn Ht. unfold GroupingBuffer.partition. rewrite Ht. simpl.
  destruct (if is_default (GroupingBuffer._windowing g) then _ else _)
    as [wkv| |] eqn:Hwkv; try discriminate.
  destruct (GroupingBuffer.encode_table _ _ _ _ _ _ _) as [streams| |]
    eqn:Henc; try discriminate.
  intros [= <- <-].
  destruct (encode_table_deals _ _ _ _ _ _ _ _ [] Hn Henc)
    as (blobs & HF & ->).
  - rewrite deal_nil, fmap_replicate. reflexivity.
  - reflexivity.
  - exists wkv, blobs. split.
    { destruct (is_default (GroupingBuffer._windowing g));
        [injection Hwkv as <-; reflexivity | exact Hwkv]. }
    split; [exact HF|]. simpl. split; [|auto].
    unfold deal. change (map ?f ?l) with (f <$> l).
    rewrite <- !list_fmap_compose. reflexivity.
Qed.

End GroupingBufferDeals.

Lemma GroupingBuffer_append_groups_by_key_witness :
  GroupingBuffer._table GroupSamples.kv_jk
  = [(["k"%byte], [Samples.PByte "v"; Samples.PByte "w"]);
     (["j"%byte], [Samples.PByte "x"])]
  ∧ ∃ pairs : list (bytes * Samples.pyval),
      length pairs = 3%nat
      ∧ ∀ k,
          default [] (dict_get k (GroupingBuffer._table GroupSamples.kv_jk))
          = default []
              (dict_get k (GroupingBuffer._table Samples.grouping_buffer))
              ++ map snd (filter (fun pair => pair.1 = k) pairs).
Proof.
  split; [reflexivity|].
  assert (Hrun : GroupingBuffer.append ["k"; "v"; "j"; "x"; "k"; "w"]%byte
                   Samples.grouping_buffer = (Ok tt, GroupSamples.kv_jk))
    by reflexivity.
  destruct (GroupingBuffer_append_groups_by_key
              ["k"; "v"; "j"; "x"; "k"; "w"]%byte Samples.grouping_buffer
              GroupSamples.kv_jk Hrun)
    as (elements & pairs & Hdec & HF & Hget & _).
  injection Hdec as <-. exists pairs. split; [|exact Hget].
  symmetry. exact (Forall2_length _ _ _ HF).
Defined.

Lemma GroupingBuffer_extend_merges_per_key_witness :
  let extended :=
    GroupingBuffer.extend (Buffer_source (BGroup GroupSamples.kv_more))
      GroupSamples.kv_jk in
  extended.1 = Ok tt
  ∧ GroupingBuffer._table extended.2
    = [(["k"%byte], [Samples.PByte "v"; Samples.PByte "w"]);
       (["j"%byte], [Samples.PByte "x"; Samples.PByte "y"]);
       (["i"%byte], [Samples.PByte "z"])]
  ∧ ∀ k,
      default [] (dict_get k (GroupingBuffer._table extended.2))
      = default [] (dict_get k (GroupingBuffer._table GroupSamples.kv_jk))
          ++ default []
               (dict_get k (GroupingBuffer._table GroupSamples.kv_more)).
Proof.
  cbv zeta.
  destruct (GroupingBuffer_extend_merges_per_key GroupSamples.kv_jk
              GroupSamples.kv_more) as (Hok & Hget & _).
  - simpl. apply NoDup_cons. split; [|apply NoDup_singleton].
    intros Hin. apply list_elem_of_singleton in Hin. discriminate Hin.
  - split; [exact Hok|]. split; [reflexivity | exact Hget].
Defined.

Lemma GroupingBuffer_after_partition_witness :
  let g' := (GroupingBuffer.partition 2 GroupSamples.kv_jk).2 in
  GroupingBuffer._table g' = []
  ∧ (∀ elements_data,
       GroupingBuffer.append elements_data g'
       = (Raise (RuntimeError "Grouping table append after read."), g'))
  ∧ GroupingBuffer.__iter__ g'
    = (Ok [["k"; "v"; "w"]; ["j"; "x"]]%byte, g').
Proof.
  cbv zeta.
  assert (Hrun : GroupingBuffer.partition 2 GroupSamples.kv_jk
                 = (Ok [[["k"; "v"; "w"]]; [["j"; "x"]]]%byte,
                    (GroupingBuffer.partition 2 GroupSamples.kv_jk).2))
    by reflexivity.
  assert (Hn : 1 ≤ 2) by lia.
  exact (GroupingBuffer_after_partition 2 GroupSamples.kv_jk _ _ Hn eq_refl
           Hrun).
Defined.

Lemma GroupingBuffer_partition_deals_keys_witness :
  ∃ blobs : list bytes,
    [[["k"; "v"; "w"]]; [["j"; "x"]]; [[]]]%byte
    = map (fun k => [concat (slice_from_step k 3 blobs)]) (seq 0 3)
    ∧ GroupingBuffer._table (GroupingBuffer.partition 3 GroupSamples.kv_jk).2
      = [].
Proof.
  assert (Hrun : GroupingBuffer.partition 3 GroupSamples.kv_jk
                 = (Ok [[["k"; "v"; "w"]]; [["j"; "x"]]; [[]]]%byte,
                    (GroupingBuffer.partition 3 GroupSamples.kv_jk).2))
    by reflexivity.
  assert (Hn : 1 ≤ 3) by lia.
  destruct (GroupingBuffer_partition_deals_keys 3 GroupSamples.kv_jk _ _
              Hn eq_refl Hrun)
    as (wkv & blobs & _ & _ & Hshards & Htable & _).
  exists blobs. split; [exact Hshards | exact Htable].
Defined.

(** ** The keyed queues: length, order, merging *)

Section KeyedQueueExtra.
Context {K V : Type} `{Countable K} `{WindowedValues V}.
Variable DataInput_bool : DataInput V -> bool.
Implicit Types (q : KeyedQueue.KeyedQueue K V) (key : K) (d : DataInput V).

Lemma KeyedQueue_wf_len q :
  KeyedQueue_wf q →
  KeyedQueue.__len__ q = size (KeyedQueue._keyed_elements q).
Proof.
  intros (Hkeys & _ & Hidx & _). unfold KeyedQueue.__len__.
  rewrite <- (length_map fst), <- size_dom.
  rewrite <- (size_list_to_set (C := gset K)) by exact Hkeys.
  f_equal. apply set_eq. intros k.
  rewrite elem_of_list_to_set, elem_of_dom. split.
  - intros Hin. apply list_elem_of_fmap in Hin as (e & -> & He).
    exists e. apply Hidx. auto.
  - intros [e He]. apply Hidx in He as [He <-].
    apply list_elem_of_fmap. exists e. auto.
Qed.

Lemma KeyedQueue_run_wf (calls : list (KeyedQueue_call K V)) :
  KeyedQueue_wf (KeyedQueue_run DataInput_bool calls).
Proof.
  unfold KeyedQueue_run.
  assert (Hgen : ∀ q, KeyedQueue_wf q →
            KeyedQueue_wf (fold_left (KeyedQueue_step DataInput_bool) calls q)).
  { induction calls as [|call calls IH]; intros q Hq; simpl; [exact Hq|].
    apply IH. destruct call as [[key d]|]; simpl.
    - apply KeyedQueue_enque_wf. exact Hq.
    - apply KeyedQueue_deque_wf. exact Hq. }
  apply Hgen, KeyedQueue_init_wf.
Qed.

(** X12.  Whatever calls of [enque] and [deque] a queue has received since
    it was built, and whatever they returned, no key occurs twice in it, a
    key is in the index exactly when it has an element in the deque, and
    [len()] is the number of keys in the index. *)
Theorem KeyedQueue_len_counts_pending_keys
    (calls : list (KeyedQueue_call K V)) :
  let q := KeyedQueue_run DataInput_bool calls in
  NoDup (map fst (KeyedQueue._q q))
  ∧ (∀ key, key ∈ map fst (KeyedQueue._q q)
            ↔ is_Some (KeyedQueue._keyed_elements q !! key))
  ∧ KeyedQueue.__len__ q = size (KeyedQueue._keyed_elements q).
Proof.
  cbv zeta. pose proof (KeyedQueue_run_wf calls) as Hwf.
  split; [apply Hwf|]. split; [|apply KeyedQueue_wf_len, Hwf].
  destruct Hwf as (_ & _ & Hidx & _). intros key. split.
  - intros Hin. apply list_elem_of_fmap in Hin as (e & -> & He).
    exists e. apply Hidx. auto.
  - intros [e He]. apply Hidx in He as [He <-].
    apply list_elem_of_fmap. exists e. auto.
Qed.

(** X13.  First in, first out: on a well-formed queue that is not empty,
    enqueuing a true input under a key that is not pending does not change
    what the next [deque()] returns, and the two calls commute. *)
Theorem KeyedQueue_enque_deque_commute q key d :
  KeyedQueue_wf q →
  KeyedQueue._q q ≠ [] →
  DataInput_bool d = true →
  KeyedQueue._keyed_elements q !! key = None →
  is_Ok (KeyedQueue.deque q).1 = true
  ∧ KeyedQueue.deque (KeyedQueue.enque DataInput_bool (key, d) q).2
    = ((KeyedQueue.deque q).1,
       (KeyedQueue.enque DataInput_bool (key, d) (KeyedQueue.deque q).2).2).
Proof.
  intros Hwf Hne Hd Hkey. pose proof Hwf as (_ & _ & Hidx & Hdom).
  destruct (exists_last Hne) as (l & [k0 ref0] & Hq).
  assert (Hlast : KeyedQueue._keyed_elements q !! k0 = Some (k0, ref0)).
  { apply Hidx. rewrite Hq. split; [|reflexivity].
    apply elem_of_app. right. left. }
  assert (Hk0 : k0 ≠ key) by (intros ->; congruence).
  rewrite (KeyedQueue_deque_last q l k0 ref0 Hq) by eauto.
  split; [reflexivity|]. simpl.
  unfold KeyedQueue.enque at 2. simpl. rewrite Hd. simpl.
  rewrite lookup_delete_ne, Hkey by exact Hk0.
  set (ref := fresh (dom (KeyedQueue.store q))).
  assert (Href : ref ≠ ref0).
  { intros Heq. apply (is_fresh (dom (KeyedQueue.store q))).
    fold ref. rewrite Heq. apply (Hdom (k0, ref0)). rewrite Hq.
    apply elem_of_app. right. left. }
  rewrite (KeyedQueue_deque_last _ ((key, ref) :: l) k0 ref0).
  - unfold KeyedQueue.enque. simpl. rewrite Hd, Hkey. simpl. fold ref.
    rewrite lookup_total_insert_ne by exact Href.
    rewrite delete_insert_ne by congruence. reflexivity.
  - unfold KeyedQueue.enque. simpl. rewrite Hd, Hkey. simpl. rewrite Hq.
    reflexivity.
  - unfold KeyedQueue.enque. simpl. rewrite Hd, Hkey. simpl.
    rewrite lookup_insert_ne by congruence. eauto.
Qed.

(** X14.  On a well-formed queue with no element, [deque()] raises
    [IndexError] and changes nothing; after one [enque] of a true input,
    [deque()] gives that input back under its key and the queue has no
    element and no pending key again. *)
Theorem KeyedQueue_empty_round_trip q key d :
  KeyedQueue_wf q →
  KeyedQueue._q q = [] →
  DataInput_bool d = true →
  KeyedQueue.deque q = (Raise IndexError, q)
  ∧ KeyedQueue._keyed_elements q = ∅
  ∧ (KeyedQueue.deque (KeyedQueue.enque DataInput_bool (key, d) q).2).1
    = Ok (key, d)
  ∧ KeyedQueue._q
      (KeyedQueue.deque (KeyedQueue.enque DataInput_bool (key, d) q).2).2
    = []
  ∧ KeyedQueue._keyed_elements
      (KeyedQueue.deque (KeyedQueue.enque DataInput_bool (key, d) q).2).2
    = ∅.
Proof.
  intros (_ & _ & Hidx & _) Hq Hd.
  assert (Hempty : KeyedQueue._keyed_elements q = ∅).
  { apply map_eq. intros k. rewrite lookup_empty.
    destruct (KeyedQueue._keyed_elements q !! k) as [e|] eqn:Hk;
      [|reflexivity].
    apply Hidx in Hk as [Hin _]. rewrite Hq in Hin. inversion Hin. }
  split; [unfold KeyedQueue.deque; rewrite Hq; reflexivity|].
  split; [exact Hempty|].
  unfold KeyedQueue.enque. simpl. rewrite Hd, Hempty, lookup_empty. simpl.
  unfold KeyedQueue.deque. simpl. rewrite Hq. simpl.
  rewrite lookup_insert_eq. simpl.
  rewrite lookup_total_insert_eq, delete_insert_eq, delete_empty. auto.
Qed.

End KeyedQueueExtra.

Section KeyedQueueMergeSame.
Context {K V : Type} `{Countable K} `{WindowedValues V}.
Variable DataInput_bool : DataInput V -> bool.
Implicit Types (q : KeyedQueue.KeyedQueue K V) (key : K) (d : DataInput V).

Lemma dict_set_same {I B : Type} `{EqDecision I} (i : I) (b : B)
    (dict : list (I * B)) :
  dict_get i dict = Some b → dict_set i b dict = dict.
Proof.
  induction dict as [|[j c] dict IH]; simpl; [discriminate|].
  destruct (decide (j = i)) as [->|Hne].
  - intros [= ->]. reflexivity.
  - intros Hget. rewrite IH by exact Hget. reflexivity.
Qed.

(** What one [enque] under a pending key does for an input that carries
    one PCollection. *)
Lemma KeyedQueue_enque_pending_one q key d0 pcoll incoming existing :
  DataInput_bool (mkDataInput [(pcoll, incoming)] []) = true →
  KeyedQueue_pending q key = Some d0 →
  dict_get pcoll (data d0) = Some existing →
  let r := KeyedQueue.enque DataInput_bool
             (key, mkDataInput [(pcoll, incoming)] []) q in
  r.1 = (Buffer_extend incoming existing).1
  ∧ KeyedQueue._q r.2 = KeyedQueue._q q
  ∧ KeyedQueue._keyed_elements r.2 = KeyedQueue._keyed_elements q
  ∧ KeyedQueue_pending r.2 key
    = Some (mkDataInput
              (dict_set pcoll (Buffer_extend incoming existing).2 (data d0))
              (timers d0)).
Proof.
  intros Hd Hpending Hget. cbv zeta.
  unfold KeyedQueue_pending in Hpending.
  unfold KeyedQueue.enque, KeyedQueue_pending. simpl. rewrite Hd. simpl.
  destruct (KeyedQueue._keyed_elements q !! key) as [[k' ref]|] eqn:Hkey;
    [|discriminate].
  injection Hpending as Hstore. rewrite Hstore.
  unfold KeyedQueue.merge_inputs. simpl. rewrite Hget. simpl.
  destruct (Buffer_extend incoming existing) as [[[]|e|] existing'];
    simpl; rewrite Hkey; simpl; rewrite lookup_total_insert_eq; auto.
Qed.

(** X15.  Enqueuing, under a key that is pending, a true input that carries
    a [ListBuffer] for a PCollection the pending payload already holds a
    [ListBuffer] for (not cleared, not read): the call returns normally,
    the element keeps its place, and the pending buffer now holds its
    records followed by the records of the incoming buffer. *)
Theorem KeyedQueue_enque_same_pcollection_extends q key d0 pcoll
    (b0 b1 : ListBuffer.ListBuffer V) :
  DataInput_bool (mkDataInput [(pcoll, BList b1)] []) = true →
  KeyedQueue_pending q key = Some d0 →
  dict_get pcoll (data d0) = Some (BList b0) →
  ListBuffer.cleared b0 = false →
  truthy (ListBuffer._grouped_output b0) = false →
  let r := KeyedQueue.enque DataInput_bool
             (key, mkDataInput [(pcoll, BList b1)] []) q in
  r.1 = Ok tt
  ∧ KeyedQueue._q r.2 = KeyedQueue._q q
  ∧ KeyedQueue._keyed_elements r.2 = KeyedQueue._keyed_elements q
  ∧ KeyedQueue_pending r.2 key
    = Some (mkDataInput
              (dict_set pcoll
                 (BList (ListBuffer.mk (ListBuffer._coder_impl b0)
                           (ListBuffer._inputs b0 ++ ListBuffer._inputs b1)
                           (ListBuffer._grouped_output b0) false))
                 (data d0))
              (timers d0)).
Proof.
  intros Hd Hpending Hget Hcl Ht.
  pose proof (KeyedQueue_enque_pending_one q key d0 pcoll (BList b1)
                (BList b0) Hd Hpending Hget) as Hone.
  cbv zeta in *. simpl in Hone. unfold ListBuffer.extend in Hone.
  rewrite Hcl, Ht in Hone. simpl in Hone. exact Hone.
Qed.

(** X16.  The two classes do not merge.  When the pending buffer of the
    PCollection is a [ListBuffer] (not cleared, not read) and the incoming
    one a [GroupingBuffer], [enque] raises [AssertionError]; when the
    pending one is a [GroupingBuffer] and the incoming one a [ListBuffer],
    [enque] returns normally.  In both cases the pending payload is as it
    was: the incoming records are not in the queue. *)
Theorem KeyedQueue_enque_mixed_classes q key d0 pcoll
    (lb : ListBuffer.ListBuffer V) (gb : GroupingBuffer.GroupingBuffer V) :
  KeyedQueue_pending q key = Some d0 →
  (DataInput_bool (mkDataInput [(pcoll, BGroup gb)] []) = true →
   dict_get pcoll (data d0) = Some (BList lb) →
   ListBuffer.cleared lb = false →
   truthy (ListBuffer._grouped_output lb) = false →
   let r := KeyedQueue.enque DataInput_bool
              (key, mkDataInput [(pcoll, BGroup gb)] []) q in
   r.1 = Raise (AssertionError "")
   ∧ KeyedQueue._q r.2 = KeyedQueue._q q
   ∧ KeyedQueue_pending r.2 key = Some d0)
  ∧ (DataInput_bool (mkDataInput [(pcoll, BList lb)] []) = true →
     dict_get pcoll (data d0) = Some (BGroup gb) →
     let r := KeyedQueue.enque DataInput_bool
                (key, mkDataInput [(pcoll, BList lb)] []) q in
     r.1 = Ok tt
     ∧ KeyedQueue._q r.2 = KeyedQueue._q q
     ∧ KeyedQueue_pending r.2 key = Some d0).
Proof.
  intros Hpending. split.
  - intros Hd Hget Hcl Ht.
    pose proof (KeyedQueue_enque_pending_one q key d0 pcoll (BGroup gb)
                  (BList lb) Hd Hpending Hget) as Hone.
    cbv zeta in *. simpl in Hone. unfold ListBuffer.extend in Hone.
    rewrite Hcl, Ht in Hone. simpl in Hone.
    rewrite (dict_set_same _ _ _ Hget) in Hone.
    destruct Hone as (Hr & Hq & _ & Hp). rewrite Hp.
    destruct d0; auto.
  - intros Hd Hget.
    pose proof (KeyedQueue_enque_pending_one q key d0 pcoll (BList lb)
                  (BGroup gb) Hd Hpending Hget) as Hone.
    cbv zeta in *. simpl in Hone.
    rewrite (dict_set_same _ _ _ Hget) in Hone.
    destruct Hone as (Hr & Hq & _ & Hp). rewrite Hp.
    destruct d0; auto.
Qed.

End KeyedQueueMergeSame.

Lemma QueueSamples_one_list_wf : KeyedQueue_wf QueueSamples.one_list.
Proof. apply KeyedQueue_enque_wf, KeyedQueue_init_wf. Qed.

Lemma KeyedQueue_enque_deque_commute_witness :
  (KeyedQueue.deque
     (KeyedQueue.enque tuple_bool ("B"%string, QueueSamples.group_input)
        QueueSamples.one_list).2).1
  = Ok ("A"%string, QueueSamples.list_input)
  ∧ KeyedQueue.deque
      (KeyedQueue.enque tuple_bool ("B"%string, QueueSamples.group_input)
         QueueSamples.one_list).2
    = ((KeyedQueue.deque QueueSamples.one_list).1,
       (KeyedQueue.enque tuple_bool ("B"%string, QueueSamples.group_input)
          (KeyedQueue.deque QueueSamples.one_list).2).2).
Proof.
  split; [reflexivity|].
  apply (KeyedQueue_enque_deque_commute tuple_bool QueueSamples.one_list
           "B"%string QueueSamples.group_input QueueSamples_one_list_wf).
  - discriminate.
  - reflexivity.
  - reflexivity.
Defined.

Lemma KeyedQueue_empty_round_trip_witness :
  KeyedQueue.deque (KeyedQueue.__init__ (K := string) (V := Samples.pyval))
  = (Raise IndexError, KeyedQueue.__init__)
  ∧ (KeyedQueue.deque QueueSamples.one_list).1
    = Ok ("A"%string, QueueSamples.list_input)
  ∧ KeyedQueue._q (KeyedQueue.deque QueueSamples.one_list).2 = [].
Proof.
  destruct (KeyedQueue_empty_round_trip tuple_bool
              (KeyedQueue.__init__ (K := string) (V := Samples.pyval))
              "A"%string QueueSamples.list_input KeyedQueue_init_wf
              eq_refl eq_refl) as (Hempty & _ & Hback & Hq & _).
  split; [exact Hempty|]. split; [exact Hback | exact Hq].
Defined.

Lemma KeyedQueue_enque_same_pcollection_extends_witness :
  let r := KeyedQueue.enque tuple_bool
             ("A"%string,
              mkDataInput [("pc"%string, BList MoreSamples.one_record)] [])
             QueueSamples.one_list in
  r.1 = Ok tt
  ∧ KeyedQueue.__len__ r.2 = 1%nat
  ∧ KeyedQueue_pending r.2 "A"%string
    = Some (mkDataInput
              [("pc"%string,
                BList (MoreSamples.records Samples.byte_coder
                         [["a"]; ["b"]; ["c"]; ["d"; "e"];
                          ["a"; "b"; "c"]]%byte))] []).
Proof.
  cbv zeta.
  destruct (KeyedQueue_enque_same_pcollection_extends tuple_bool
              QueueSamples.one_list "A"%string QueueSamples.list_input
              "pc"%string MoreSamples.four_records MoreSamples.one_record
              eq_refl eq_refl eq_refl eq_refl eq_refl)
    as (Hr & Hq & _ & Hp).
  split; [exact Hr|]. split; [|exact Hp].
  unfold KeyedQueue.__len__. rewrite Hq. reflexivity.
Defined.

Lemma KeyedQueue_enque_mixed_classes_witness :
  (let r := KeyedQueue.enque tuple_bool
              ("A"%string, QueueSamples.group_input) QueueSamples.one_list in
   r.1 = Raise (AssertionError "")
   ∧ KeyedQueue_pending r.2 "A"%string = Some QueueSamples.list_input)
  ∧ (let r := KeyedQueue.enque tuple_bool
                ("G"%string, QueueSamples.list_input)
                QueueSamples.one_group in
     r.1 = Ok tt
     ∧ KeyedQueue_pending r.2 "G"%string = Some QueueSamples.group_input).
Proof.
  cbv zeta. split.
  - destruct (KeyedQueue_enque_mixed_classes tuple_bool
                QueueSamples.one_list "A"%string QueueSamples.list_input
                "pc"%string MoreSamples.four_records GroupSamples.kv_jk
                eq_refl) as [Hraise _].
    destruct (Hraise eq_refl eq_refl eq_refl eq_refl) as (Hr & _ & Hp).
    split; [exact Hr | exact Hp].
  - destruct (KeyedQueue_enque_mixed_classes tuple_bool
                QueueSamples.one_group "G"%string QueueSamples.group_input
                "pc"%string MoreSamples.four_records GroupSamples.kv_jk
                eq_refl) as [_ Hdrop].
    destruct (Hdrop eq_refl eq_refl) as (Hr & _ & Hp).
    split; [exact Hr | exact Hp].
Defined.

(** ** More on seeding the queues *)

Section EnqueueInitialInputsExtra.
Context {V : Type} `{WindowedValues V}.
Variable DataInput_bool : DataInput V -> bool.
Variable DATA_INPUT_URN DATA_OUTPUT_URN : string.
Variable PAR_DO_URNS : list string.
Variable IMPULSE_BUFFER ENCODED_IMPULSE_VALUE : bytes.
Variable MAX_TIMESTAMP : Z.
Variable only_element : list string -> res string.
Variable side_inputs_of : bytes -> res (list string).
Variable grpc_payload : string -> string -> res bytes.

Local Abbreviation visit_transform :=
  (FnApiRunnerExecutionContext.visit_transform DATA_INPUT_URN DATA_OUTPUT_URN
     PAR_DO_URNS IMPULSE_BUFFER ENCODED_IMPULSE_VALUE only_element
     side_inputs_of grpc_payload).
Local Abbreviation visit_transforms :=
  (FnApiRunnerExecutionContext.visit_transforms DATA_INPUT_URN DATA_OUTPUT_URN
     PAR_DO_URNS IMPULSE_BUFFER ENCODED_IMPULSE_VALUE only_element
     side_inputs_of grpc_payload).
Local Abbreviation _enqueue_stage_initial_inputs :=
  (FnApiRunnerExecutionContext._enqueue_stage_initial_inputs DataInput_bool
     DATA_INPUT_URN DATA_OUTPUT_URN PAR_DO_URNS IMPULSE_BUFFER
     ENCODED_IMPULSE_VALUE MAX_TIMESTAMP only_element side_inputs_of
     grpc_payload).
Local Abbreviation is_impulse_read :=
  (FnApiRunnerExecutionContext.is_impulse_read DATA_INPUT_URN IMPULSE_BUFFER).

Implicit Types (self : FnApiRunnerExecutionContext.FnApiRunnerExecutionContext V)
  (t : PTransform) (data_input : list (string * Buffer V)).

(** X17.  Whatever it returns, [_enqueue_stage_initial_inputs] leaves the
    time-pending queue, the coder tables, the windowing strategies and the
    handle table of the context as they are, changes at most one of the
    ready and watermark-pending queues, and keeps the name of the stage. *)
Theorem enqueue_stage_initial_inputs_frame stage self :
  let r := _enqueue_stage_initial_inputs stage self in
  let q := FnApiRunnerExecutionContext.queues self in
  let q' := FnApiRunnerExecutionContext.queues r.2.2 in
  name r.2.1 = name stage
  ∧ _ProcessingQueueManager.time_pending_inputs q'
    = _ProcessingQueueManager.time_pending_inputs q
  ∧ (_ProcessingQueueManager.ready_inputs q'
     = _ProcessingQueueManager.ready_inputs q
     ∨ _ProcessingQueueManager.watermark_pending_inputs q'
       = _ProcessingQueueManager.watermark_pending_inputs q)
  ∧ FnApiRunnerExecutionContext.set_queues q r.2.2 = self.
Proof.
  cbv zeta.
  unfold FnApiRunnerExecutionContext._enqueue_stage_initial_inputs.
  destruct (visit_transforms self (name stage) (transforms stage) ([], true))
    as [[[data_input ready]| |] ts']; simpl;
    try (destruct self as [[]]; simpl; auto).
  destruct data_input as [|entry data_input]; simpl; [auto|].
  destruct ready.
  - destruct (KeyedQueue.enque DataInput_bool _ _) as [r ready']. simpl. auto.
  - destruct (KeyedQueue.enque DataInput_bool _ _) as [r pending']. simpl.
    auto.
Qed.

Lemma visit_transform_rewrites self stage_name t acc t' acc' :
  visit_transform self stage_name t acc = Ok (t', acc') →
  unique_name t' = unique_name t
  ∧ urn (spec t') = urn (spec t)
  ∧ inputs t' = inputs t
  ∧ outputs t' = outputs t
  ∧ (urn (spec t) ∈ [DATA_INPUT_URN; DATA_OUTPUT_URN] →
     ∃ coder_id, grpc_payload stage_name coder_id = Ok (payload (spec t')))
  ∧ (urn (spec t) ∉ [DATA_INPUT_URN; DATA_OUTPUT_URN] → t' = t).
Proof.
  unfold FnApiRunnerExecutionContext.visit_transform.
  destruct acc as [data_input ready].
  case_bool_decide as Hdata.
  - assert (Hgrpc : ∀ coder_id (di : list (string * Buffer V)),
      match grpc_payload stage_name coder_id with
      | Ok p =>
          Ok (FnApiRunnerExecutionContext.set_payload p t, (di, ready))
      | Raise e => Raise e
      | Diverge => Diverge
      end = Ok (t', acc') →
      unique_name t' = unique_name t
      ∧ urn (spec t') = urn (spec t)
      ∧ inputs t' = inputs t
      ∧ outputs t' = outputs t
      ∧ (urn (spec t) ∈ [DATA_INPUT_URN; DATA_OUTPUT_URN] →
         ∃ coder_id, grpc_payload stage_name coder_id
                     = Ok (payload (spec t')))
      ∧ (urn (spec t) ∉ [DATA_INPUT_URN; DATA_OUTPUT_URN] → t' = t)).
    { intros coder_id di.
      destruct (grpc_payload stage_name coder_id) as [p| |] eqn:Hp;
        try discriminate.
      intros [= <- <-]. simpl. repeat split; auto; [eauto|].
      intros Hnot. contradiction. }
    case_bool_decide as Hin.
    + destruct (only_element _) as [pcoll| |]; try discriminate.
      destruct (FnApiRunnerExecutionContext.getitem _ _) as [coder_id| |];
        try discriminate.
      destruct (FnApiRunnerExecutionContext.pipeline_context_coders _ _)
        as [coder_impl| |]; try discriminate.
      case_bool_decide as Himp; simpl; apply Hgrpc.
    + destruct (only_element _) as [pcoll| |]; try discriminate.
      destruct (FnApiRunnerExecutionContext.getitem _ _) as [coder_id| |];
        try discriminate.
      apply Hgrpc.
  - case_bool_decide as Hpardo.
    + destruct (side_inputs_of (payload (spec t))) as [side_inputs| |];
        try discriminate.
      intros [= <- <-]. repeat split; auto. intros Hc. contradiction.
    + intros [= <- <-]. repeat split; auto. intros Hc. contradiction.
Qed.

Lemma visit_transforms_rewrites self stage_name ts acc acc' ts' :
  visit_transforms self stage_name ts acc = (Ok acc', ts') →
  Forall2
    (fun t t' =>
       unique_name t' = unique_name t
       ∧ urn (spec t') = urn (spec t)
       ∧ inputs t' = inputs t
       ∧ outputs t' = outputs t
       ∧ (urn (spec t) ∈ [DATA_INPUT_URN; DATA_OUTPUT_URN] →
          ∃ coder_id, grpc_payload stage_name coder_id
                      = Ok (payload (spec t')))
       ∧ (urn (spec t) ∉ [DATA_INPUT_URN; DATA_OUTPUT_URN] → t' = t))
    ts ts'.
Proof.
  revert acc ts'. induction ts as [|t ts IH]; intros acc ts';
    cbn [FnApiRunnerExecutionContext.visit_transforms].
  - intros [= <- <-]. constructor.
  - destruct (visit_transform self stage_name t acc) as [[t1 acc1]| |]
      eqn:Hone; try discriminate.
    destruct (visit_transforms self stage_name ts acc1) as [r more'] eqn:Hmore.
    intros [= -> <-]. constructor.
    + exact (visit_transform_rewrites _ _ _ _ _ _ Hone).
    + exact (IH _ _ Hmore).
Qed.

(** X18.  When [_enqueue_stage_initial_inputs] returns, the stage has the
    same transforms in the same order, with their names, URNs, inputs and
    outputs; the payload of every [DATA_INPUT] and [DATA_OUTPUT] transform
    has been replaced by the serialized data-channel port of its coder, and
    every other transform is untouched. *)
Theorem enqueue_stage_initial_inputs_rewrites_payloads stage self stage'
    self' :
  _enqueue_stage_initial_inputs stage self = (Ok tt, (stage', self')) →
  Forall2
    (fun t t' =>
       unique_name t' = unique_name t
       ∧ urn (spec t') = urn (spec t)
       ∧ inputs t' = inputs t
       ∧ outputs t' = outputs t
       ∧ (urn (spec t) ∈ [DATA_INPUT_URN; DATA_OUTPUT_URN] →
          ∃ coder_id, grpc_payload (name stage) coder_id
                      = Ok (payload (spec t')))
       ∧ (urn (spec t) ∉ [DATA_INPUT_URN; DATA_OUTPUT_URN] → t' = t))
    (transforms stage) (transforms stage').
Proof.
  unfold FnApiRunnerExecutionContext._enqueue_stage_initial_inputs.
  destruct (visit_transforms self (name stage) (transforms stage) ([], true))
    as [[[data_input ready]| |] ts'] eqn:Hloop; try discriminate.
  pose proof (visit_transforms_rewrites _ _ _ _ _ _ Hloop) as Hrw.
  destruct data_input as [|entry data_input].
  - intros [= <- _]. exact Hrw.
  - destruct ready.
    + destruct (KeyedQueue.enque DataInput_bool _ _) as [r ready'].
      intros [= _ <- _]. exact Hrw.
    + destruct (KeyedQueue.enque DataInput_bool _ _) as [r pending'].
      intros [= _ <- _]. exact Hrw.
Qed.


End EnqueueInitialInputsExtra.

Lemma enqueue_stage_initial_inputs_rewrites_payloads_witness :
  let after_A :=
    Samples.enqueue_initial_inputs Samples.stage_A Samples.context in
  after_A.1 = Ok tt
  ∧ Forall2
      (fun t t' =>
         unique_name t' = unique_name t
         ∧ urn (spec t') = urn (spec t)
         ∧ inputs t' = inputs t
         ∧ outputs t' = outputs t
         ∧ (urn (spec t) ∈ [Samples.DATA_INPUT_URN; Samples.DATA_OUTPUT_URN] →
            ∃ coder_id, Samples.grpc_payload "A" coder_id
                        = Ok (payload (spec t')))
         ∧ (urn (spec t) ∉ [Samples.DATA_INPUT_URN; Samples.DATA_OUTPUT_URN] →
            t' = t))
      (transforms Samples.stage_A) (transforms after_A.2.1).
Proof.
  cbv zeta.
  set (after_A := Samples.enqueue_initial_inputs Samples.stage_A
                    Samples.context).
  assert (Hrun : after_A = (Ok tt, (after_A.2.1, after_A.2.2)))
    by reflexivity.
  split; [reflexivity|].
  exact (enqueue_stage_initial_inputs_rewrites_payloads
           (V := Samples.pyval) tuple_bool
           Samples.DATA_INPUT_URN Samples.DATA_OUTPUT_URN Samples.PAR_DO_URNS
           Samples.IMPULSE_BUFFER Samples.ENCODED_IMPULSE_VALUE
           Samples.MAX_TIMESTAMP Samples.only_element Samples.side_inputs_of
           Samples.grpc_payload Samples.stage_A Samples.context _ _ Hrun).
Defined.


(** ** More on safe windowing strategies *)

Section SafeIds.

Lemma list_ascii_of_string_app (s1 s2 : string) :
  String.list_ascii_of_string (s1 +:+ s2)
  = String.list_ascii_of_string s1 ++ String.list_ascii_of_string s2.
Proof.
  induction s1 as [|a s1 IH]; [reflexivity|].
  change (a :: String.list_ascii_of_string (s1 +:+ s2)
          = a :: (String.list_ascii_of_string s1 ++ String.list_ascii_of_string s2)).
  f_equal. exact IH.
Qed.

Lemma list_ascii_of_underscores k :
  String.list_ascii_of_string (underscores k) = replicate k "_"%char.
Proof.
  induction k as [|k IH]; [reflexivity|].
  change (String.list_ascii_of_string (underscores (S k)))
    with ("_"%char :: String.list_ascii_of_string (underscores k)).
  simpl. f_equal. exact IH.
Qed.

Lemma replicate_cons_inj {A : Type} (u e : A) k1 k2 (l1 l2 : list A) :
  u ≠ e →
  replicate k1 u ++ e :: l1 = replicate k2 u ++ e :: l2 →
  k1 = k2 ∧ l1 = l2.
Proof.
  intros Hne. revert k2. induction k1 as [|k1 IH]; intros [|k2]; simpl.
  - intros [= <-]. auto.
  - intros [= Heq _]. congruence.
  - intros [= Heq _]. congruence.
  - intros [= Heq]. destruct (IH _ Heq) as [-> ->]. auto.
Qed.

(** The candidates of two ids never meet. *)
Lemma safe_id_inj (id1 id2 : string) k1 k2 :
  (id1 +:+ "_safe") +:+ underscores k1 = (id2 +:+ "_safe") +:+ underscores k2 →
  id1 = id2 ∧ k1 = k2.
Proof.
  intros Heq. apply (f_equal String.list_ascii_of_string) in Heq.
  rewrite !list_ascii_of_string_app, !list_ascii_of_underscores in Heq.
  apply (f_equal (@reverse _)) in Heq.
  rewrite !reverse_app, !reverse_replicate in Heq.
  change (reverse (String.list_ascii_of_string "_safe"))
    with ["e"; "f"; "a"; "s"; "_"]%char in Heq.
  simpl in Heq.
  apply replicate_cons_inj in Heq as [-> Heq]; [|discriminate].
  injection Heq as Heq. apply (inj reverse) in Heq.
  split; [|reflexivity].
  rewrite <- (String.string_of_list_ascii_of_string id1),
          <- (String.string_of_list_ascii_of_string id2), Heq.
  reflexivity.
Qed.

Lemma free_safe_id_least fuel (ws : gmap string WindowingStrategy) s r :
  FnApiRunnerExecutionContext.free_safe_id fuel ws s = Ok r →
  ∃ k, r = s +:+ underscores k
       ∧ (k ≤ fuel)%nat
       ∧ ws !! r = None
       ∧ ∀ j, (j < k)%nat → is_Some (ws !! (s +:+ underscores j)).
Proof.
  revert s. induction fuel as [|fuel IH]; intros s; simpl;
    destruct (ws !! s) eqn:Hs; try discriminate.
  - intros [= <-]. exists O. rewrite string_app_empty.
    repeat split; auto. intros j Hj. lia.
  - intros Hrec. destruct (IH _ Hrec) as (k & -> & Hk & Hnone & Hbelow).
    exists (S k). split; [apply string_app_assoc|].
    split; [lia|]. split; [exact Hnone|].
    intros [|j] Hj.
    + simpl. rewrite string_app_empty, Hs. eauto.
    + simpl. rewrite <- string_app_assoc. apply Hbelow. lia.
  - intros [= <-]. exists O. rewrite string_app_empty.
    repeat split; auto; [lia|]. intros j Hj. lia.
Qed.

End SafeIds.

Section SafeWindowingStrategiesExtra.
Context {V : Type}.
Variable known_urns : list string.
Variable PICKLED_WINDOWFN : string.
Variable uuid4_hex : nat -> string.

Local Abbreviation SAFE_WINDOW_FNS :=
  (FnApiRunnerExecutionContext.SAFE_WINDOW_FNS known_urns PICKLED_WINDOWFN).
Local Abbreviation _make_safe_windowing_strategy :=
  (FnApiRunnerExecutionContext._make_safe_windowing_strategy (V := V)
     known_urns PICKLED_WINDOWFN uuid4_hex).
Local Abbreviation make_safe_windowing_strategies :=
  (FnApiRunnerExecutionContext.make_safe_windowing_strategies (V := V)
     known_urns PICKLED_WINDOWFN uuid4_hex).
Local Abbreviation components :=
  FnApiRunnerExecutionContext.pipeline_components_windowing_strategies.
Local Abbreviation registered :=
  FnApiRunnerExecutionContext.pipeline_context_windowing_strategies.

Implicit Types
  (self : FnApiRunnerExecutionContext.FnApiRunnerExecutionContext V)
  (id safe_id : string) (proto : WindowingStrategy).

(** X20.  For a strategy whose window function is not safe and whose merge
    status is supported, the loop that looks for a free id ends, and the id
    returned is [id + "_safe"] followed by the least number of underscores
    that gives an id the pipeline does not use; that number is at most the
    number of strategies of the pipeline. *)
Theorem make_safe_windowing_strategy_first_free_id id self proto :
  components self !! id = Some proto →
  urn (window_fn proto) ∉ SAFE_WINDOW_FNS →
  merge_status proto = NON_MERGING ∨ merge_status proto = NEEDS_MERGE →
  ∃ k,
    (_make_safe_windowing_strategy id self).1
    = Ok ((id +:+ "_safe") +:+ underscores k)
    ∧ (k ≤ size (components self))%nat
    ∧ components self !! ((id +:+ "_safe") +:+ underscores k) = None
    ∧ ∀ j, (j < k)%nat →
           is_Some (components self !! ((id +:+ "_safe") +:+ underscores j)).
Proof.
  intros Hid Hunsafe Hstatus.
  unfold FnApiRunnerExecutionContext._make_safe_windowing_strategy.
  rewrite Hid, bool_decide_eq_false_2 by exact Hunsafe.
  destruct (free_safe_id_returns (components self) (id +:+ "_safe"))
    as [r Hr].
  rewrite Hr.
  destruct (free_safe_id_least _ _ _ _ Hr) as (k & -> & Hk & Hnone & Hbelow).
  exists k.
  destruct Hstatus as [-> | ->]; simpl; auto.
Qed.

(** X21.  In that case the strategy registered under the returned id is the
    original one with its window function replaced: merge status, window
    coder and environment are kept.  For [NON_MERGING] the new window
    function is the generic non-merging adapter with the window coder id as
    payload, and no handle is created.  For [NEEDS_MERGE] it is the generic
    merging adapter with a handle id as payload, and the handle table maps
    that handle to the original strategy.  Queues, coders and the
    strategies of the pipeline are not touched. *)
Theorem make_safe_windowing_strategy_rewritten_strategy id self proto :
  components self !! id = Some proto →
  urn (window_fn proto) ∉ SAFE_WINDOW_FNS →
  merge_status proto = NON_MERGING ∨ merge_status proto = NEEDS_MERGE →
  let r := _make_safe_windowing_strategy id self in
  ∃ safe_id safe_proto,
    r.1 = Ok safe_id
    ∧ registered r.2 !! safe_id = Some safe_proto
    ∧ merge_status safe_proto = merge_status proto
    ∧ window_coder_id safe_proto = window_coder_id proto
    ∧ environment_id safe_proto = environment_id proto
    ∧ (merge_status proto = NON_MERGING →
       window_fn safe_proto
       = mkFunctionSpec GenericNonMergingWindowFn_URN
           (encode_utf8 (window_coder_id proto))
       ∧ FnApiRunnerExecutionContext._HANDLES r.2
         = FnApiRunnerExecutionContext._HANDLES self)
    ∧ (merge_status proto = NEEDS_MERGE →
       ∃ handle_id,
         window_fn safe_proto
         = mkFunctionSpec GenericMergingWindowFn_URN (encode_utf8 handle_id)
         ∧ FnApiRunnerExecutionContext._HANDLES r.2 !! handle_id
           = Some proto)
    ∧ FnApiRunnerExecutionContext.queues r.2
      = FnApiRunnerExecutionContext.queues self
    ∧ FnApiRunnerExecutionContext.data_channel_coders r.2
      = FnApiRunnerExecutionContext.data_channel_coders self
    ∧ FnApiRunnerExecutionContext.safe_coders r.2
      = FnApiRunnerExecutionContext.safe_coders self
    ∧ components r.2 = components self.
Proof.
  intros Hid Hunsafe Hstatus. cbv zeta.
  unfold FnApiRunnerExecutionContext._make_safe_windowing_strategy.
  rewrite Hid, bool_decide_eq_false_2 by exact Hunsafe.
  destruct (free_safe_id_returns (components self) (id +:+ "_safe"))
    as [r Hr].
  rewrite Hr.
  destruct Hstatus as [Hs | Hs]; rewrite Hs; simpl.
  - eexists r, _. split; [reflexivity|].
    unfold FnApiRunnerExecutionContext.put_proto.
    split; [apply lookup_insert_eq|]. simpl.
    do 3 (split; [auto|]).
    split; [intros _; split; reflexivity|].
    split; [intros [=]|]. auto.
  - eexists r, _. split; [reflexivity|].
    unfold FnApiRunnerExecutionContext.put_proto.
    split; [apply lookup_insert_eq|]. simpl.
    do 3 (split; [auto|]).
    split; [intros [=]|].
    split; [|auto].
    intros _. eexists. split; [reflexivity|]. apply lookup_insert_eq.
Qed.

(** The shape of an answer: the id itself, an id of the pipeline, or a
    candidate that is not one. *)
Lemma make_safe_windowing_strategy_shape id self s self' :
  _make_safe_windowing_strategy id self = (Ok s, self') →
  (s = id ∧ is_Some (components self !! id))
  ∨ (∃ k, s = (id +:+ "_safe") +:+ underscores k)
    ∧ components self !! s = None.
Proof.
  unfold FnApiRunnerExecutionContext._make_safe_windowing_strategy.
  destruct (components self !! id) as [proto|] eqn:Hid; [|discriminate].
  case_bool_decide as Hsafe.
  - intros [= <- <-]. left. eauto.
  - destruct (FnApiRunnerExecutionContext.free_safe_id _ _ _) as [r| |]
      eqn:Hr; try discriminate.
    destruct (free_safe_id_Ok _ _ _ _ Hr) as [Hnone Hk].
    destruct (merge_status proto); try discriminate;
      intros [= <- <-]; right; auto.
Qed.

Lemma make_safe_windowing_strategies_shape ids self table self' :
  make_safe_windowing_strategies ids self = (Ok table, self') →
  ∀ id s, (id, s) ∈ table →
    (s = id ∧ is_Some (components self !! id))
    ∨ (∃ k, s = (id +:+ "_safe") +:+ underscores k)
      ∧ components self !! s = None.
Proof.
  revert self table self'.
  induction ids as [|id0 ids IH]; intros self table self';
    cbn [FnApiRunnerExecutionContext.make_safe_windowing_strategies].
  - intros [= <- <-] id s Hin. inversion Hin.
  - destruct (_make_safe_windowing_strategy id0 self) as [[s0| |] self1]
      eqn:Hone; try discriminate.
    destruct (make_safe_windowing_strategies ids self1)
      as [[entries| |] self2] eqn:Hmore; try discriminate.
    intros [= <- <-] id s Hin.
    apply elem_of_cons in Hin as [[= -> ->]|Hin].
    + exact (make_safe_windowing_strategy_shape _ _ _ _ Hone).
    + pose proof (make_safe_windowing_strategy_frame known_urns
                    PICKLED_WINDOWFN uuid4_hex id0 self) as [Hc _].
      rewrite Hone in Hc. simpl in Hc. rewrite <- Hc.
      exact (IH _ _ _ Hmore _ _ Hin).
Qed.

(** X22.  The table [safe_windowing_strategies] never gives two different
    strategies of the pipeline the same safe id. *)
Theorem make_safe_windowing_strategies_injective ids self table self' id1 id2
    s :
  make_safe_windowing_strategies ids self = (Ok table, self') →
  (id1, s) ∈ table →
  (id2, s) ∈ table →
  id1 = id2.
Proof.
  intros Hrun H1 H2.
  pose proof (make_safe_windowing_strategies_shape _ _ _ _ Hrun) as Hshape.
  destruct (Hshape _ _ H1) as [[-> Hin1]|[[k1 Hk1] Hnone1]];
    destruct (Hshape _ _ H2) as [[Heq Hin2]|[[k2 Hk2] Hnone2]].
  - exact Heq.
  - rewrite Hnone2 in Hin1. destruct Hin1 as [? [=]].
  - rewrite <- Heq, Hnone1 in Hin2. destruct Hin2 as [? [=]].
  - rewrite Hk1 in Hk2. apply safe_id_inj in Hk2 as [-> _]. reflexivity.
Qed.

End SafeWindowingStrategiesExtra.

Lemma make_safe_windowing_strategy_first_free_id_witness :
  let self := Samples.context_with Samples.strategies in
  ∃ k,
    (Samples.make_safe "w" self).1
    = Ok (("w" +:+ "_safe") +:+ underscores k)
    ∧ (k ≤ size Samples.strategies)%nat
    ∧ Samples.strategies !! (("w" +:+ "_safe") +:+ underscores k) = None
    ∧ ∀ j, (j < k)%nat →
           is_Some (Samples.strategies
                      !! (("w" +:+ "_safe") +:+ underscores j)).
Proof.
  cbv zeta.
  exact (make_safe_windowing_strategy_first_free_id (V := Samples.pyval)
           Samples.known_urns Samples.PICKLED_WINDOWFN Samples.uuid4_hex
           "w" (Samples.context_with Samples.strategies)
           (Samples.custom_strategy NON_MERGING) eq_refl
           Samples_custom_not_safe (or_introl eq_refl)).
Defined.

Lemma make_safe_windowing_strategy_rewritten_strategy_witness :
  let self := Samples.context_with Samples.strategies in
  let r := Samples.make_safe "m" self in
  r.1 = Ok "m_safe"%string
  ∧ ∃ safe_id safe_proto,
      r.1 = Ok safe_id
      ∧ FnApiRunnerExecutionContext.pipeline_context_windowing_strategies r.2
          !! safe_id = Some safe_proto
      ∧ merge_status safe_proto = NEEDS_MERGE
      ∧ (∃ handle_id,
           window_fn safe_proto
           = mkFunctionSpec GenericMergingWindowFn_URN
               (encode_utf8 handle_id)
           ∧ FnApiRunnerExecutionContext._HANDLES r.2 !! handle_id
             = Some (Samples.custom_strategy NEEDS_MERGE)).
Proof.
  cbv zeta. split; [reflexivity|].
  destruct (make_safe_windowing_strategy_rewritten_strategy
              (V := Samples.pyval)
              Samples.known_urns Samples.PICKLED_WINDOWFN Samples.uuid4_hex
              "m" (Samples.context_with Samples.strategies)
              (Samples.custom_strategy NEEDS_MERGE) eq_refl
              Samples_custom_not_safe (or_intror eq_refl))
    as (safe_id & safe_proto & Hres & Hreg & Hstatus & _ & _ & _ & Hmerge & _).
  exists safe_id, safe_proto.
  split; [exact Hres|]. split; [exact Hreg|]. split; [exact Hstatus|].
  exact (Hmerge eq_refl).
Defined.

Lemma make_safe_windowing_strategies_injective_witness :
  let self := Samples.context_with Samples.strategies in
  let run :=
    FnApiRunnerExecutionContext.make_safe_windowing_strategies
      Samples.known_urns Samples.PICKLED_WINDOWFN Samples.uuid4_hex
      ["global"%string; "w"%string; "m"%string] self in
  run.1 = Ok [("global", "global"); ("w", "w_safe_"); ("m", "m_safe")]%string
  ∧ ∀ id, (id, "w_safe_"%string)
            ∈ [("global", "global"); ("w", "w_safe_"); ("m", "m_safe")]%string →
          id = "w"%string.
Proof.
  cbv zeta.
  set (run := FnApiRunnerExecutionContext.make_safe_windowing_strategies
                Samples.known_urns Samples.PICKLED_WINDOWFN Samples.uuid4_hex
                ["global"%string; "w"%string; "m"%string]
                (Samples.context_with Samples.strategies)).
  assert (Hrun : run
                 = (Ok [("global", "global"); ("w", "w_safe_");
                        ("m", "m_safe")]%string, run.2))
    by reflexivity.
  split; [reflexivity|].
  intros id Hin.
  refine (make_safe_windowing_strategies_injective (V := Samples.pyval)
            Samples.known_urns Samples.PICKLED_WINDOWFN Samples.uuid4_hex
            _ _ _ _ id "w" "w_safe_" Hrun _ _).
  - exact Hin.
  - right. left.
Defined.

(** ** Setting up a pipeline *)

Section Setup.
Context {V : Type}.
Variable DATA_INPUT_URN DATA_OUTPUT_URN : string.
Variable PAR_DO_URNS : list string.
Variable IMPULSE_BUFFER ENCODED_IMPULSE_VALUE : bytes.
Variable MAX_TIMESTAMP : Z.
Variable only_element : list string -> res string.
Variable side_inputs_of : bytes -> res (list string).
Variable grpc_payload : string -> string -> res bytes.
Hypothesis DATA_INPUT_URN_not_par_do : DATA_INPUT_URN ∉ PAR_DO_URNS.
Hypothesis DATA_OUTPUT_URN_not_par_do : DATA_OUTPUT_URN ∉ PAR_DO_URNS.

Local Abbreviation visit_transforms :=
  (FnApiRunnerExecutionContext.visit_transforms DATA_INPUT_URN DATA_OUTPUT_URN
     PAR_DO_URNS IMPULSE_BUFFER ENCODED_IMPULSE_VALUE only_element
     side_inputs_of grpc_payload).
Local Abbreviation _enqueue_stage_initial_inputs :=
  (FnApiRunnerExecutionContext._enqueue_stage_initial_inputs (V := V)
     tuple_bool DATA_INPUT_URN DATA_OUTPUT_URN PAR_DO_URNS IMPULSE_BUFFER
     ENCODED_IMPULSE_VALUE MAX_TIMESTAMP only_element side_inputs_of
     grpc_payload).
Local Abbreviation setup :=
  (FnApiRunnerExecutionContext.setup (V := V)
     tuple_bool DATA_INPUT_URN DATA_OUTPUT_URN PAR_DO_URNS IMPULSE_BUFFER
     ENCODED_IMPULSE_VALUE MAX_TIMESTAMP only_element side_inputs_of
     grpc_payload).
Local Abbreviation is_impulse_read :=
  (FnApiRunnerExecutionContext.is_impulse_read DATA_INPUT_URN IMPULSE_BUFFER).
Local Abbreviation declares_side_inputs :=
  (FnApiRunnerExecutionContext.declares_side_inputs PAR_DO_URNS
     side_inputs_of).
Local Abbreviation reads_impulse :=
  (FnApiRunnerExecutionContext.reads_impulse DATA_INPUT_URN IMPULSE_BUFFER).
Local Abbreviation has_side_inputs :=
  (FnApiRunnerExecutionContext.has_side_inputs PAR_DO_URNS side_inputs_of).
Local Abbreviation queues := FnApiRunnerExecutionContext.queues.
Local Abbreviation ready_inputs := _ProcessingQueueManager.ready_inputs.
Local Abbreviation watermark_pending_inputs :=
  _ProcessingQueueManager.watermark_pending_inputs.
Local Abbreviation time_pending_inputs :=
  _ProcessingQueueManager.time_pending_inputs.

Implicit Types
  (self : FnApiRunnerExecutionContext.FnApiRunnerExecutionContext V)
  (stage : Stage) (stages : list (string * Stage)).

Lemma reads_impulse_spec stage :
  reads_impulse stage = true
  ↔ ∃ t, t ∈ transforms stage ∧ is_impulse_read t.
Proof.
  unfold FnApiRunnerExecutionContext.reads_impulse,
    FnApiRunnerExecutionContext.is_impulse_read.
  rewrite existsb_exists. split.
  - intros (t & Ht & Hb). apply andb_true_iff in Hb as [Hu Hp].
    apply bool_decide_eq_true in Hu, Hp.
    exists t. split; [apply list_elem_of_In; exact Ht | auto].
  - intros (t & Ht & Hu & Hp). exists t.
    split; [apply list_elem_of_In; exact Ht|].
    apply andb_true_iff. split; apply bool_decide_eq_true; assumption.
Qed.

Lemma has_side_inputs_spec stage :
  has_side_inputs stage = true
  ↔ ∃ t, t ∈ transforms stage ∧ declares_side_inputs t.
Proof.
  unfold FnApiRunnerExecutionContext.has_side_inputs,
    FnApiRunnerExecutionContext.declares_side_inputs.
  rewrite existsb_exists. split.
  - intros (t & Ht & Hb). apply andb_true_iff in Hb as [Hu Hp].
    apply bool_decide_eq_true in Hu.
    exists t. split; [apply list_elem_of_In; exact Ht|].
    split; [exact Hu|].
    destruct (side_inputs_of (payload (spec t))) as [[|si sis]| |];
      try discriminate Hp.
    exists (si :: sis). split; [reflexivity | discriminate].
  - intros (t & Ht & Hu & sis & Hs & Hne). exists t.
    split; [apply list_elem_of_In; exact Ht|].
    apply andb_true_iff. split; [apply bool_decide_eq_true; exact Hu|].
    rewrite Hs. destruct sis; [contradiction | reflexivity].
Qed.

(** One round of the loop of [setup], by the class of the stage. *)
Lemma enqueue_stage_initial_inputs_step stage self stage' self' :
  _enqueue_stage_initial_inputs stage self = (Ok tt, (stage', self')) →
  time_pending_inputs (queues self') = time_pending_inputs (queues self)
  ∧ if reads_impulse stage then
      if has_side_inputs stage then
        ready_inputs (queues self') = ready_inputs (queues self)
        ∧ ∃ d, watermark_pending_inputs (queues self')
               = (KeyedQueue.enque tuple_bool ((name stage, MAX_TIMESTAMP), d)
                    (watermark_pending_inputs (queues self))).2
      else
        watermark_pending_inputs (queues self')
        = watermark_pending_inputs (queues self)
        ∧ ∃ d, ready_inputs (queues self')
               = (KeyedQueue.enque tuple_bool (name stage, d)
                    (ready_inputs (queues self))).2
    else queues self' = queues self.
Proof.
  unfold FnApiRunnerExecutionContext._enqueue_stage_initial_inputs.
  destruct (visit_transforms self (name stage) (transforms stage) ([], true))
    as [[[data_input ready]| |] ts'] eqn:Hloop; try discriminate.
  destruct (visit_transforms_effect _ _ _ _ _ _ _ _
              DATA_INPUT_URN_not_par_do DATA_OUTPUT_URN_not_par_do
              _ _ _ _ _ _ _ _ Hloop)
    as (Hnil & Hready & _).
  assert (Himp : reads_impulse stage = true ↔ data_input ≠ []).
  { rewrite reads_impulse_spec. split.
    - intros (t & Ht & Hi) Hd. apply Hnil in Hd as [_ Hno].
      exact (Hno t Ht Hi).
    - intros Hd. destruct (reads_impulse stage) eqn:Hr.
      + apply reads_impulse_spec. exact Hr.
      + exfalso. apply Hd, Hnil. split; [reflexivity|].
        intros t Ht Hi.
        assert (reads_impulse stage = true) as Hr'
          by (apply reads_impulse_spec; eauto).
        congruence. }
  assert (Hside : has_side_inputs stage = true ↔ ready = false).
  { rewrite has_side_inputs_spec. split.
    - intros (t & Ht & Hd). destruct ready; [|reflexivity].
      destruct Hready as [Hready _].
      destruct (Hready eq_refl) as [_ Hno]. destruct (Hno t Ht Hd).
    - intros ->. destruct (has_side_inputs stage) eqn:Hs.
      + apply has_side_inputs_spec. exact Hs.
      + exfalso. destruct Hready as [_ Hready].
        assert (false = true) as Hc; [|discriminate Hc].
        apply Hready. split; [reflexivity|]. intros t Ht Hd.
        assert (has_side_inputs stage = true) as Hs'
          by (apply has_side_inputs_spec; eauto).
        congruence. }
  destruct data_input as [|entry data_input].
  - intros [= _ <-].
    destruct (reads_impulse stage); [|auto].
    destruct Himp as [Himp _]. destruct (Himp eq_refl eq_refl).
  - assert (Hr : reads_impulse stage = true) by (apply Himp; discriminate).
    rewrite Hr. destruct ready.
    + assert (Hs : has_side_inputs stage = false).
      { destruct (has_side_inputs stage); [|reflexivity].
        destruct Hside as [Hside _]. discriminate (Hside eq_refl). }
      rewrite Hs.
      destruct (KeyedQueue.enque tuple_bool _ _) as [r ready'] eqn:Henq.
      intros [= _ _ <-]. simpl. split; [reflexivity|].
      split; [reflexivity|]. eexists. rewrite Henq. reflexivity.
    + assert (Hs : has_side_inputs stage = true) by (apply Hside; reflexivity).
      rewrite Hs.
      destruct (KeyedQueue.enque tuple_bool _ _) as [r pending'] eqn:Henq.
      intros [= _ _ <-]. simpl. split; [reflexivity|].
      split; [reflexivity|]. eexists. rewrite Henq. reflexivity.
Qed.

Lemma KeyedQueue_wf_absent {K : Type} `{Countable K}
    (q : KeyedQueue.KeyedQueue K V) (key : K) :
  KeyedQueue_wf q →
  key ∉ map fst (KeyedQueue._q q) →
  KeyedQueue._keyed_elements q !! key = None.
Proof.
  intros (_ & _ & Hidx & _) Hout.
  destruct (KeyedQueue._keyed_elements q !! key) as [e|] eqn:He;
    [|reflexivity].
  exfalso. apply Hout. apply Hidx in He as [Hin <-].
  apply list_elem_of_fmap. exists e. auto.
Qed.

Lemma KeyedQueue_enque_new_keys {K : Type} `{Countable K}
    (q : KeyedQueue.KeyedQueue K V) (key : K) (d : DataInput V) :
  KeyedQueue_wf q →
  key ∉ map fst (KeyedQueue._q q) →
  map fst (KeyedQueue._q (KeyedQueue.enque tuple_bool (key, d) q).2)
  = key :: map fst (KeyedQueue._q q).
Proof.
  intros Hwf Hout.
  destruct (KeyedQueue_enque_new tuple_bool q key d eq_refl
              (KeyedQueue_wf_absent q key Hwf Hout)) as (_ & Hq & _).
  rewrite Hq. reflexivity.
Qed.

(** The loop of [setup] on queues that hold none of the stages. *)
Lemma setup_queues stages self stages' self' :
  setup stages self = (Ok tt, (stages', self')) →
  KeyedQueue_wf (ready_inputs (queues self)) →
  KeyedQueue_wf (watermark_pending_inputs (queues self)) →
  NoDup (map (fun e => name e.2) stages) →
  (∀ e, e ∈ stages →
        (name e.2 ∉ map fst (KeyedQueue._q (ready_inputs (queues self))))
        ∧ ((name e.2, MAX_TIMESTAMP)
           ∉ map fst (KeyedQueue._q
                        (watermark_pending_inputs (queues self))))) →
  map fst (KeyedQueue._q (ready_inputs (queues self')))
  = reverse (map name
               (List.filter
                  (fun s => reads_impulse s && negb (has_side_inputs s))
                  (map snd stages)))
    ++ map fst (KeyedQueue._q (ready_inputs (queues self)))
  ∧ map fst (KeyedQueue._q (watermark_pending_inputs (queues self')))
    = reverse (map (fun s => (name s, MAX_TIMESTAMP))
                 (List.filter
                    (fun s => reads_impulse s && has_side_inputs s)
                    (map snd stages)))
      ++ map fst (KeyedQueue._q (watermark_pending_inputs (queues self)))
  ∧ time_pending_inputs (queues self') = time_pending_inputs (queues self)
  ∧ map fst stages' = map fst stages.
Proof.
  revert self stages' self'.
  induction stages as [|[key stage] stages IH]; intros self stages' self';
    cbn [FnApiRunnerExecutionContext.setup].
  - intros [= <- <-] _ _ _ _. simpl. auto.
  - destruct (_enqueue_stage_initial_inputs stage self)
      as [[[]| |] [stage1 self1]] eqn:Hone; try discriminate.
    destruct (setup stages self1) as [r [more' self2]] eqn:Hmore.
    intros [= -> <- <-] Hwr Hwp Hnd Hfresh.
    apply NoDup_cons in Hnd as [Hname Hnd]. simpl in Hname.
    destruct (Hfresh (key, stage)) as [Hfr Hfp]; [left|]. simpl in Hfr, Hfp.
    destruct (enqueue_stage_initial_inputs_step _ _ _ _ Hone)
      as [Htime Hclass].
    assert (Hother : ∀ e, e ∈ stages → name e.2 ≠ name stage).
    { intros e He Heq. apply Hname. apply list_elem_of_fmap.
      exists e. auto. }
    cbn [map List.filter snd fst].
    destruct (reads_impulse stage); [destruct (has_side_inputs stage)|];
      cbn [andb negb map].
    + destruct Hclass as [Hr [d Hp]].
      destruct (IH self1 more' self2 Hmore) as (Hr2 & Hp2 & Ht2 & Hk2).
      * rewrite Hr. exact Hwr.
      * rewrite Hp. apply KeyedQueue_enque_wf. exact Hwp.
      * exact Hnd.
      * intros e He. destruct (Hfresh e) as [Her Hep]; [right; exact He|].
        rewrite Hr, Hp, KeyedQueue_enque_new_keys by assumption.
        split; [exact Her|].
        intros Hin. apply elem_of_cons in Hin as [[= Heq]|Hin];
          [exact (Hother e He Heq) | exact (Hep Hin)].
      * rewrite Hr2, Hp2, Ht2, Hr, Hp, Htime,
          KeyedQueue_enque_new_keys by assumption.
        rewrite reverse_cons, <- app_assoc. simpl.
        rewrite Hk2. auto.
    + destruct Hclass as [Hp [d Hr]].
      destruct (IH self1 more' self2 Hmore) as (Hr2 & Hp2 & Ht2 & Hk2).
      * rewrite Hr. apply KeyedQueue_enque_wf. exact Hwr.
      * rewrite Hp. exact Hwp.
      * exact Hnd.
      * intros e He. destruct (Hfresh e) as [Her Hep]; [right; exact He|].
        rewrite Hr, Hp, KeyedQueue_enque_new_keys by assumption.
        split; [|exact Hep].
        intros Hin. apply elem_of_cons in Hin as [Heq|Hin];
          [exact (Hother e He Heq) | exact (Her Hin)].
      * rewrite Hr2, Hp2, Ht2, Hr, Hp, Htime,
          KeyedQueue_enque_new_keys by assumption.
        rewrite reverse_cons, <- app_assoc. simpl.
        rewrite Hk2. auto.
    + destruct (IH self1 more' self2 Hmore) as (Hr2 & Hp2 & Ht2 & Hk2).
      * rewrite Hclass. exact Hwr.
      * rewrite Hclass. exact Hwp.
      * exact Hnd.
      * intros e He. rewrite Hclass. apply Hfresh. right. exact He.
      * rewrite Hr2, Hp2, Ht2, Hclass, Hk2. auto.
Qed.

Lemma dict_set_keys_eq {B : Type} (i : string) (b : B)
    (d : list (string * B)) :
  dict_keys (dict_set i b d)
  = dict_keys d ++ (if decide (i ∈ dict_keys d) then [] else [i]).
Proof.
  induction d as [|[j c] d IH]; simpl.
  - destruct (decide (i ∈ [])) as [Hin|_]; [inversion Hin | reflexivity].
  - destruct (decide (j = i)) as [->|Hne]; simpl.
    + destruct (decide (i ∈ i :: dict_keys d)) as [_|Hout];
        [rewrite app_nil_r; reflexivity|].
      exfalso. apply Hout. left.
    + rewrite IH. do 2 f_equal.
      destruct (decide (i ∈ dict_keys d)) as [Hin|Hout];
        destruct (decide (i ∈ j :: dict_keys d)) as [Hin'|Hout'];
        try reflexivity.
      * exfalso. apply Hout'. right. exact Hin.
      * exfalso. apply elem_of_cons in Hin' as [->|Hin']; auto.
Qed.

(** The dictionary [self.stages] holds each stage under its name, once. *)
Lemma stages_by_name_keys (l : list Stage) :
  NoDup (dict_keys (FnApiRunnerExecutionContext.stages_by_name l))
  ∧ ∀ e, e ∈ FnApiRunnerExecutionContext.stages_by_name l →
         name e.2 = e.1 ∧ e.2 ∈ l.
Proof.
  unfold FnApiRunnerExecutionContext.stages_by_name.
  induction l as [|s l IH] using rev_ind; simpl.
  - split; [constructor|]. intros e He. inversion He.
  - rewrite foldl_app. simpl. destruct IH as [Hnd Hnames]. split.
    + rewrite dict_set_keys_eq.
      destruct (decide (name s ∈ dict_keys _)) as [Hin|Hout].
      * rewrite app_nil_r. exact Hnd.
      * apply NoDup_app. split; [exact Hnd|].
        split; [|apply NoDup_singleton].
        intros x Hx Hx'. apply list_elem_of_singleton in Hx' as ->.
        contradiction.
    + intros e He. apply dict_set_elem in He as [->|He].
      * simpl. split; [reflexivity|]. apply elem_of_app. right. left.
      * destruct (Hnames e He) as [Hn Hl]. split; [exact Hn|].
        apply elem_of_app. left. exact Hl.
Qed.


End Setup.


(** ** The dictionaries of the pipeline *)

Section PipelineDictionariesFacts.
Variable DATA_INPUT_URN DATA_OUTPUT_URN : string.
Variable PAR_DO_URNS : list string.
Variable IMPULSE_BUFFER : bytes.
Variable split_buffer_id : bytes -> res (string * string).

Local Abbreviation visit_transform :=
  (PipelineDictionaries.visit_transform DATA_INPUT_URN DATA_OUTPUT_URN
     PAR_DO_URNS IMPULSE_BUFFER split_buffer_id).
Local Abbreviation visit_transforms :=
  (PipelineDictionaries.visit_transforms DATA_INPUT_URN DATA_OUTPUT_URN
     PAR_DO_URNS IMPULSE_BUFFER split_buffer_id).
Local Abbreviation _compute_pipeline_dictionaries :=
  (PipelineDictionaries._compute_pipeline_dictionaries DATA_INPUT_URN
     DATA_OUTPUT_URN PAR_DO_URNS IMPULSE_BUFFER split_buffer_id).
Local Abbreviation reads_buffer :=
  (PipelineDictionaries.reads_buffer DATA_INPUT_URN IMPULSE_BUFFER).
Local Abbreviation reads_pcollection :=
  (PipelineDictionaries.reads_pcollection DATA_INPUT_URN IMPULSE_BUFFER
     split_buffer_id).
Local Abbreviation writes_pcollection :=
  (PipelineDictionaries.writes_pcollection DATA_INPUT_URN DATA_OUTPUT_URN
     split_buffer_id).
Local Abbreviation last_writer :=
  (PipelineDictionaries.last_writer DATA_INPUT_URN DATA_OUTPUT_URN
     split_buffer_id).
Local Abbreviation inputs_of :=
  PipelineDictionaries.input_transform_to_buffer_id.
Local Abbreviation producers_of :=
  PipelineDictionaries.pcollection_to_producer_transform.
Local Abbreviation consumers_of :=
  PipelineDictionaries.buffer_id_to_consumer_pairs.

Implicit Types
  (d : PipelineDictionaries.PipelineDictionaries) (t : PTransform)
  (b : bytes) (p : string) (pair : string * string).

Local Abbreviation consumers_inhabited :=
  PipelineDictionaries.consumers_inhabited.

Lemma visit_transform_consumers s_name t d d' :
  visit_transform s_name t d = (Ok tt, d') →
  (∀ b pair, pair ∈ consumers_of d' !!! b
             ↔ pair ∈ consumers_of d !!! b
               ∨ (reads_buffer b t ∧ pair = (s_name, unique_name t)))
  ∧ (consumers_inhabited d → consumers_inhabited d').
Proof.
  unfold PipelineDictionaries.visit_transform,
    PipelineDictionaries.reads_buffer.
  case_bool_decide as Hin.
  - case_bool_decide as Himp.
    + intros [= <-]. simpl. split; [|auto]. intros b pair. split; [auto|].
      intros [Hold|[(_ & Hb & Hne) _]]; [exact Hold|]. congruence.
    + destruct (split_buffer_id (payload (spec t))) as [[kind pcoll]| |];
        try discriminate.
      intros [= <-]. simpl.
      set (consumers1 :=
             match consumers_of d !! payload (spec t) with
             | Some _ => consumers_of d
             | None => <[payload (spec t) := ∅]> (consumers_of d)
             end).
      assert (Hc1 : ∀ b, consumers1 !!! b = consumers_of d !!! b).
      { intros b. unfold consumers1.
        destruct (consumers_of d !! payload (spec t)) eqn:Hb; [reflexivity|].
        destruct (decide (payload (spec t) = b)) as [<-|Hne].
        - rewrite lookup_total_insert_eq, lookup_total_alt, Hb. reflexivity.
        - rewrite lookup_total_insert_ne by exact Hne. reflexivity. }
      assert (Hi1 : ∀ b pairs,
                consumers1 !! b = Some pairs →
                consumers_of d !! b = Some pairs
                ∨ (b = payload (spec t) ∧ pairs = ∅)).
      { intros b pairs. unfold consumers1.
        destruct (consumers_of d !! payload (spec t)) eqn:Hb; [auto|].
        destruct (decide (payload (spec t) = b)) as [<-|Hne].
        - rewrite lookup_insert_eq. intros [= <-]. auto.
        - rewrite lookup_insert_ne by exact Hne. auto. }
      unfold PipelineDictionaries.consumers_inhabited.
      destruct (decide ((s_name, unique_name t)
                          ∈ consumers1 !!! payload (spec t))) as [Hmem|Hnew];
        cbn [PipelineDictionaries.buffer_id_to_consumer_pairs].
      * split.
        -- intros b pair. rewrite Hc1. split; [auto|].
           intros [Hold|[(_ & <- & _) ->]]; [exact Hold|].
           rewrite <- Hc1. exact Hmem.
        -- intros Hinh b pairs Hb.
           destruct (Hi1 _ _ Hb) as [Hold|[-> ->]]; [exact (Hinh _ _ Hold)|].
           exfalso. rewrite lookup_total_alt, Hb in Hmem. simpl in Hmem.
           set_solver.
      * split.
        -- intros b pair.
           destruct (decide (payload (spec t) = b)) as [<-|Hne].
           ++ rewrite lookup_total_insert_eq, Hc1, elem_of_union,
                elem_of_singleton.
              split; intros [Hold|Hnew']; auto.
              ** tauto.
           ++ rewrite lookup_total_insert_ne, Hc1 by exact Hne.
              split; [auto|]. intros [Hold|[(_ & Hb & _) _]]; [exact Hold|].
              congruence.
        -- intros Hinh b pairs.
           destruct (decide (payload (spec t) = b)) as [<-|Hne].
           ++ rewrite lookup_insert_eq. intros [= <-].
              apply (non_empty_inhabited_L (s_name, unique_name t)).
              apply elem_of_union_r, elem_of_singleton. reflexivity.
           ++ rewrite lookup_insert_ne by exact Hne. intros Hb.
              destruct (Hi1 _ _ Hb) as [Hold|[-> _]];
                [exact (Hinh _ _ Hold) | congruence].
  - assert (Hsame : ∀ b pair,
              pair ∈ consumers_of d !!! b
              ↔ pair ∈ consumers_of d !!! b
                ∨ (urn (spec t) = DATA_INPUT_URN
                   ∧ payload (spec t) = b ∧ b ≠ IMPULSE_BUFFER)
                  ∧ pair = (s_name, unique_name t)) by (intros; tauto).
    case_bool_decide as Hout.
    + destruct (split_buffer_id (payload (spec t))) as [[kind pcoll]| |];
        try discriminate.
      intros [= <-]. simpl. auto.
    + case_bool_decide; intros [= <-]; auto.
Qed.

Lemma visit_transform_inputs s_name t d d' :
  visit_transform s_name t d = (Ok tt, d') →
  (∀ tn b, inputs_of d' !! tn = Some b →
           inputs_of d !! tn = Some b
           ∨ (urn (spec t) = DATA_INPUT_URN ∧ unique_name t = tn
              ∧ payload (spec t) = b))
  ∧ (∀ tn, is_Some (inputs_of d !! tn) → is_Some (inputs_of d' !! tn))
  ∧ (urn (spec t) = DATA_INPUT_URN → is_Some (inputs_of d' !! unique_name t)).
Proof.
  unfold PipelineDictionaries.visit_transform.
  assert (Hins : ∀ tn b,
            <[unique_name t := payload (spec t)]> (inputs_of d) !! tn = Some b →
            urn (spec t) = DATA_INPUT_URN →
            inputs_of d !! tn = Some b
            ∨ (urn (spec t) = DATA_INPUT_URN ∧ unique_name t = tn
               ∧ payload (spec t) = b)).
  { intros tn b Hl Hu. destruct (decide (unique_name t = tn)) as [<-|Hne].
    - rewrite lookup_insert_eq in Hl. injection Hl as <-. auto.
    - rewrite lookup_insert_ne in Hl by exact Hne. auto. }
  assert (Hmono : ∀ tn,
            is_Some (inputs_of d !! tn) →
            is_Some (<[unique_name t := payload (spec t)]> (inputs_of d)
                       !! tn)).
  { intros tn Hs. destruct (decide (unique_name t = tn)) as [<-|Hne].
    - rewrite lookup_insert_eq. eauto.
    - rewrite lookup_insert_ne by exact Hne. exact Hs. }
  case_bool_decide as Hin.
  - case_bool_decide as Himp.
    + intros [= <-]. simpl. split; [intros; apply Hins; auto|].
      split; [exact Hmono|]. intros _. rewrite lookup_insert_eq. eauto.
    + destruct (split_buffer_id (payload (spec t))) as [[kind pcoll]| |];
        try discriminate.
      intros [= <-]. simpl. split; [intros; apply Hins; auto|].
      split; [exact Hmono|]. intros _. rewrite lookup_insert_eq. eauto.
  - case_bool_decide as Hout.
    + destruct (split_buffer_id (payload (spec t))) as [[kind pcoll]| |];
        try discriminate.
      intros [= <-]. simpl. split; [auto|]. split; [auto|]. contradiction.
    + case_bool_decide; intros [= <-]; (split; [auto|]); (split; [auto|]);
        contradiction.
Qed.

Lemma visit_transforms_consumers s_name ts d d' :
  visit_transforms s_name ts d = (Ok tt, d') →
  (∀ b pair, pair ∈ consumers_of d' !!! b
             ↔ pair ∈ consumers_of d !!! b
               ∨ ∃ t, t ∈ ts ∧ reads_buffer b t
                      ∧ pair = (s_name, unique_name t))
  ∧ (consumers_inhabited d → consumers_inhabited d')
  ∧ (∀ tn b, inputs_of d' !! tn = Some b →
             inputs_of d !! tn = Some b
             ∨ ∃ t, t ∈ ts ∧ urn (spec t) = DATA_INPUT_URN
                    ∧ unique_name t = tn ∧ payload (spec t) = b)
  ∧ (∀ tn, is_Some (inputs_of d !! tn) → is_Some (inputs_of d' !! tn))
  ∧ (∀ t, t ∈ ts → urn (spec t) = DATA_INPUT_URN →
          is_Some (inputs_of d' !! unique_name t)).
Proof.
  revert d. induction ts as [|t ts IH]; intros d;
    cbn [PipelineDictionaries.visit_transforms].
  - intros [= <-]. split; [|split; [auto|split; [auto|split; [auto|]]]].
    + intros b pair. split; [auto|].
      intros [Hold|(t & Ht & _)]; [exact Hold | inversion Ht].
    + intros t Ht. inversion Ht.
  - destruct (visit_transform s_name t d) as [[[]| |] d1] eqn:Hone;
      try discriminate.
    intros Hmore.
    destruct (visit_transform_consumers _ _ _ _ Hone) as [Hc1 Hi1].
    destruct (visit_transform_inputs _ _ _ _ Hone) as (Hs1 & Hm1 & Hn1).
    destruct (IH _ Hmore) as (Hc & Hi & Hs & Hm & Hn).
    split; [|split; [auto|split; [|split; [auto|]]]].
    + intros b pair. rewrite Hc, Hc1. split.
      * intros [[Hold|[Hr ->]]|(t0 & Ht0 & Hr & ->)]; auto.
        -- right. exists t. split; [left | auto].
        -- right. exists t0. split; [right; exact Ht0 | auto].
      * intros [Hold|(t0 & Ht0 & Hr & ->)]; auto.
        apply elem_of_cons in Ht0 as [->|Ht0]; [auto|].
        right. exists t0. auto.
    + intros tn b Hl. destruct (Hs _ _ Hl) as [Hl1|(t0 & Ht0 & Hrest)].
      * destruct (Hs1 _ _ Hl1) as [Hold|Hnew]; [auto|].
        right. exists t. split; [left | exact Hnew].
      * right. exists t0. split; [right; exact Ht0 | exact Hrest].
    + intros t0 Ht0 Hu. apply elem_of_cons in Ht0 as [->|Ht0].
      * apply Hm, Hn1, Hu.
      * apply Hn; assumption.
Qed.

Lemma compute_pipeline_dictionaries_inv stages d d' :
  _compute_pipeline_dictionaries stages d = (Ok tt, d') →
  (∀ b pair, pair ∈ consumers_of d' !!! b
             ↔ pair ∈ consumers_of d !!! b
               ∨ ∃ s t, s ∈ stages ∧ t ∈ transforms s ∧ reads_buffer b t
                        ∧ pair = (name s, unique_name t))
  ∧ (consumers_inhabited d → consumers_inhabited d')
  ∧ (∀ tn b, inputs_of d' !! tn = Some b →
             inputs_of d !! tn = Some b
             ∨ ∃ s t, s ∈ stages ∧ t ∈ transforms s
                      ∧ urn (spec t) = DATA_INPUT_URN
                      ∧ unique_name t = tn ∧ payload (spec t) = b)
  ∧ (∀ tn, is_Some (inputs_of d !! tn) → is_Some (inputs_of d' !! tn))
  ∧ (∀ s t, s ∈ stages → t ∈ transforms s → urn (spec t) = DATA_INPUT_URN →
            is_Some (inputs_of d' !! unique_name t)).
Proof.
  revert d. induction stages as [|s stages IH]; intros d;
    cbn [PipelineDictionaries._compute_pipeline_dictionaries].
  - intros [= <-]. split; [|split; [auto|split; [auto|split; [auto|]]]].
    + intros b pair. split; [auto|].
      intros [Hold|(s & t & Hs & _)]; [exact Hold | inversion Hs].
    + intros s t Hs. inversion Hs.
  - destruct (visit_transforms (name s) (transforms s) d) as [[[]| |] d1]
      eqn:Hone; try discriminate.
    intros Hmore.
    destruct (visit_transforms_consumers _ _ _ _ Hone)
      as (Hc1 & Hi1 & Hs1 & Hm1 & Hn1).
    destruct (IH _ Hmore) as (Hc & Hi & Hs & Hm & Hn).
    split; [|split; [auto|split; [|split; [auto|]]]].
    + intros b pair. rewrite Hc, Hc1. split.
      * intros [[Hold|(t & Ht & Hr & ->)]|(s0 & t & Hs0 & Ht & Hr & ->)];
          auto.
        -- right. exists s, t. split; [left | auto].
        -- right. exists s0, t. split; [right; exact Hs0 | auto].
      * intros [Hold|(s0 & t & Hs0 & Ht & Hr & ->)]; auto.
        apply elem_of_cons in Hs0 as [->|Hs0].
        -- left. right. exists t. auto.
        -- right. exists s0, t. auto.
    + intros tn b Hl.
      destruct (Hs _ _ Hl) as [Hl1|(s0 & t & Hs0 & Hrest)].
      * destruct (Hs1 _ _ Hl1) as [Hold|(t & Ht & Hrest)]; [auto|].
        right. exists s, t. split; [left | auto].
      * right. exists s0, t. split; [right; exact Hs0 | exact Hrest].
    + intros s0 t Hs0 Ht Hu. apply elem_of_cons in Hs0 as [->|Hs0].
      * apply Hm, (Hn1 _ Ht Hu).
      * exact (Hn _ _ Hs0 Ht Hu).
Qed.

(** X24.  When [_compute_pipeline_dictionaries] returns on the new
    dictionaries: the consumers recorded for a buffer id are exactly the
    pairs (stage name, transform name) of the [DATA_INPUT] transforms whose
    payload is that buffer id, the impulse buffer excepted; no buffer id is
    recorded without a consumer; every entry of
    [input_transform_to_buffer_id] is the payload of a [DATA_INPUT]
    transform of that name, and every [DATA_INPUT] transform has one. *)
Theorem compute_pipeline_dictionaries_consumers stages d :
  _compute_pipeline_dictionaries stages PipelineDictionaries.__init__
  = (Ok tt, d) →
  (∀ b s_name t_name,
     (s_name, t_name) ∈ consumers_of d !!! b
     ↔ ∃ s t, s ∈ stages ∧ t ∈ transforms s ∧ reads_buffer b t
              ∧ s_name = name s ∧ t_name = unique_name t)
  ∧ (∀ b, is_Some (consumers_of d !! b) → consumers_of d !!! b ≠ ∅)
  ∧ (∀ t_name b,
       inputs_of d !! t_name = Some b →
       ∃ s t, s ∈ stages ∧ t ∈ transforms s
              ∧ urn (spec t) = DATA_INPUT_URN
              ∧ unique_name t = t_name ∧ payload (spec t) = b)
  ∧ (∀ s t, s ∈ stages → t ∈ transforms s → urn (spec t) = DATA_INPUT_URN →
            is_Some (inputs_of d !! unique_name t)).
Proof.
  intros Hrun.
  destruct (compute_pipeline_dictionaries_inv _ _ _ Hrun)
    as (Hc & Hi & Hs & _ & Hn).
  split; [|split; [|split; [|exact Hn]]].
  - intros b s_name t_name. rewrite Hc. simpl.
    rewrite lookup_total_empty. split.
    + intros [Hold|(s & t & Hs0 & Ht & Hr & [= -> ->])]; [set_solver|].
      exists s, t. auto.
    + intros (s & t & Hs0 & Ht & Hr & -> & ->). right. exists s, t. auto.
  - intros b [pairs Hb]. rewrite lookup_total_alt, Hb. simpl.
    apply (Hi ltac:(intros b0 pairs0; simpl; rewrite lookup_empty;
                    discriminate) _ _ Hb).
  - intros t_name b Hl. destruct (Hs _ _ Hl) as [Hold|Hnew]; [|exact Hnew].
    simpl in Hold. rewrite lookup_empty in Hold. discriminate Hold.
Qed.

Lemma visit_transform_producers s_name t d d' :
  visit_transform s_name t d = (Ok tt, d') →
  (∀ p, producers_of d' !! inr p
        = if writes_pcollection p t then Some (Some (unique_name t))
          else match producers_of d !! inr p with
               | Some v => Some v
               | None => if reads_pcollection p t then Some None else None
               end)
  ∧ (∀ b, producers_of d' !! inl b
          = if bool_decide (urn (spec t) = DATA_INPUT_URN)
               && bool_decide (payload (spec t) = IMPULSE_BUFFER)
               && bool_decide (b = IMPULSE_BUFFER)
            then Some None
            else producers_of d !! inl b).
Proof.
  unfold PipelineDictionaries.visit_transform,
    PipelineDictionaries.writes_pcollection,
    PipelineDictionaries.reads_pcollection.
  case_bool_decide as Hin; cbn [negb andb].
  - case_bool_decide as Himp; cbn [negb andb].
    + intros [= <-]. simpl. split.
      * intros p. rewrite lookup_insert_ne by discriminate.
        destruct (producers_of d !! inr p); reflexivity.
      * intros b. case_bool_decide as Hb.
        -- subst b. apply lookup_insert_eq.
        -- apply lookup_insert_ne. congruence.
    + destruct (split_buffer_id (payload (spec t))) as [[kind pcoll]| |];
        try discriminate.
      intros [= <-]. simpl. split.
      * intros p. case_bool_decide as Hp.
        -- subst pcoll.
           destruct (producers_of d !! inr p) eqn:Hl; [exact Hl|].
           apply lookup_insert_eq.
        -- destruct (producers_of d !! inr pcoll) eqn:Hl.
           ++ destruct (producers_of d !! inr p); reflexivity.
           ++ rewrite lookup_insert_ne by congruence.
              destruct (producers_of d !! inr p); reflexivity.
      * intros b. destruct (producers_of d !! inr pcoll) eqn:Hl;
          [reflexivity|].
        apply lookup_insert_ne. discriminate.
  - case_bool_decide as Hout; cbn [negb andb].
    + destruct (split_buffer_id (payload (spec t))) as [[kind pcoll]| |];
        try discriminate.
      intros [= <-]. simpl. split.
      * intros p. case_bool_decide as Hp.
        -- subst pcoll. apply lookup_insert_eq.
        -- rewrite lookup_insert_ne by congruence.
           destruct (producers_of d !! inr p); reflexivity.
      * intros b. apply lookup_insert_ne. discriminate.
    + assert (Hsame : ∀ p, producers_of d !! inr p
                           = match producers_of d !! inr p with
                             | Some v => Some v
                             | None => None
                             end)
        by (intros p; destruct (producers_of d !! inr p); reflexivity).
      case_bool_decide; intros [= <-]; auto.
Qed.

Lemma visit_transforms_producers s_name ts d d' :
  visit_transforms s_name ts d = (Ok tt, d') →
  (∀ p, producers_of d' !! inr p
        = match last_writer p ts with
          | Some n => Some (Some n)
          | None =>
              match producers_of d !! inr p with
              | Some v => Some v
              | None =>
                  if existsb (reads_pcollection p) ts then Some None
                  else None
              end
          end)
  ∧ (∀ b, producers_of d' !! inl b
          = if existsb (fun t =>
                          bool_decide (urn (spec t) = DATA_INPUT_URN)
                          && bool_decide (payload (spec t) = IMPULSE_BUFFER))
                 ts
               && bool_decide (b = IMPULSE_BUFFER)
            then Some None
            else producers_of d !! inl b).
Proof.
  revert d. induction ts as [|t ts IH]; intros d;
    cbn [PipelineDictionaries.visit_transforms
           PipelineDictionaries.last_writer existsb].
  - intros [= <-]. split; [|auto].
    intros p. destruct (producers_of d !! inr p); reflexivity.
  - destruct (visit_transform s_name t d) as [[[]| |] d1] eqn:Hone;
      try discriminate.
    intros Hmore.
    destruct (visit_transform_producers _ _ _ _ Hone) as [Hp1 Hb1].
    destruct (IH _ Hmore) as [Hp Hb]. split.
    + intros p. rewrite Hp, Hp1.
      destruct (last_writer p ts); [reflexivity|].
      destruct (writes_pcollection p t); [reflexivity|].
      destruct (producers_of d !! inr p); [reflexivity|].
      destruct (reads_pcollection p t); reflexivity.
    + intros b. rewrite Hb, Hb1.
      destruct (bool_decide (b = IMPULSE_BUFFER));
        destruct (existsb _ ts);
        destruct (bool_decide (urn (spec t) = DATA_INPUT_URN)
                  && bool_decide (payload (spec t) = IMPULSE_BUFFER));
        reflexivity.
Qed.

Lemma last_writer_app p (ts1 ts2 : list PTransform) :
  last_writer p (ts1 ++ ts2)
  = match last_writer p ts2 with
    | Some n => Some n
    | None => last_writer p ts1
    end.
Proof.
  induction ts1 as [|t ts1 IH]; simpl.
  - destruct (last_writer p ts2); reflexivity.
  - rewrite IH. destruct (last_writer p ts2); reflexivity.
Qed.

Lemma compute_pipeline_dictionaries_producers_inv stages d d' :
  _compute_pipeline_dictionaries stages d = (Ok tt, d') →
  (∀ p, producers_of d' !! inr p
        = match last_writer p (stages ≫= transforms) with
          | Some n => Some (Some n)
          | None =>
              match producers_of d !! inr p with
              | Some v => Some v
              | None =>
                  if existsb (reads_pcollection p) (stages ≫= transforms)
                  then Some None
                  else None
              end
          end)
  ∧ (∀ b, producers_of d' !! inl b
          = if existsb (fun t =>
                          bool_decide (urn (spec t) = DATA_INPUT_URN)
                          && bool_decide (payload (spec t) = IMPULSE_BUFFER))
                 (stages ≫= transforms)
               && bool_decide (b = IMPULSE_BUFFER)
            then Some None
            else producers_of d !! inl b).
Proof.
  revert d. induction stages as [|s stages IH]; intros d;
    cbn [PipelineDictionaries._compute_pipeline_dictionaries].
  - intros [= <-]. simpl. split; [|auto].
    intros p. destruct (producers_of d !! inr p); reflexivity.
  - destruct (visit_transforms (name s) (transforms s) d) as [[[]| |] d1]
      eqn:Hone; try discriminate.
    intros Hmore.
    destruct (visit_transforms_producers _ _ _ _ Hone) as [Hp1 Hb1].
    destruct (IH _ Hmore) as [Hp Hb].
    rewrite bind_cons. split.
    + intros p. rewrite Hp, Hp1, last_writer_app, existsb_app.
      destruct (last_writer p (stages ≫= transforms)); [reflexivity|].
      destruct (last_writer p (transforms s)); [reflexivity|].
      destruct (producers_of d !! inr p); [reflexivity|].
      destruct (existsb (reads_pcollection p) (transforms s)); reflexivity.
    + intros b. rewrite Hb, Hb1, existsb_app.
      destruct (bool_decide (b = IMPULSE_BUFFER));
        destruct (existsb _ (stages ≫= transforms));
        destruct (existsb _ (transforms s)); reflexivity.
Qed.

(** X25.  When [_compute_pipeline_dictionaries] returns on the new
    dictionaries, the producer recorded for a PCollection is the name of
    the last [DATA_OUTPUT] transform, in the order of the stages and of
    their transforms, whose buffer id names it, wherever its readers stand;
    it is [None] when no transform writes it and a [DATA_INPUT] transform
    reads it off a buffer other than the impulse buffer; otherwise the
    PCollection has no entry.  The impulse buffer id has the entry [None]
    exactly when a transform reads it, and no other [bytes] key exists. *)
Theorem compute_pipeline_dictionaries_producers stages d :
  _compute_pipeline_dictionaries stages PipelineDictionaries.__init__
  = (Ok tt, d) →
  (∀ p, producers_of d !! inr p
        = match last_writer p (stages ≫= transforms) with
          | Some n => Some (Some n)
          | None =>
              if existsb (reads_pcollection p) (stages ≫= transforms)
              then Some None
              else None
          end)
  ∧ (∀ b, producers_of d !! inl b
          = if existsb
                 (FnApiRunnerExecutionContext.reads_impulse DATA_INPUT_URN
                    IMPULSE_BUFFER) stages
               && bool_decide (b = IMPULSE_BUFFER)
            then Some None
            else None).
Proof.
  intros Hrun.
  destruct (compute_pipeline_dictionaries_producers_inv _ _ _ Hrun)
    as [Hp Hb].
  split.
  - intros p. rewrite Hp. simpl. rewrite lookup_empty. reflexivity.
  - intros b. rewrite Hb. simpl. rewrite lookup_empty.
    replace (existsb
               (FnApiRunnerExecutionContext.reads_impulse DATA_INPUT_URN
                  IMPULSE_BUFFER) stages)
      with (existsb (fun t =>
                       bool_decide (urn (spec t) = DATA_INPUT_URN)
                       && bool_decide (payload (spec t) = IMPULSE_BUFFER))
              (stages ≫= transforms)); [reflexivity|].
    clear. induction stages as [|s stages IH]; [reflexivity|].
    rewrite bind_cons, existsb_app, IH. reflexivity.
Qed.

End PipelineDictionariesFacts.

Lemma compute_pipeline_dictionaries_consumers_witness :
  let run := DictionarySamples.compute DictionarySamples.stages in
  run.1 = Ok tt
  ∧ (∀ s_name t_name,
       (s_name, t_name)
         ∈ PipelineDictionaries.buffer_id_to_consumer_pairs run.2
             !!! encode_utf8 "materialize:pc2"
       ↔ ∃ s t, s ∈ DictionarySamples.stages ∧ t ∈ transforms s
                ∧ PipelineDictionaries.reads_buffer Samples.DATA_INPUT_URN
                    Samples.IMPULSE_BUFFER (encode_utf8 "materialize:pc2") t
                ∧ s_name = name s ∧ t_name = unique_name t)
  ∧ PipelineDictionaries.buffer_id_to_consumer_pairs run.2
      !!! encode_utf8 "materialize:pc2"
    = {[("S0", "S0/Read"); ("S2", "S2/Read")]}%string.
Proof.
  cbv zeta.
  set (run := DictionarySamples.compute DictionarySamples.stages).
  assert (Hrun : run = (Ok tt, run.2)) by reflexivity.
  destruct (compute_pipeline_dictionaries_consumers
              Samples.DATA_INPUT_URN Samples.DATA_OUTPUT_URN
              Samples.PAR_DO_URNS Samples.IMPULSE_BUFFER
              DictionarySamples.split_buffer_id DictionarySamples.stages
              run.2 Hrun) as (Hconsumers & _).
  split; [reflexivity|]. split; [apply Hconsumers|].
  vm_compute. reflexivity.
Defined.

Lemma compute_pipeline_dictionaries_producers_witness :
  let run := DictionarySamples.compute DictionarySamples.stages in
  let producers :=
    PipelineDictionaries.pcollection_to_producer_transform run.2 in
  run.1 = Ok tt
  ∧ producers !! inr "pc2"%string = Some (Some "S1/Write"%string)
  ∧ producers !! inr "pc1"%string = Some None
  ∧ producers !! inr "pc"%string = None
  ∧ producers !! inl Samples.IMPULSE_BUFFER = Some None.
Proof.
  cbv zeta.
  set (run := DictionarySamples.compute DictionarySamples.stages).
  assert (Hrun : run = (Ok tt, run.2)) by reflexivity.
  destruct (compute_pipeline_dictionaries_producers
              Samples.DATA_INPUT_URN Samples.DATA_OUTPUT_URN
              Samples.PAR_DO_URNS Samples.IMPULSE_BUFFER
              DictionarySamples.split_buffer_id DictionarySamples.stages
              run.2 Hrun) as (Hstr & Hbytes).
  split; [reflexivity|].
  split; [exact (Hstr "pc2"%string)|].
  split; [exact (Hstr "pc1"%string)|].
  split; [exact (Hstr "pc"%string)|].
  exact (Hbytes Samples.IMPULSE_BUFFER).
Defined.

(** ** WindowGroupingBuffer: filing by key and window *)

Section WindowGroupingBufferFacts.
Context {V W : Type} `{SideInputValues V W} `{EqDecision V} `{EqDecision W}.
Implicit Types (t : list ((V * W) * list V)) (k : V * W) (v : V)
  (entries : list ((V * W) * V))
  (self : WindowGroupingBuffer.WindowGroupingBuffer V W).

Lemma values_append_get_eq k v t :
  dict_get k (WindowGroupingBuffer.values_append k v t)
  = Some (default [] (dict_get k t) ++ [v]).
Proof.
  induction t as [|[k' vs'] t IH]; simpl.
  - destruct (decide (k = k)); [reflexivity | congruence].
  - destruct (decide (k' = k)) as [->|Hne]; simpl.
    + destruct (decide (k = k)); [reflexivity | congruence].
    + destruct (decide (k' = k)); [congruence | exact IH].
Qed.

Lemma values_append_get_ne k k0 v t :
  k0 ≠ k →
  dict_get k0 (WindowGroupingBuffer.values_append k v t) = dict_get k0 t.
Proof.
  intros Hne. induction t as [|[k' vs'] t IH]; simpl.
  - destruct (decide (k = k0)); [congruence | reflexivity].
  - destruct (decide (k' = k)) as [->|Hne']; simpl.
    + destruct (decide (k = k0)); [congruence | reflexivity].
    + destruct (decide (k' = k0)); [reflexivity | exact IH].
Qed.

Lemma values_append_keys k v t :
  dict_keys (WindowGroupingBuffer.values_append k v t)
  = if decide (k ∈ dict_keys t) then dict_keys t else dict_keys t ++ [k].
Proof.
  induction t as [|[k' vs'] t IH]; simpl.
  - destruct (decide (k ∈ [])) as [Hin|_]; [inversion Hin | reflexivity].
  - destruct (decide (k' = k)) as [->|Hne]; simpl.
    + destruct (decide (k ∈ k :: dict_keys t)) as [_|Hout]; [reflexivity|].
      exfalso. apply Hout. left.
    + rewrite IH.
      destruct (decide (k ∈ dict_keys t)) as [Hin|Hout];
        destruct (decide (k ∈ k' :: dict_keys t)) as [Hin'|Hout'];
        try reflexivity.
      * exfalso. apply Hout'. right. exact Hin.
      * exfalso. apply elem_of_cons in Hin' as [->|Hin']; [congruence|].
        contradiction.
Qed.

(** Filing a list of entries one after the other. *)
Lemma fold_values_append_get entries t k :
  default [] (dict_get k
    (foldl (fun t e => WindowGroupingBuffer.values_append e.1 e.2 t)
           t entries))
  = default [] (dict_get k t) ++ values_under k entries.
Proof.
  unfold values_under.
  revert t. induction entries as [|[k' v] entries IH]; intros t; simpl.
  - rewrite app_nil_r. reflexivity.
  - rewrite IH. rewrite filter_cons. simpl.
    destruct (decide (k' = k)) as [->|Hne]; simpl.
    + rewrite values_append_get_eq. simpl. rewrite <- app_assoc. reflexivity.
    + rewrite values_append_get_ne by congruence. reflexivity.
Qed.

Lemma fold_values_append_keys entries t :
  dict_keys (foldl (fun t e => WindowGroupingBuffer.values_append e.1 e.2 t)
                   t entries)
  = keys_added (dict_keys t) entries.
Proof.
  unfold keys_added.
  revert t. induction entries as [|[k' v] entries IH]; intros t; simpl;
    [reflexivity|].
  rewrite IH, values_append_keys. reflexivity.
Qed.

Lemma keys_added_NoDup entries (keys : list (V * W)) :
  NoDup keys → NoDup (keys_added keys entries).
Proof.
  unfold keys_added.
  revert keys. induction entries as [|[k' v] entries IH]; intros keys Hnd;
    simpl; [exact Hnd|].
  apply IH. destruct (decide (k' ∈ keys)) as [Hin|Hout]; [exact Hnd|].
  apply NoDup_app. split; [exact Hnd|]. split; [|apply NoDup_singleton].
  intros x Hx Hx'. apply list_elem_of_singleton in Hx' as ->. contradiction.
Qed.

Lemma file_value_fold (key value : V) (windows : list W) t :
  WindowGroupingBuffer.file_value key value windows t
  = foldl (fun t e => WindowGroupingBuffer.values_append e.1 e.2 t) t
          (map (fun w => ((key, w), value)) windows).
Proof.
  revert t. induction windows as [|w windows IH]; intros t; simpl;
    [reflexivity|].
  apply IH.
Qed.

Lemma append_loop_files fuel self input_stream t t' :
  WindowGroupingBuffer.append_loop fuel self input_stream t = (Ok tt, t') →
  ∃ wvs kvs,
    decode_stream fuel (WindowGroupingBuffer._windowed_value_coder self)
      input_stream = Ok wvs
    ∧ Forall2
        (fun wv kv =>
           WindowGroupingBuffer._kv_extractor self (value_of wv) = Ok kv)
        wvs kvs
    ∧ t' = foldl (fun t e => WindowGroupingBuffer.values_append e.1 e.2 t) t
                 (concat (zip_with entries_of wvs kvs)).
Proof.
  revert input_stream t.
  induction fuel as [|fuel IH]; intros input_stream t;
    destruct input_stream as [|b input_stream]; simpl; try discriminate.
  - intros [= <-]. exists [], []. auto.
  - intros [= <-]. exists [], []. auto.
  - destruct (decode_from_stream
                (WindowGroupingBuffer._windowed_value_coder self)
                (b :: input_stream)) as [[wv rest]| |]; try discriminate.
    destruct (WindowGroupingBuffer._kv_extractor self (value_of wv))
      as [[key value]| |] eqn:Hkv; try discriminate.
    destruct (length rest <? S (length input_stream))%nat; try discriminate.
    intros Hrun. destruct (IH _ _ Hrun) as (wvs & kvs & Hdec & HF & ->).
    exists (wv :: wvs), ((key, value) :: kvs).
    rewrite Hdec. split; [reflexivity|]. split; [constructor; auto|].
    simpl. rewrite foldl_app. unfold entries_of at 2. simpl.
    rewrite <- file_value_fold. reflexivity.
Qed.

(** X26.  A [WindowGroupingBuffer.append] that returns has decoded the
    whole stream into windowed values, split the value of each into a key
    and a value with the extractor of the access pattern, and filed the
    value once for every window of the windowed value: each (key, window)
    now holds the values it held before followed by the new ones in stream
    order, new (key, window) pairs follow the old ones in the order they
    first occur, no pair occurs twice, and the coders are unchanged. *)
Theorem WindowGroupingBuffer_append_files_by_key_and_window elements_data
    self self' :
  WindowGroupingBuffer.append elements_data self = (Ok tt, self') →
  ∃ wvs kvs,
    sub_elements (WindowGroupingBuffer._windowed_value_coder self)
      elements_data = Ok wvs
    ∧ Forall2
        (fun wv kv =>
           WindowGroupingBuffer._kv_extractor self (value_of wv) = Ok kv)
        wvs kvs
    ∧ (∀ k,
         default [] (dict_get k (WindowGroupingBuffer._values_by_window self'))
         = default [] (dict_get k (WindowGroupingBuffer._values_by_window
                                     self))
             ++ values_under k (concat (zip_with entries_of wvs kvs)))
    ∧ dict_keys (WindowGroupingBuffer._values_by_window self')
      = keys_added (dict_keys (WindowGroupingBuffer._values_by_window self))
          (concat (zip_with entries_of wvs kvs))
    ∧ (NoDup (dict_keys (WindowGroupingBuffer._values_by_window self)) →
       NoDup (dict_keys (WindowGroupingBuffer._values_by_window self')))
    ∧ self'
      = WindowGroupingBuffer.mk
          (WindowGroupingBuffer._kv_extractor self)
          (WindowGroupingBuffer._key_coder self)
          (WindowGroupingBuffer._value_coder self)
          (WindowGroupingBuffer._windowed_value_coder self)
          (WindowGroupingBuffer._window_coder self)
          (WindowGroupingBuffer._values_by_window self').
Proof.
  unfold WindowGroupingBuffer.append.
  destruct (WindowGroupingBuffer.append_loop _ _ _ _) as [r t] eqn:Hloop.
  intros [= -> <-].
  destruct (append_loop_files _ _ _ _ _ Hloop) as (wvs & kvs & Hdec & HF & ->).
  exists wvs, kvs. simpl.
  split; [exact Hdec|]. split; [exact HF|].
  split; [intros k; apply fold_values_append_get|].
  split; [apply fold_values_append_keys|].
  split; [|reflexivity].
  intros Hnd. rewrite fold_values_append_keys.
  apply keys_added_NoDup, Hnd.
Qed.

End WindowGroupingBufferFacts.

(** ** Committing side inputs to state *)

Section SideInputsFacts.
Context {V W : Type} `{WindowedValues V} `{SideInputValues V W}
  `{EqDecision V} `{EqDecision W}.
Variable ITERABLE_URN MULTIMAP_URN : string.
Variable SingletonCoder : V -> CoderImpl V.
Variable split_buffer_id : bytes -> res (string * string).
Variable data_channel_coders : gmap string string.
Variable safe_coders : gmap string string.
Variable pipeline_context_coders : string -> res (WindowedValueCoder V W).
Variable struct_pack_i : nat -> res bytes.

Local Abbreviation commit_side_input :=
  (SideInputs.commit_side_input ITERABLE_URN MULTIMAP_URN SingletonCoder
     split_buffer_id data_channel_coders safe_coders pipeline_context_coders
     struct_pack_i).
Local Abbreviation commit_side_inputs_to_state :=
  (SideInputs.commit_side_inputs_to_state ITERABLE_URN MULTIMAP_URN
     SingletonCoder split_buffer_id data_channel_coders safe_coders
     pipeline_context_coders struct_pack_i).
Local Abbreviation WindowGroupingBuffer_init :=
  (WindowGroupingBuffer.__init__ (V := V) (W := W) ITERABLE_URN MULTIMAP_URN
     SingletonCoder).

Implicit Types
  (self : SideInputs.State V)
  (ebw : WindowGroupingBuffer.WindowGroupingBuffer V W)
  (t : list ((V * W) * list V)).

Lemma append_all_files records ebw ebw' :
  SideInputs.append_all records ebw = (Ok tt, ebw') →
  ∃ wvs kvs,
    sub_elements_of_records (WindowGroupingBuffer._windowed_value_coder ebw)
      records = Ok wvs
    ∧ Forall2
        (fun wv kv =>
           WindowGroupingBuffer._kv_extractor ebw (value_of wv) = Ok kv)
        wvs kvs
    ∧ ebw'
      = WindowGroupingBuffer.mk
          (WindowGroupingBuffer._kv_extractor ebw)
          (WindowGroupingBuffer._key_coder ebw)
          (WindowGroupingBuffer._value_coder ebw)
          (WindowGroupingBuffer._windowed_value_coder ebw)
          (WindowGroupingBuffer._window_coder ebw)
          (foldl (fun t e => WindowGroupingBuffer.values_append e.1 e.2 t)
                 (WindowGroupingBuffer._values_by_window ebw)
                 (concat (zip_with entries_of wvs kvs))).
Proof.
  revert ebw. induction records as [|record records IH]; intros ebw;
    cbn [SideInputs.append_all sub_elements_of_records].
  - intros [= <-]. exists [], []. split; [reflexivity|].
    split; [constructor|]. destruct ebw; reflexivity.
  - unfold WindowGroupingBuffer.append.
    destruct (WindowGroupingBuffer.append_loop _ _ _ _) as [[[]| |] t1]
      eqn:Hloop; try discriminate.
    intros Hmore.
    destruct (append_loop_files _ _ _ _ _ Hloop)
      as (wvs1 & kvs1 & Hdec1 & HF1 & ->).
    destruct (IH _ Hmore) as (wvs2 & kvs2 & Hdec2 & HF2 & ->).
    simpl in Hdec2, HF2. simpl.
    exists (wvs1 ++ wvs2), (kvs1 ++ kvs2).
    unfold sub_elements. rewrite Hdec1, Hdec2.
    split; [reflexivity|]. split; [apply Forall2_app; assumption|].
    rewrite zip_with_app by (eapply Forall2_length; exact HF1).
    rewrite concat_app, foldl_app. reflexivity.
Qed.

Lemma encode_values_encodes (c : CoderImpl V) (values : list V) data :
  WindowGroupingBuffer.encode_values c values = Ok data →
  encodes c values data.
Proof.
  revert data. induction values as [|v values IH]; intros data; simpl.
  - intros [= <-]. reflexivity.
  - destruct (encode_to_stream c v) as [written| |] eqn:Hv; try discriminate.
    destruct (WindowGroupingBuffer.encode_values c values) as [rest| |];
      try discriminate.
    intros [= <-]. exists written, rest. auto.
Qed.

(** The writes of the [ITERABLE] branch: one per item, in order. *)
Lemma write_iterable_calls transform_id tag ebw servicer servicer' :
  SideInputs.write_iterable transform_id tag
    (WindowGroupingBuffer.encoded_items ebw) servicer = (Ok tt, servicer') →
  ∃ calls,
    servicer' = servicer ++ calls
    ∧ Forall2
        (fun (item : (V * W) * list V) (call : StateKey * bytes) =>
           ∃ encoded_window data,
             WindowGroupingBuffer._window_coder ebw item.1.2
             = Ok encoded_window
             ∧ encodes (WindowGroupingBuffer._value_coder ebw) item.2 data
             ∧ call = (IterableSideInput transform_id tag encoded_window,
                       data))
        (WindowGroupingBuffer._values_by_window ebw) calls.
Proof.
  unfold WindowGroupingBuffer.encoded_items.
  generalize (WindowGroupingBuffer._values_by_window ebw) as items.
  intros items. revert servicer.
  induction items as [|[[key window] values] items IH]; intros servicer;
    simpl.
  - intros [= <-]. exists []. rewrite app_nil_r. split; [reflexivity|].
    constructor.
  - destruct (WindowGroupingBuffer._window_coder ebw window)
      as [encoded_window| |] eqn:Hw; try discriminate.
    destruct (encode_to_stream (WindowGroupingBuffer._key_coder ebw) key)
      as [encoded_key| |]; try discriminate.
    destruct (WindowGroupingBuffer.encode_values
                (WindowGroupingBuffer._value_coder ebw) values)
      as [data| |] eqn:Hdata; try discriminate.
    intros Hmore. destruct (IH _ Hmore) as (calls & -> & HF).
    exists ((IterableSideInput transform_id tag encoded_window, data)
              :: calls).
    rewrite <- app_assoc. split; [reflexivity|].
    constructor; [|exact HF].
    exists encoded_window, data. simpl.
    split; [exact Hw|]. split; [|reflexivity].
    apply encode_values_encodes, Hdata.
Qed.

Lemma dict_get_elem {I B : Type} `{EqDecision I} (d : list (I * B)) i b :
  NoDup (dict_keys d) → (i, b) ∈ d → dict_get i d = Some b.
Proof.
  induction d as [|[j c] d IH]; simpl; [intros _ Hin; inversion Hin|].
  intros Hnd Hin. apply NoDup_cons in Hnd as [Hout Hnd].
  apply elem_of_cons in Hin as [[= -> ->]|Hin].
  - destruct (decide (j = j)); [reflexivity | congruence].
  - destruct (decide (j = i)) as [->|Hne]; [|auto].
    exfalso. apply Hout. apply list_elem_of_fmap. exists (i, b). auto.
Qed.

(** A dictionary filled from nothing, read item by item. *)
Lemma filed_items (entries : list ((V * W) * V)) :
  foldl (fun t e => WindowGroupingBuffer.values_append e.1 e.2 t) []
        entries
  = map (fun k => (k, values_under k entries)) (keys_added [] entries).
Proof.
  set (t := foldl (fun t e => WindowGroupingBuffer.values_append e.1 e.2 t)
                  [] entries).
  assert (Hkeys : dict_keys t = keys_added [] entries)
    by exact (fold_values_append_keys entries []).
  assert (Hnd : NoDup (dict_keys t)).
  { rewrite Hkeys. apply keys_added_NoDup. constructor. }
  assert (Hvals : ∀ k vs, (k, vs) ∈ t → vs = values_under k entries).
  { intros k vs Hin.
    pose proof (fold_values_append_get entries [] k) as Hget.
    fold t in Hget. rewrite (dict_get_elem t k vs Hnd Hin) in Hget.
    exact Hget. }
  rewrite <- Hkeys. clear Hkeys Hnd.
  induction t as [|[k vs] t IH]; simpl; [reflexivity|].
  rewrite (Hvals k vs) by left. f_equal.
  apply IH. intros k' vs' Hin. apply Hvals. right. exact Hin.
Qed.

Lemma dict_set_unchanged {I B : Type} `{EqDecision I} (d : list (I * B)) i b :
  dict_get i d = Some b → dict_set i b d = d.
Proof.
  induction d as [|[j c] d IH]; simpl; [discriminate|].
  destruct (decide (j = i)) as [->|Hne].
  - intros [= ->]. reflexivity.
  - intros Hget. rewrite IH by exact Hget. reflexivity.
Qed.

(** X27.  Committing one [ITERABLE] side input whose buffer is a
    [ListBuffer] of [pcoll_buffers], when the call returns: the buffer was
    not cleared; its records decode, all of them to their end, into
    windowed values; and the state servicer has received, after what it
    had, exactly one [append_raw] per window that occurs, in the order the
    windows first occur, under the iterable state key of the consuming
    transform, the tag and the encoded window, with the encodings, one
    after the other in reading order, of the values of the windowed values
    in that window.  [pcoll_buffers] is unchanged. *)
Theorem commit_side_inputs_to_state_iterable transform_id tag buffer_id
    func_spec b self self' :
  urn func_spec = ITERABLE_URN →
  dict_get buffer_id (SideInputs.pcoll_buffers self) = Some (BList b) →
  commit_side_inputs_to_state
    [((transform_id, tag), (buffer_id, func_spec))] self = (Ok tt, self') →
  ∃ kind pcoll_id coder_id safe_coder_id value_coder wvs calls,
    split_buffer_id buffer_id = Ok (kind, pcoll_id)
    ∧ data_channel_coders !! pcoll_id = Some coder_id
    ∧ safe_coders !! coder_id = Some safe_coder_id
    ∧ pipeline_context_coders safe_coder_id = Ok value_coder
    ∧ ListBuffer.cleared b = false
    ∧ sub_elements_of_records (get_impl value_coder) (ListBuffer._inputs b)
      = Ok wvs
    ∧ (let entries :=
         concat (map (fun wv => entries_of wv (empty_str, value_of wv)) wvs)
       in
       Forall2
         (fun (k : V * W) (call : StateKey * bytes) =>
            ∃ encoded_window data,
              window_coder value_coder k.2 = Ok encoded_window
              ∧ encodes (wrapped_value_coder value_coder)
                  (values_under k entries) data
              ∧ call = (IterableSideInput transform_id tag encoded_window,
                        data))
         (keys_added [] entries) calls)
    ∧ SideInputs.state_servicer self'
      = SideInputs.state_servicer self ++ calls
    ∧ SideInputs.pcoll_buffers self' = SideInputs.pcoll_buffers self.
Proof.
  intros Hurn Hbuf.
  cbn [SideInputs.commit_side_inputs_to_state].
  destruct (commit_side_input _ self) as [[[]| |] self1] eqn:Hone;
    try discriminate.
  intros [= <-]. revert Hone.
  unfold SideInputs.commit_side_input,
    FnApiRunnerExecutionContext.getitem.
  destruct (split_buffer_id buffer_id) as [[kind pcoll_id]| |] eqn:Hsplit;
    try discriminate.
  destruct (data_channel_coders !! pcoll_id) as [coder_id|] eqn:Hc1;
    try discriminate.
  destruct (safe_coders !! coder_id) as [safe_coder_id|] eqn:Hc2;
    try discriminate.
  destruct (pipeline_context_coders safe_coder_id) as [value_coder| |]
    eqn:Hc3; try discriminate.
  unfold WindowGroupingBuffer.__init__.
  rewrite !bool_decide_eq_true_2 by exact Hurn.
  rewrite Hbuf. rewrite Hbuf.
  unfold SideInputs.Buffer_iter, ListBuffer.__iter__.
  destruct (ListBuffer.cleared b) eqn:Hcl; cbv beta iota; [discriminate|].
  destruct (SideInputs.append_all _ _) as [[[]| |] ebw] eqn:Happ;
    try discriminate.
  destruct (SideInputs.write_iterable _ _ _ _) as [r servicer'] eqn:Hwrite.
  intros [= -> <-].
  destruct (append_all_files _ _ _ Happ) as (wvs & kvs & Hdec & HF & ->).
  simpl in Hdec, HF, Hwrite.
  assert (Hkvs : kvs = map (fun wv => (empty_str, value_of wv)) wvs).
  { clear -HF. induction HF as [|wv kv wvs kvs Hkv _ IH]; [reflexivity|].
    simpl. injection Hkv as <-. rewrite IH. reflexivity. }
  assert (Hentries :
            concat (zip_with entries_of wvs kvs)
            = concat (map (fun wv => entries_of wv (empty_str, value_of wv))
                          wvs)).
  { rewrite Hkvs. clear. f_equal.
    induction wvs as [|wv wvs IH]; [reflexivity|].
    simpl. rewrite IH. reflexivity. }
  destruct (write_iterable_calls _ _ _ _ _ Hwrite) as (calls & -> & Hcalls).
  simpl in Hcalls. rewrite Hentries, filed_items in Hcalls.
  exists kind, pcoll_id, coder_id, safe_coder_id, value_coder, wvs, calls.
  do 6 (split; [assumption || reflexivity|]).
  split; [|split; [reflexivity|]].
  - cbv zeta. apply Forall2_fmap_l in Hcalls. exact Hcalls.
  - simpl. apply dict_set_unchanged. exact Hbuf.
Qed.

Lemma dict_get_None_keys {I B : Type} `{EqDecision I} (d : list (I * B)) i :
  dict_get i d = None → i ∉ dict_keys d.
Proof.
  induction d as [|[j c] d IH]; simpl; [intros _; apply not_elem_of_nil|].
  destruct (decide (j = i)) as [->|Hne]; [discriminate|].
  intros Hget. apply not_elem_of_cons. split; [congruence | auto].
Qed.

Lemma dict_get_snoc {I B : Type} `{EqDecision I} (d : list (I * B)) i b :
  dict_get i d = None → dict_get i (d ++ [(i, b)]) = Some b.
Proof.
  induction d as [|[j c] d IH]; simpl.
  - intros _. destruct (decide (i = i)); [reflexivity | congruence].
  - destruct (decide (j = i)); [discriminate | exact IH].
Qed.

(** X28.  Committing a side input whose buffer id has no buffer yet, the
    coder lookups succeeding and the access pattern being [ITERABLE], or
    [MULTIMAP] over a key/value coder: the call returns normally, a new
    [ListBuffer] with the implementation of the value coder and no record
    is stored under the buffer id, after the existing buffers, and the
    state servicer receives nothing. *)
Theorem commit_side_inputs_to_state_missing_buffer transform_id tag
    buffer_id func_spec kind pcoll_id coder_id safe_coder_id value_coder
    self :
  split_buffer_id buffer_id = Ok (kind, pcoll_id) →
  data_channel_coders !! pcoll_id = Some coder_id →
  safe_coders !! coder_id = Some safe_coder_id →
  pipeline_context_coders safe_coder_id = Ok value_coder →
  urn func_spec = ITERABLE_URN
  ∨ (urn func_spec = MULTIMAP_URN
     ∧ is_Ok (wrapped_value_coder_key_coder value_coder) = true
     ∧ is_Ok (wrapped_value_coder_value_coder value_coder) = true) →
  dict_get buffer_id (SideInputs.pcoll_buffers self) = None →
  commit_side_inputs_to_state
    [((transform_id, tag), (buffer_id, func_spec))] self
  = (Ok tt,
     SideInputs.mk
       (SideInputs.pcoll_buffers self
          ++ [(buffer_id,
               BList (ListBuffer.mk (get_impl value_coder) [] None false))])
       (SideInputs.state_servicer self)).
Proof.
  intros Hsplit Hc1 Hc2 Hc3 Hpattern Hnone.
  cbn [SideInputs.commit_side_inputs_to_state].
  unfold SideInputs.commit_side_input,
    FnApiRunnerExecutionContext.getitem.
  rewrite Hsplit, Hc1, Hc2, Hc3, Hnone.
  rewrite (dict_set_new buffer_id _ (SideInputs.pcoll_buffers self))
    by (apply dict_get_None_keys; exact Hnone).
  rewrite dict_get_snoc by exact Hnone.
  assert (Hsame :
    dict_set buffer_id
      (BList (ListBuffer.mk (get_impl value_coder) [] None false))
      (SideInputs.pcoll_buffers self
         ++ [(buffer_id,
              BList (ListBuffer.mk (get_impl value_coder) [] None false))])
    = SideInputs.pcoll_buffers self
        ++ [(buffer_id,
             BList (ListBuffer.mk (get_impl value_coder) [] None false))]).
  { apply dict_set_unchanged. apply dict_get_snoc. exact Hnone. }
  unfold WindowGroupingBuffer.__init__.
  destruct Hpattern as [Hurn|(Hurn & Hkey & Hvalue)].
  - rewrite !bool_decide_eq_true_2 by exact Hurn. simpl.
    change (ListBuffer.__init__ (Some (get_impl value_coder)))
      with (ListBuffer.mk (get_impl value_coder) [] None false).
    rewrite Hsame. reflexivity.
  - destruct (wrapped_value_coder_key_coder value_coder) as [kc| |];
      try discriminate Hkey.
    destruct (wrapped_value_coder_value_coder value_coder) as [vc| |];
      try discriminate Hvalue.
    rewrite !(bool_decide_eq_true_2 (urn func_spec = MULTIMAP_URN))
      by exact Hurn.
    destruct (bool_decide (urn func_spec = ITERABLE_URN)); simpl;
      change (ListBuffer.__init__ (Some (get_impl value_coder)))
        with (ListBuffer.mk (get_impl value_coder) [] None false);
      rewrite Hsame; reflexivity.
Qed.

(** X29.  A side input whose access pattern is neither [ITERABLE] nor
    [MULTIMAP] ends [commit_side_inputs_to_state] before anything is
    written: no buffer is created, the state servicer receives nothing,
    and the entries after it are not committed.  When the coder lookups
    succeed the exception is the [ValueError] of the
    [WindowGroupingBuffer] constructor, so the last branch of the method
    is never reached. *)
Theorem commit_side_inputs_to_state_unknown_access_pattern transform_id tag
    buffer_id func_spec more self :
  urn func_spec ≠ ITERABLE_URN →
  urn func_spec ≠ MULTIMAP_URN →
  let r :=
    commit_side_inputs_to_state
      (((transform_id, tag), (buffer_id, func_spec)) :: more) self in
  r.2 = self
  ∧ is_Ok r.1 = false
  ∧ (∀ kind pcoll_id coder_id safe_coder_id value_coder,
       split_buffer_id buffer_id = Ok (kind, pcoll_id) →
       data_channel_coders !! pcoll_id = Some coder_id →
       safe_coders !! coder_id = Some safe_coder_id →
       pipeline_context_coders safe_coder_id = Ok value_coder →
       r.1 = Raise (ValueError ("Unknown access pattern: '"
                                +:+ urn func_spec +:+ "'"))).
Proof.
  intros Hit Hmm. cbv zeta.
  cbn [SideInputs.commit_side_inputs_to_state].
  unfold SideInputs.commit_side_input,
    FnApiRunnerExecutionContext.getitem, WindowGroupingBuffer.__init__.
  rewrite !bool_decide_eq_false_2 by assumption.
  split; [|split].
  - destruct (split_buffer_id buffer_id) as [[kind pcoll_id]| |];
      [|reflexivity..].
    destruct (data_channel_coders !! pcoll_id) as [coder_id|]; [|reflexivity].
    destruct (safe_coders !! coder_id) as [safe_coder_id|]; [|reflexivity].
    destruct (pipeline_context_coders safe_coder_id); reflexivity.
  - destruct (split_buffer_id buffer_id) as [[kind pcoll_id]| |];
      [|reflexivity..].
    destruct (data_channel_coders !! pcoll_id) as [coder_id|]; [|reflexivity].
    destruct (safe_coders !! coder_id) as [safe_coder_id|]; [|reflexivity].
    destruct (pipeline_context_coders safe_coder_id); reflexivity.
  - intros kind pcoll_id coder_id safe_coder_id value_coder Hs Hc1 Hc2 Hc3.
    rewrite Hs, Hc1, Hc2, Hc3. reflexivity.
Qed.

End SideInputsFacts.

Lemma WindowGroupingBuffer_append_files_by_key_and_window_witness :
  let r :=
    WindowGroupingBuffer.append ["a"; "003"; "b"; "001"]%byte
      SideInputSamples.elements_by_window in
  r.1 = Ok tt
  ∧ WindowGroupingBuffer._values_by_window r.2
    = [((SideInputSamples.SStr, 0%nat),
        [SideInputSamples.SByte "a"; SideInputSamples.SByte "b"]);
       ((SideInputSamples.SStr, 1%nat), [SideInputSamples.SByte "a"])]
  ∧ ∃ wvs kvs,
      sub_elements SideInputSamples.windowed_coder
        ["a"; "003"; "b"; "001"]%byte = Ok wvs
      ∧ Forall2 (fun wv kv => Ok (SideInputSamples.SStr, value_of wv) = Ok kv)
          wvs kvs
      ∧ ∀ k,
          default [] (dict_get k (WindowGroupingBuffer._values_by_window r.2))
          = values_under k (concat (zip_with entries_of wvs kvs)).
Proof.
  cbv zeta.
  set (r := WindowGroupingBuffer.append ["a"; "003"; "b"; "001"]%byte
              SideInputSamples.elements_by_window).
  assert (Hrun : r = (Ok tt, r.2)) by reflexivity.
  split; [reflexivity|]. split; [reflexivity|].
  destruct (WindowGroupingBuffer_append_files_by_key_and_window _ _ _ Hrun)
    as (wvs & kvs & Hdec & HF & Hget & _).
  exists wvs, kvs. split; [exact Hdec|]. split; [exact HF|].
  intros k. rewrite Hget. reflexivity.
Defined.

Lemma commit_side_inputs_to_state_iterable_witness :
  let r := SideInputSamples.commit [SideInputSamples.iterable]
             SideInputSamples.state in
  r.1 = Ok tt
  ∧ SideInputs.state_servicer r.2
    = [(IterableSideInput "t" "tag" ["000"%byte], ["a"; "b"]%byte);
       (IterableSideInput "t" "tag" ["001"%byte], ["a"; "c"]%byte)]
  ∧ SideInputs.pcoll_buffers r.2
    = SideInputs.pcoll_buffers SideInputSamples.state
  ∧ ∃ wvs,
      sub_elements_of_records SideInputSamples.windowed_coder
        [["a"; "003"; "b"; "001"]; ["c"; "002"]]%byte = Ok wvs
      ∧ length wvs = 3%nat.
Proof.
  cbv zeta.
  set (r := SideInputSamples.commit [SideInputSamples.iterable]
              SideInputSamples.state).
  assert (Hrun : r = (Ok tt, r.2)) by reflexivity.
  destruct (commit_side_inputs_to_state_iterable
              SideInputSamples.ITERABLE_URN SideInputSamples.MULTIMAP_URN
              SideInputSamples.SingletonCoder
              DictionarySamples.split_buffer_id
              {["pc"%string := "c"%string]}
              {["c"%string := "c_safe"%string]}
              SideInputSamples.pipeline_context_coders
              SideInputSamples.struct_pack_i
              "t" "tag" SideInputSamples.buffer_id
              (mkFunctionSpec SideInputSamples.ITERABLE_URN [])
              (ListBuffer.mk SideInputSamples.windowed_coder
                 [["a"; "003"; "b"; "001"]; ["c"; "002"]]%byte None false)
              SideInputSamples.state r.2 eq_refl eq_refl Hrun)
    as (kind & pcoll_id & coder_id & safe_coder_id & value_coder & wvs
        & calls & _ & _ & _ & _ & _ & Hdec & _ & _ & Hbuffers).
  split; [reflexivity|]. split; [reflexivity|]. split; [exact Hbuffers|].
  exists [SideInputSamples.SWindowed "a" [0%nat; 1%nat];
          SideInputSamples.SWindowed "b" [0%nat];
          SideInputSamples.SWindowed "c" [1%nat]].
  split; reflexivity.
Defined.

Lemma commit_side_inputs_to_state_missing_buffer_witness :
  SideInputSamples.commit [SideInputSamples.iterable] (SideInputs.mk [] [])
  = (Ok tt,
     SideInputs.mk
       [(SideInputSamples.buffer_id,
         BList (ListBuffer.mk SideInputSamples.windowed_coder [] None false))]
       []).
Proof.
  exact (commit_side_inputs_to_state_missing_buffer
           SideInputSamples.ITERABLE_URN SideInputSamples.MULTIMAP_URN
           SideInputSamples.SingletonCoder
           DictionarySamples.split_buffer_id
           {["pc"%string := "c"%string]}
           {["c"%string := "c_safe"%string]}
           SideInputSamples.pipeline_context_coders
           SideInputSamples.struct_pack_i
           "t" "tag" SideInputSamples.buffer_id
           (mkFunctionSpec SideInputSamples.ITERABLE_URN [])
           "materialize" "pc" "c" "c_safe" SideInputSamples.coder
           (SideInputs.mk [] [])
           eq_refl eq_refl eq_refl eq_refl (or_introl eq_refl) eq_refl).
Defined.

Lemma commit_side_inputs_to_state_unknown_access_pattern_witness :
  let r :=
    SideInputSamples.commit
      [SideInputSamples.unknown; SideInputSamples.iterable]
      SideInputSamples.state in
  r.2 = SideInputSamples.state
  ∧ r.1 = Raise (ValueError
                   "Unknown access pattern: 'beam:side_input:other:v1'").
Proof.
  cbv zeta.
  destruct (commit_side_inputs_to_state_unknown_access_pattern
              SideInputSamples.ITERABLE_URN SideInputSamples.MULTIMAP_URN
              SideInputSamples.SingletonCoder
              DictionarySamples.split_buffer_id
              {["pc"%string := "c"%string]}
              {["c"%string := "c_safe"%string]}
              SideInputSamples.pipeline_context_coders
              SideInputSamples.struct_pack_i
              "t" "tag" SideInputSamples.buffer_id
              (mkFunctionSpec "beam:side_input:other:v1" [])
              [SideInputSamples.iterable] SideInputSamples.state
              ltac:(discriminate) ltac:(discriminate))
    as (Hstate & _ & Hraise).
  split; [exact Hstate|].
  exact (Hraise "materialize"%string "pc"%string "c"%string "c_safe"%string
           SideInputSamples.coder eq_refl eq_refl eq_refl eq_refl).
Defined.

(** ** Finding the read that feeds a transform *)

Section InputFor.
Variable DATA_INPUT_URN TRUNCATE_SIZED_RESTRICTION_URN : string.

Local Abbreviation find_grpc_read :=
  (BundleContextManager.find_grpc_read DATA_INPUT_URN).
Local Abbreviation input_for_loop :=
  (BundleContextManager.input_for_loop DATA_INPUT_URN
     TRUNCATE_SIZED_RESTRICTION_URN).
Local Abbreviation input_for :=
  (BundleContextManager.input_for DATA_INPUT_URN
     TRUNCATE_SIZED_RESTRICTION_URN).

Implicit Types (transforms items : list (string * PTransform))
  (proto : PTransform).

Lemma find_grpc_read_Some read_input items grpc_read :
  find_grpc_read read_input items = Some grpc_read →
  ∃ read, (grpc_read, read) ∈ items
          ∧ urn (spec read) = DATA_INPUT_URN
          ∧ read_input ∈ map snd (outputs read).
Proof.
  induction items as [|[id proto] items IH]; simpl; [discriminate|].
  destruct (bool_decide (urn (spec proto) = DATA_INPUT_URN)
            && BundleContextManager.outputs_pcoll read_input proto)
    eqn:Htest.
  - intros [= <-]. apply andb_true_iff in Htest as [Hu Ho].
    apply bool_decide_eq_true in Hu, Ho.
    exists proto. split; [left | auto].
  - intros Hmore. destruct (IH Hmore) as (read & Hin & Hrest).
    exists read. split; [right; exact Hin | exact Hrest].
Qed.

Lemma input_for_loop_sound transforms transform_id input_pcoll items :
  NoDup (dict_keys transforms) →
  (∀ item, item ∈ items → item ∈ transforms) →
  match input_for_loop transforms transform_id input_pcoll items with
  | Ok read_id =>
      ∃ read,
        (read_id, read) ∈ transforms
        ∧ urn (spec read) = DATA_INPUT_URN
        ∧ (input_pcoll ∈ map snd (outputs read)
           ∨ ∃ id truncate read_input more,
               (id, truncate) ∈ transforms
               ∧ urn (spec truncate) = TRUNCATE_SIZED_RESTRICTION_URN
               ∧ input_pcoll ∈ map snd (outputs truncate)
               ∧ map snd (inputs truncate) = read_input :: more
               ∧ read_input ∈ map snd (outputs read))
  | Raise e =>
      (e = RuntimeError ("No IO transform feeds " +:+ transform_id)
       ∧ ∀ id read, (id, read) ∈ items →
                    urn (spec read) = DATA_INPUT_URN →
                    input_pcoll ∉ map snd (outputs read))
      ∨ (e = IndexError
         ∧ ∃ id truncate,
             (id, truncate) ∈ transforms
             ∧ urn (spec truncate) = TRUNCATE_SIZED_RESTRICTION_URN
             ∧ input_pcoll ∈ map snd (outputs truncate)
             ∧ inputs truncate = [])
  | Diverge => False
  end.
Proof.
  intros Hnd. induction items as [|[read_id proto] items IH]; intros Hsub;
    cbn [BundleContextManager.input_for_loop].
  - left. split; [reflexivity|]. intros id read Hin. inversion Hin.
  - assert (Hhere : (read_id, proto) ∈ transforms) by (apply Hsub; left).
    assert (Hrest : ∀ item, item ∈ items → item ∈ transforms)
      by (intros item Hitem; apply Hsub; right; exact Hitem).
    specialize (IH Hrest).
    assert (Hskip :
      bool_decide (urn (spec proto) = DATA_INPUT_URN)
      && BundleContextManager.outputs_pcoll input_pcoll proto = false →
      match input_for_loop transforms transform_id input_pcoll items with
      | Ok read_id0 =>
          ∃ read,
            (read_id0, read) ∈ transforms
            ∧ urn (spec read) = DATA_INPUT_URN
            ∧ (input_pcoll ∈ map snd (outputs read)
               ∨ ∃ id truncate read_input more,
                   (id, truncate) ∈ transforms
                   ∧ urn (spec truncate) = TRUNCATE_SIZED_RESTRICTION_URN
                   ∧ input_pcoll ∈ map snd (outputs truncate)
                   ∧ map snd (inputs truncate) = read_input :: more
                   ∧ read_input ∈ map snd (outputs read))
      | Raise e =>
          (e = RuntimeError ("No IO transform feeds " +:+ transform_id)
           ∧ ∀ id read, (id, read) ∈ (read_id, proto) :: items →
                        urn (spec read) = DATA_INPUT_URN →
                        input_pcoll ∉ map snd (outputs read))
          ∨ (e = IndexError
             ∧ ∃ id truncate,
                 (id, truncate) ∈ transforms
                 ∧ urn (spec truncate) = TRUNCATE_SIZED_RESTRICTION_URN
                 ∧ input_pcoll ∈ map snd (outputs truncate)
                 ∧ inputs truncate = [])
      | Diverge => False
      end).
    { intros Htest.
      destruct (input_for_loop transforms transform_id input_pcoll items)
        as [r|e|]; [exact IH | | exact IH].
      destruct IH as [[-> Hnone]|Hindex]; [left | right; exact Hindex].
      split; [reflexivity|]. intros id read Hin Hu.
      apply elem_of_cons in Hin as [[= -> ->]|Hin]; [|eauto].
      apply andb_false_iff in Htest as [Hf|Hf].
      - apply bool_decide_eq_false in Hf. contradiction.
      - apply bool_decide_eq_false in Hf. exact Hf. }
    destruct (bool_decide (urn (spec proto) = DATA_INPUT_URN)
              && BundleContextManager.outputs_pcoll input_pcoll proto)
      eqn:Hread.
    { apply andb_true_iff in Hread as [Hu Ho].
      apply bool_decide_eq_true in Hu, Ho.
      exists proto. auto. }
    destruct (bool_decide (urn (spec proto) = TRUNCATE_SIZED_RESTRICTION_URN)
              && BundleContextManager.outputs_pcoll input_pcoll proto)
      eqn:Htruncate; [|exact (Hskip eq_refl)].
    apply andb_true_iff in Htruncate as [Hu Ho].
    apply bool_decide_eq_true in Hu, Ho.
    rewrite (dict_get_elem transforms read_id proto Hnd Hhere).
    destruct (inputs proto) as [|[tag read_input] more] eqn:Hinputs; simpl.
    { right. split; [reflexivity|]. exists read_id, proto. auto. }
    destruct (find_grpc_read read_input transforms) as [grpc_read|] eqn:Hfind;
      [|exact (Hskip eq_refl)].
    destruct (find_grpc_read_Some _ _ _ Hfind) as (read & Hin & Hur & Hor).
    exists read. split; [exact Hin|]. split; [exact Hur|]. right.
    exists read_id, proto, read_input, (map snd more).
    rewrite Hinputs. simpl. auto.
Qed.

(** X30.  [input_for] on a descriptor that has the transform and the
    input: an id it returns is the id of a [DATA_INPUT] transform of the
    descriptor that outputs the PCollection read through the input, or
    that outputs the first input of a truncate transform which outputs that
    PCollection.  It raises "No IO transform feeds ..." only when no
    [DATA_INPUT] transform outputs the PCollection, and [IndexError] only
    when a truncate transform that outputs it has no input; it raises
    nothing else. *)
Theorem input_for_finds_the_read transforms transform_id input_id proto
    input_pcoll :
  NoDup (dict_keys transforms) →
  dict_get transform_id transforms = Some proto →
  dict_get input_id (inputs proto) = Some input_pcoll →
  match input_for transforms transform_id input_id with
  | Ok read_id =>
      ∃ read,
        (read_id, read) ∈ transforms
        ∧ urn (spec read) = DATA_INPUT_URN
        ∧ (input_pcoll ∈ map snd (outputs read)
           ∨ ∃ id truncate read_input more,
               (id, truncate) ∈ transforms
               ∧ urn (spec truncate) = TRUNCATE_SIZED_RESTRICTION_URN
               ∧ input_pcoll ∈ map snd (outputs truncate)
               ∧ map snd (inputs truncate) = read_input :: more
               ∧ read_input ∈ map snd (outputs read))
  | Raise e =>
      (e = RuntimeError ("No IO transform feeds " +:+ transform_id)
       ∧ ∀ id read, (id, read) ∈ transforms →
                    urn (spec read) = DATA_INPUT_URN →
                    input_pcoll ∉ map snd (outputs read))
      ∨ (e = IndexError
         ∧ ∃ id truncate,
             (id, truncate) ∈ transforms
             ∧ urn (spec truncate) = TRUNCATE_SIZED_RESTRICTION_URN
             ∧ input_pcoll ∈ map snd (outputs truncate)
             ∧ inputs truncate = [])
  | Diverge => False
  end.
Proof.
  intros Hnd Hproto Hinput. unfold BundleContextManager.input_for.
  rewrite Hproto, Hinput.
  apply input_for_loop_sound; [exact Hnd | auto].
Qed.

End InputFor.

Lemma input_for_finds_the_read_witness :
  DescriptorSamples.input_for "process" "in" = Ok "read"%string
  ∧ DescriptorSamples.input_for "truncate" "in" = Ok "read"%string
  ∧ ∃ read,
      ("read"%string, read) ∈ DescriptorSamples.transforms
      ∧ urn (spec read) = Samples.DATA_INPUT_URN
      ∧ ("pc_truncated"%string ∈ map snd (outputs read)
         ∨ ∃ id truncate read_input more,
             (id, truncate) ∈ DescriptorSamples.transforms
             ∧ urn (spec truncate)
               = DescriptorSamples.TRUNCATE_SIZED_RESTRICTION_URN
             ∧ "pc_truncated"%string ∈ map snd (outputs truncate)
             ∧ map snd (inputs truncate) = read_input :: more
             ∧ read_input ∈ map snd (outputs read)).
Proof.
  assert (Hnd : NoDup (dict_keys DescriptorSamples.transforms))
    by (apply (bool_decide_unpack _); reflexivity).
  assert (Hrun : DescriptorSamples.input_for "process" "in"
                 = Ok "read"%string) by reflexivity.
  pose proof (input_for_finds_the_read Samples.DATA_INPUT_URN
                DescriptorSamples.TRUNCATE_SIZED_RESTRICTION_URN
                DescriptorSamples.transforms "process" "in" _
                "pc_truncated" Hnd eq_refl eq_refl) as Hsound.
  unfold DescriptorSamples.input_for in Hrun. rewrite Hrun in Hsound.
  split; [reflexivity|]. split; [reflexivity|]. exact Hsound.
Defined.
